(** * nuan-utils: numeral formatting, decimal-safe arithmetic, coordinate transforms

    A shallow embedding of the pure functions of [amount.ts], [math.ts] and
    [coordtransform.ts], with the properties their specification states.

    - JavaScript numbers are IEEE-754 binary64 values: Rocq's primitive floats.
    - JavaScript strings are [string]s; the Chinese numerals are written as
      UTF-8 literals, so one character of the source is three bytes here and
      concatenation, prefix tests and splitting on ASCII separators agree
      with the source.
    - [Number.prototype.toString], [Math.round], [Math.floor], [%] and
      [Math.pow(10, n)] are host functions; module [JS] defines them from
      ECMA-262.
    - [Math.sin], [Math.cos] and [Math.atan2] are left to the implementation
      by ECMA-262: they are parameters of the coordinate transforms.  Where
      a transform is followed in binary64, the error of [+], [-], [*] and
      [Math.sqrt] is proved from the specification of the primitive floats
      and the three functions are taken within 1e-12 of the real ones. *)

From Stdlib Require Import ZArith List Bool String Ascii Floats Lia.
From Stdlib Require Import Reals Lra Psatz.
From Stdlib Require Uint63.
Import ListNotations.

Set Warnings "-inexact-float".
#[local] Open Scope string_scope.
#[local] Open Scope Z_scope.

(* ================================================================== *)
(** * The host: ECMAScript numbers and strings *)
(* ================================================================== *)

Module JS.

Definition number := float.

(** ** Strings *)

(** [s.split(sep)] for a non-empty separator.  [skip] counts the characters
    of a separator that has just been matched and is still to be dropped. *)
Fixpoint splitAux (sep s : string) (skip : nat) (cur : string) : list string :=
  match s with
  | EmptyString => [cur]
  | String c s' =>
      match skip with
      | S k => splitAux sep s' k cur
      | O => if String.prefix sep s
             then cur :: splitAux sep s' (String.length sep - 1) EmptyString
             else splitAux sep s' O (cur ++ String c EmptyString)
      end
  end.

Definition split (sep s : string) : list string := splitAux sep s O EmptyString.

(** [s.indexOf(pat)], [-1] when [pat] does not occur. *)
Fixpoint indexOfFrom (pat s : string) (i : Z) : Z :=
  if String.prefix pat s then i
  else match s with
       | EmptyString => -1
       | String _ s' => indexOfFrom pat s' (i + 1)
       end.

Definition indexOf (pat s : string) : Z := indexOfFrom pat s 0.

(** Whether [pat] occurs in [s]. *)
Fixpoint occurs (pat s : string) : bool :=
  if String.prefix pat s then true
  else match s with
       | EmptyString => false
       | String _ s' => occurs pat s'
       end.

(** A string is truthy when it is not empty. *)
Definition truthy (s : string) : bool :=
  match s with EmptyString => false | _ => true end.

(** [s.split('')]: the characters of [s]. *)
Definition chars (s : string) : list ascii := list_ascii_of_string s.

(** [arr[i] || ''] and [arr[i]] on an array of strings; an index out of
    range reads [undefined], which concatenates as ["undefined"]. *)
Definition undefinedText : string := "undefined".

Definition at_ (arr : list string) (i : nat) : string := nth i arr undefinedText.

Definition atOrEmpty (arr : list string) (i : nat) : string := nth i arr EmptyString.

(** [parseInt(c, 10)] of a one-character string: [None] is [NaN]. *)
Definition parseDigit (c : ascii) : option nat :=
  let n := nat_of_ascii c in
  if (48 <=? n)%nat && (n <=? 57)%nat then Some (n - 48)%nat else None.

(** [parseInt(s, 10)] restricted to what the sources pass it, an unsigned
    run of digits possibly followed by other characters: the value of the
    longest digit prefix, [None] ([NaN]) when there is none. *)
Fixpoint parseIntAux (s : string) (acc : option nat) : option nat :=
  match s with
  | EmptyString => acc
  | String c s' =>
      match parseDigit c with
      | Some d => parseIntAux s' (Some (10 * match acc with Some a => a | None => 0 end + d)%nat)
      | None => acc
      end
  end.

Definition parseInt (s : string) : option nat := parseIntAux s None.

(** ** Number.prototype.toString (radix 10), ECMA-262 6.1.6.1.20 *)

(** Decimal digits of a non-negative integer, most significant first. *)
Fixpoint digitsAux (fuel : nat) (z : Z) (acc : list Z) : list Z :=
  match fuel with
  | O => z mod 10 :: acc
  | S f => if z <? 10 then z mod 10 :: acc
           else digitsAux f (z / 10) (z mod 10 :: acc)
  end.

Definition digitsOf (z : Z) : list Z := digitsAux (Z.to_nat (Z.log2 z)) z [].

Definition digitChar (d : Z) : ascii := ascii_of_nat (48 + Z.to_nat d).

Fixpoint digitString (ds : list Z) : string :=
  match ds with
  | [] => EmptyString
  | d :: r => String (digitChar d) (digitString r)
  end.

Fixpoint stripZerosRev (ds : list Z) : list Z :=
  match ds with
  | 0 :: r => stripZerosRev r
  | _ => ds
  end.

Definition stripTrailingZeros (ds : list Z) : list Z :=
  rev (stripZerosRev (rev ds)).

Definition zeros (n : Z) : list Z := repeat 0 (Z.to_nat n).

(** The reals that round to the binary64 value [m * 2^e], as fractions over
    the common denominator [ivDen]: the interval between the midpoints to
    the two neighbouring values, closed exactly when [m] is even. *)
Record interval := {
  ivLow : Z; ivVal : Z; ivHigh : Z; ivDen : Z; ivClosed : bool }.

Definition roundingInterval (m e : Z) : interval :=
  let U := if 0 <=? e then 2 ^ e else 1 in
  let Den := if 0 <=? e then 4 else 4 * 2 ^ (- e) in
  let v := 4 * m * U in
  let lowGap := if (m =? 2 ^ 52) && (-1074 <? e) then U else 2 * U in
  {| ivLow := v - lowGap; ivVal := v; ivHigh := v + 2 * U;
     ivDen := Den; ivClosed := Z.even m |}.

(** The decimal [s * 10^t] as a fraction. *)
Definition decNum (s t : Z) : Z := if 0 <=? t then s * 10 ^ t else s.
Definition decDen (t : Z) : Z := if 0 <=? t then 1 else 10 ^ (- t).

Definition inInterval (iv : interval) (s t : Z) : bool :=
  let cn := decNum s t * ivDen iv in
  let lo := ivLow iv * decDen t in
  let hi := ivHigh iv * decDen t in
  if ivClosed iv then (lo <=? cn) && (cn <=? hi) else (lo <? cn) && (cn <? hi).

(** [floor (v / 10^t)]. *)
Definition floorScaled (iv : interval) (t : Z) : Z :=
  if 0 <=? t then ivVal iv / (ivDen iv * 10 ^ t)
  else (ivVal iv * 10 ^ (- t)) / ivDen iv.

(** The least [n'] from [n] on with [v < 10^n']. *)
Fixpoint firstPow (fuel : nat) (iv : interval) (n : Z) : Z :=
  match fuel with
  | O => n
  | S f => if ivVal iv * decDen n <? decNum 1 n * ivDen iv then n
           else firstPow f iv (n + 1)
  end.

Definition decimalExponent (m e : Z) (iv : interval) : Z :=
  firstPow 6 iv (((Z.log2 m + e) * 30103) / 100000 - 1).

(** The [k]-digit decimals next to [v]; the one in the interval, the closer
    one when both are, the even one on a tie. *)
Definition pickDigits (iv : interval) (n0 k : Z) : option Z :=
  let t := n0 - k in
  let lo := floorScaled iv t in
  let hi := lo + 1 in
  match inInterval iv lo t, inInterval iv hi t with
  | true, true =>
      let twice := 2 * ivVal iv * decDen t in
      let mid := decNum (lo + hi) t * ivDen iv in
      Some (if twice <? mid then lo
            else if mid <? twice then hi
            else if Z.even lo then lo else hi)
  | true, false => Some lo
  | false, true => Some hi
  | false, false => None
  end.

(** The shortest digit string that reads back as the value: [k] as small
    as possible, from one digit up. *)
Fixpoint shortest (fuel : nat) (iv : interval) (n0 k : Z) : option (Z * Z) :=
  match fuel with
  | O => None
  | S f => match pickDigits iv n0 k with
           | Some s => Some (s, n0 - k)
           | None => shortest f iv n0 (k + 1)
           end
  end.

(** The exact decimal expansion of [m * 2^e], as [s * 10^t]. *)
Definition exactDecimal (m e : Z) : Z * Z :=
  if 0 <=? e then (m * 2 ^ e, 0) else (m * 5 ^ (- e), e).

(** Steps 6 to 10 of Number::toString: the digits [ds] and the position
    [n] of the decimal point laid out in fixed or exponential notation. *)
Definition render (ds : list Z) (n : Z) : string :=
  let k := Z.of_nat (List.length ds) in
  if (k <=? n) && (n <=? 21) then digitString (ds ++ zeros (n - k))
  else if (0 <? n) && (n <=? 21) then
    digitString (firstn (Z.to_nat n) ds) ++ "." ++ digitString (skipn (Z.to_nat n) ds)
  else if (-6 <? n) && (n <=? 0) then
    "0." ++ digitString (zeros (- n) ++ ds)
  else
    let e := n - 1 in
    let es := (if 0 <=? e then "+" else "-") ++ digitString (digitsOf (Z.abs e)) in
    match ds with
    | [] => "e" ++ es
    | [d] => digitString [d] ++ "e" ++ es
    | d :: r => digitString [d] ++ "." ++ digitString r ++ "e" ++ es
    end.

(** Seventeen digits are enough for every binary64 value; were the search
    to end without a result, the exact expansion would be printed. *)
Definition positiveToString (m e : Z) : string :=
  let iv := roundingInterval m e in
  let n0 := decimalExponent m e iv in
  let '(s, t) := match shortest 17 iv n0 1 with
                  | Some st => st
                  | None => exactDecimal m e
                  end in
  let ds := digitsOf s in
  render (stripTrailingZeros ds) (t + Z.of_nat (List.length ds)).

Definition toString (x : number) : string :=
  match Prim2SF x with
  | S754_nan => "NaN"
  | S754_zero _ => "0"
  | S754_infinity s => if s then "-Infinity" else "Infinity"
  | S754_finite s m e => (if s then "-" else "") ++ positiveToString (Z.pos m) e
  end.

(** ** Math *)

(** The number nearest to the integer [z] (exact below [2^53]). *)
Definition ofZ (z : Z) : number := SF2Prim (binary_normalize prec emax z 0 false).

Definition ofNat (n : nat) : number := ofZ (Z.of_nat n).

Definition signedZero (s : bool) : number := SF2Prim (S754_zero s).

Definition signedMantissa (s : bool) (m : positive) : Z :=
  if s then Z.neg m else Z.pos m.

(** [Math.floor]. *)
Definition Math_floor (x : number) : number :=
  match Prim2SF x with
  | S754_finite s m e =>
      if 0 <=? e then x
      else let q := signedMantissa s m / 2 ^ (- e) in
           if q =? 0 then signedZero s else ofZ q
  | _ => x
  end.

(** [Math.round]: the nearest integer, a tie going towards +infinity;
    [-0] for [-0.5 <= x < 0]. *)
Definition Math_round (x : number) : number :=
  match Prim2SF x with
  | S754_finite s m e =>
      if 0 <=? e then x
      else let q := (2 * signedMantissa s m + 2 ^ (- e)) / 2 ^ (1 - e) in
           if q =? 0 then signedZero s else ofZ q
  | _ => x
  end.

(** Whether [x + 1/2] is an integer: the ties of [Math.round]. *)
Definition isHalfInteger (x : number) : bool :=
  match Prim2SF x with
  | S754_finite _ m e =>
      (e <? 0) && ((2 * Z.pos m + 2 ^ (- e)) mod 2 ^ (1 - e) =? 0)
  | _ => false
  end.

(** [Math.pow(10, n)] for a count [n] of decimal places.  The powers up to
    [10^22] are binary64 values and engines return them exactly.  Above
    [10^22] the result is the engine's own approximation
    ([9.999999999999999e+25] for [n = 26] on V8), which the nearest value
    taken here need not be: what is proved of the four operations is
    stated for scales up to [10^22] (a place count is at most 22), or
    holds whatever the value of the power. *)
Definition pow10 (n : nat) : number := ofZ (10 ^ Z.of_nat n).

(** [x % y] (Number::remainder): exact, with the sign of the dividend. *)
Definition remainder (x y : number) : number :=
  match Prim2SF x, Prim2SF y with
  | S754_nan, _ | _, S754_nan => nan
  | S754_infinity _, _ | _, S754_zero _ => nan
  | _, S754_infinity _ | S754_zero _, _ => x
  | S754_finite sx mx ex, S754_finite _ my ey =>
      let e := Z.min ex ey in
      let r := (Z.pos mx * 2 ^ (ex - e)) mod (Z.pos my * 2 ^ (ey - e)) in
      if r =? 0 then signedZero sx
      else SF2Prim (binary_normalize prec emax (if sx then - r else r) e false)
  end.

(** ** Number(string): StringToNumber, ECMA-262 7.1.4.1.1 *)

(** The number nearest to [n / d], for [n >= 0] and [d > 0]: the quotient
    is taken with 64 bits or more and a sticky bit below them, then
    rounded to nearest-even. *)
Definition ofFraction (neg : bool) (n d : Z) : number :=
  if n =? 0 then signedZero neg
  else
    let sh := Z.max 0 (66 + Z.log2 d - Z.log2 n) in
    let q := (n * 2 ^ sh) / d in
    let sticky := if (n * 2 ^ sh) mod d =? 0 then 0 else 1 in
    let m := 2 * q + sticky in
    SF2Prim (binary_normalize prec emax (if neg then - m else m) (- sh - 1) false).

(** The number nearest to [m * 10^e]. *)
Definition ofDecimal (neg : bool) (m e : Z) : number :=
  if 0 <=? e then ofFraction neg (m * 10 ^ e) 1 else ofFraction neg m (10 ^ (- e)).

Definition utf8 (bytes : list nat) : string :=
  string_of_list_ascii (map ascii_of_nat bytes).

(** WhiteSpace and LineTerminator, UTF-8 encoded. *)
Definition whiteSpace : list string :=
  map utf8
    [ [9]; [10]; [11]; [12]; [13]; [32]; [194; 160]; [225; 154; 128];
      [226; 128; 128]; [226; 128; 129]; [226; 128; 130]; [226; 128; 131];
      [226; 128; 132]; [226; 128; 133]; [226; 128; 134]; [226; 128; 135];
      [226; 128; 136]; [226; 128; 137]; [226; 128; 138]; [226; 128; 168];
      [226; 128; 169]; [226; 128; 175]; [226; 129; 159]; [227; 128; 128];
      [239; 187; 191] ]%nat.

Definition drop (n : nat) (s : string) : string :=
  String.substring n (String.length s - n) s.

Fixpoint skipWhite (fuel : nat) (s : string) : string :=
  match fuel with
  | O => s
  | S f => match find (fun w => String.prefix w s) whiteSpace with
           | Some w => skipWhite f (drop (String.length w) s)
           | None => s
           end
  end.

(** The longest prefix of digits in the given base: its value, how many
    digits it has, and the rest of the string. *)
Definition digitValue (base : Z) (c : ascii) : option Z :=
  let n := Z.of_nat (nat_of_ascii c) in
  let v := if (48 <=? n) && (n <=? 57) then n - 48
           else if (97 <=? n) && (n <=? 102) then n - 87
           else if (65 <=? n) && (n <=? 70) then n - 55
           else base in
  if v <? base then Some v else None.

Fixpoint readDigits (base : Z) (s : string) (acc : Z) (count : Z) : Z * Z * string :=
  match s with
  | EmptyString => (acc, count, s)
  | String c s' =>
      match digitValue base c with
      | Some d => readDigits base s' (base * acc + d) (count + 1)
      | None => (acc, count, s)
      end
  end.

Definition readSign (s : string) : bool * string :=
  match s with
  | String "-" s' => (true, s')
  | String "+" s' => (false, s')
  | _ => (false, s)
  end.

(** ExponentPart, when one is there: its value and the rest; [None] when
    an exponent marker is followed by no digit. *)
Definition readExponent (s : string) : option (Z * string) :=
  match s with
  | String c s' =>
      if Ascii.eqb c "e" || Ascii.eqb c "E" then
        let '(neg, s1) := readSign s' in
        let '(v, count, rest) := readDigits 10 s1 0 0 in
        if count =? 0 then None else Some (if neg then - v else v, rest)
      else Some (0, s)
  | EmptyString => Some (0, s)
  end.

Definition isBlank (s : string) : bool :=
  negb (truthy (skipWhite (String.length s) s)).

(** StrDecimalLiteral followed by white space only. *)
Definition readDecimal (s : string) : number :=
  let '(neg, s1) := readSign s in
  if String.prefix "Infinity" s1 then
    if isBlank (drop 8 s1) then (if neg then neg_infinity else infinity) else nan
  else
    let '(ip, icount, s2) := readDigits 10 s1 0 0 in
    let '(fp, fcount, s3) :=
      match s2 with
      | String "." s' => readDigits 10 s' ip 0
      | _ => (ip, 0, s2)
      end in
    if icount + fcount =? 0 then nan
    else match readExponent s3 with
         | Some (e, rest) => if isBlank rest then ofDecimal neg fp (e - fcount) else nan
         | None => nan
         end.

(** NonDecimalIntegerLiteral followed by white space only. *)
Definition readRadix (base : Z) (s : string) : number :=
  let '(v, count, rest) := readDigits base s 0 0 in
  if (0 <? count) && isBlank rest then ofZ v else nan.

Definition StringToNumber (str : string) : number :=
  let s := skipWhite (String.length str) str in
  match s with
  | EmptyString => 0%float
  | String "0" (String c s') =>
      if Ascii.eqb c "x" || Ascii.eqb c "X" then readRadix 16 s'
      else if Ascii.eqb c "o" || Ascii.eqb c "O" then readRadix 8 s'
      else if Ascii.eqb c "b" || Ascii.eqb c "B" then readRadix 2 s'
      else readDecimal s
  | _ => readDecimal s
  end.

Definition isNaN (x : number) : bool := negb (PrimFloat.eqb x x).

(** [Number.isFinite]. *)
Definition isFinite (x : number) : bool :=
  match Prim2SF x with
  | S754_zero _ | S754_finite _ _ _ => true
  | _ => false
  end.

(** Whether a decimal string has an exponent marker, a fraction point. *)
Definition hasExponent (s : string) : bool := existsb (Ascii.eqb "e") (chars s).
Definition hasPoint (s : string) : bool := existsb (Ascii.eqb ".") (chars s).

(** [===], [<] and [>] on numbers. *)
Definition strictEq (x y : number) : bool := PrimFloat.eqb x y.
Definition lt (x y : number) : bool := PrimFloat.ltb x y.
Definition gt (x y : number) : bool := PrimFloat.ltb y x.

(** ** Vocabulary for the shape of decimal strings *)

Definition isDigit (d : Z) : Prop := 0 <= d <= 9.

(** What [toString] yields in fixed notation: an integer part and, after a
    point, a fraction part, both runs of digits. *)
Inductive fixedShape (s : string) : Prop :=
| shapeInteger (a : list Z) :
    Forall isDigit a -> s = digitString a -> fixedShape s
| shapeFraction (a b : list Z) :
    Forall isDigit a -> Forall isDigit b ->
    s = digitString a ++ "." ++ digitString b -> fixedShape s.

Definition noExponent (s : string) : Prop := ~ In "e"%char (chars s).

End JS.

(* ================================================================== *)
(** * amount.ts *)
(* ================================================================== *)

Module Amount.
Import JS.

Definition upperCaseNums : list string :=
  ["零"; "壹"; "贰"; "叁"; "肆"; "伍"; "陆"; "柒"; "捌"; "玖"].
Definition units : list string := [""; "拾"; "佰"; "仟"].
Definition bigUnits : list string := [""; "万"; "亿"].
Definition decimalUnits : list string := ["角"; "分"; "厘"; "毫"].

(** A digit read by [parseInt(d, 10)]: [None] is [NaN]. *)
Definition digit := option nat.

(** [digit !== 0] and [digit === 1]. *)
Definition nonZero (d : digit) : bool :=
  match d with Some O => false | _ => true end.

Definition isOne (d : digit) : bool :=
  match d with Some 1%nat => true | _ => false end.

(** [upperCaseNums[digit]]; indexing by [NaN] reads [undefined]. *)
Definition numeral (d : digit) : string :=
  match d with
  | Some n => at_ upperCaseNums n
  | None => undefinedText
  end.

(** The variables of the inner loop of [convertInteger]. *)
Record groupState := {
  groupResult : string;
  hasValue : bool;
  needZero : bool }.

Definition groupInit : groupState :=
  {| groupResult := ""; hasValue := false; needZero := false |}.

(** One turn of [for (let i = start; i < end; i++)]. *)
Definition groupStep (digits : list digit) (start : nat)
    (st : groupState) (i : nat) : groupState :=
  let d := nth i digits None in
  let posInGroup := (i - start)%nat in
  if nonZero d then
    let r := if needZero st && hasValue st
             then "零" ++ groupResult st else groupResult st in
    let r := if isOne d && (posInGroup =? 1)%nat
             then "拾" ++ r
             else numeral d ++ at_ units posInGroup ++ r in
    {| groupResult := r; hasValue := true; needZero := false |}
  else if hasValue st then
    {| groupResult := groupResult st; hasValue := true; needZero := true |}
  else st.

Definition groupLoop (digits : list digit) (start end_ : nat) : groupState :=
  fold_left (groupStep digits start) (seq start (end_ - start)) groupInit.

(** One turn of [for (let groupIdx = 0; groupIdx < groupCount; groupIdx++)]. *)
Definition convertGroup (digits : list digit) (len : nat)
    (result : string) (groupIdx : nat) : string :=
  let start := (groupIdx * 4)%nat in
  let end_ := Nat.min (start + 4) len in
  let st := groupLoop digits start end_ in
  let g := if hasValue st && (0 <? groupIdx)%nat
           then groupResult st ++ atOrEmpty bigUnits groupIdx
           else groupResult st in
  if hasValue st then
    let result := if truthy result && needZero st && negb (indexOf "零" g =? 0)
                  then "零" ++ result else result in
    g ++ result
  else result.

Definition convertInteger (n : string) : string :=
  if (n =? "0")%string || negb (truthy n) then ""
  else
    let digits := rev (map parseDigit (chars n)) in
    let len := List.length digits in
    let groupCount := ((len + 3) / 4)%nat in
    fold_left (convertGroup digits len) (seq 0 groupCount) "".

Definition decimalStep (n : string) (result : string) (i : nat) : string :=
  let d := match String.get i n with Some c => parseDigit c | None => None end in
  if nonZero d then result ++ numeral d ++ at_ decimalUnits i else result.

Definition convertDecimal (n : string) : string :=
  if negb (truthy n) then ""
  else
    let maxDecimals := Nat.min (String.length n) 4 in
    fold_left (decimalStep n) (seq 0 maxDecimals) "".

(** The body of [priceUppercase] after the early return for zero;
    [suffix] is what is appended to an exact amount. *)
Definition compose (num : number) (suffix : string) : string :=
  let isNegative := lt num 0%float in
  let num := PrimFloat.abs num in
  let numStr := toString num in
  let parts := split "." numStr in
  let integerPart := nth 0 parts "" in
  let decimalPart := nth 1 parts "" in
  let integerStr := convertInteger integerPart in
  let decimalStr := convertDecimal decimalPart in
  let result := if isNegative then "负" else "" in
  if truthy integerStr then
    let result := result ++ integerStr ++ "元" in
    if negb (truthy decimalStr) then result ++ suffix
    else result ++ decimalStr
  else result ++ decimalStr.

(** [priceUppercase(num)], src/amount.ts. *)
Definition priceUppercase (num : number) : string :=
  if strictEq num 0%float then "零元整" else compose num "整".

(** What a call of the later revision ends in: the string it returns, or
    the [TypeError] of an assignment to a constant. *)
Inductive completion :=
| Returned (text : string)
| TypeError.

(** [priceUppercase(val, format = '整')], the later revision of amount.ts
    with the suffix parameter; [None] is an omitted argument.  It declares
    [const num = val] and, past the early return for zero, assigns
    [num = Math.abs(num)]: the assignment to the constant throws, and the
    rest of the body, which would append [format] to an exact amount, is
    never reached. *)
Definition priceUppercaseFormat (val : number) (format : option string) : completion :=
  let format := match format with Some f => f | None => "整" end in
  let num := val in
  if strictEq num 0%float then Returned "零元整"
  else TypeError.

(** ** Vocabulary for the properties *)

(** The characters of the numerals. *)
Definition alphabet : list string :=
  ["负"; "零"; "壹"; "贰"; "叁"; "肆"; "伍"; "陆"; "柒"; "捌"; "玖";
   "拾"; "佰"; "仟"; "万"; "亿"; "元"; "角"; "分"; "厘"; "毫"; "整"].

(** A string that consists only of characters of the alphabet. *)
Inductive OverAlphabet : string -> Prop :=
| over_nil : OverAlphabet ""
| over_cons (c s : string) :
    In c alphabet -> OverAlphabet s -> OverAlphabet (c ++ s).

(** Digits as [parseInt] reads them from a run of decimal digits. *)
Definition isDecimal (d : digit) : Prop := exists n, d = Some n /\ (n < 10)%nat.

Definition decimalDigits (digits : list digit) : Prop :=
  forall i, (i < List.length digits)%nat -> isDecimal (nth i digits None).

(** The digit at place [i] of the group from [start] to [end_]; a place the
    number does not have counts as zero. *)
Definition digitAt (digits : list digit) (start end_ i : nat) : digit :=
  if (start + i <? end_)%nat then nth (start + i) digits None else Some O.

(** The text of a group whose tens digit is 1, from its other digits. *)
Definition tensOneText (d0 d2 d3 : digit) : string :=
  (if nonZero d3
   then numeral d3 ++ "仟" ++ (if nonZero d2 then "" else "零") else "")
  ++ (if nonZero d2 then numeral d2 ++ "佰" else "")
  ++ "拾"
  ++ (if nonZero d0 then numeral d0 else "").

End Amount.

(** [getDecimalPlaces(num)] of src/amount.ts, which decodes an exponent;
    [None] is [NaN]. *)
Module AmountPlaces.
Import JS.

Definition getDecimalPlaces (num : number) : option nat :=
  if strictEq (Math_floor num) num then Some O
  else
    let str := toString num in
    if negb (indexOf "." str =? -1) && (indexOf "e-" str =? -1) then
      Some (String.length (nth 1 (split "." str) ""))
    else if negb (indexOf "e-" str =? -1) then
      let parts := split "e-" str in
      let fraction := String.length (nth 1 (split "." (nth 0 parts "")) "") in
      match parseInt (nth 1 parts "") with
      | Some e => Some (e + fraction)%nat
      | None => None
      end
    else Some O.

End AmountPlaces.

(* ================================================================== *)
(** * math.ts *)
(* ================================================================== *)

Module MathUtil.
Import JS.
#[local] Open Scope float_scope.

(** The file's own [getDecimalPlaces]: the characters after the point. *)
Definition placesOf (str : string) : nat :=
  if (indexOf "." str =? -1)%Z then O
  else String.length (nth 1 (split "." str) "").

Definition getDecimalPlaces (num : number) : nat :=
  let str := toString num in placesOf str.

(** The closing step of the four operations:
    [if (decimal !== undefined && decimal > 0)
       return Math.round(result * Math.pow(10, decimal)) / Math.pow(10, decimal)].
    [decimal] is the documented non-negative integer, [None] when omitted. *)
Definition roundDecimal (decimal : option nat) (result : number) : number :=
  match decimal with
  | Some d => if (0 <? d)%nat
              then Math_round (result * pow10 d) / pow10 d
              else result
  | None => result
  end.

Definition addition (num1 num2 : number) (decimal : option nat) : number :=
  let places1 := getDecimalPlaces num1 in
  let places2 := getDecimalPlaces num2 in
  let maxPlaces := Nat.max places1 places2 in
  let multiplier := pow10 maxPlaces in
  let result :=
    (Math_round (num1 * multiplier) + Math_round (num2 * multiplier)) / multiplier in
  roundDecimal decimal result.

Definition subtraction (num1 num2 : number) (decimal : option nat) : number :=
  let places1 := getDecimalPlaces num1 in
  let places2 := getDecimalPlaces num2 in
  let maxPlaces := Nat.max places1 places2 in
  let multiplier := pow10 maxPlaces in
  let result :=
    (Math_round (num1 * multiplier) - Math_round (num2 * multiplier)) / multiplier in
  roundDecimal decimal result.

Definition multiplication (num1 num2 : number) (decimal : option nat) : number :=
  let places1 := getDecimalPlaces num1 in
  let places2 := getDecimalPlaces num2 in
  let totalPlaces := (places1 + places2)%nat in
  let multiplier1 := pow10 places1 in
  let multiplier2 := pow10 places2 in
  let result :=
    (Math_round (num1 * multiplier1) * Math_round (num2 * multiplier2))
    / pow10 totalPlaces in
  roundDecimal decimal result.

(** A call either returns a value or throws an [Error] with a message. *)
Inductive outcome :=
| Returns (v : number)
| Throws (message : string).

Definition divisionOperation (num1 num2 : number) (decimal : option nat) : outcome :=
  if strictEq num2 0 then Throws "Division by zero is not allowed"
  else
    let places1 := getDecimalPlaces num1 in
    let places2 := getDecimalPlaces num2 in
    let maxPlaces := Nat.max places1 places2 in
    let multiplier1 := pow10 maxPlaces in
    let multiplier2 := pow10 maxPlaces in
    let result := Math_round (num1 * multiplier1) / Math_round (num2 * multiplier2) in
    Returns (roundDecimal decimal result).

(** ** numberToChinese *)

(** The argument, [number | string]. *)
Inductive numOrString :=
| OfNumber (x : number)
| OfString (s : string).

(** [String(num)]. *)
Definition String_ (num : numOrString) : string :=
  match num with
  | OfNumber x => toString x
  | OfString s => s
  end.

Definition digits : list string :=
  ["零"; "一"; "二"; "三"; "四"; "五"; "六"; "七"; "八"; "九"].
Definition units : list string := [""; "十"; "百"; "千"].

(** [arr[x]] for a number [x]: the property key is [x] as a string, so only
    an integer index in range reads an element. *)
Definition atNumber (arr : list string) (x : number) : string :=
  match find (fun i => (toString (ofNat i) =? toString x)%string)
             (seq 0 (List.length arr)) with
  | Some i => at_ arr i
  | None => undefinedText
  end.

(** [while (value > 0) { ... }]; [None] when the fuel runs out, which is a
    loop that does not end. *)
Fixpoint segmentsLoop (fuel : nat) (value : number) (segments : list string)
    : option (list string) :=
  if gt value 0 then
    match fuel with
    | O => None
    | S f =>
        let segment := remainder value 10000 in
        segmentsLoop f (Math_floor (value / 10000)) (segments ++ [toString segment])
    end
  else Some segments.

(** The callback of [segments.map]; [total] is [segments.length]. *)
Definition segmentText (total : nat) (index : nat) (segmentStr : string) : string :=
  let segmentNum := StringToNumber segmentStr in
  if strictEq segmentNum 0 then ""
  else
    let text := "" in
    let needZero := false in
    let segmentValue := segmentNum in
    (* thousands *)
    let qian := Math_floor (segmentValue / 1000) in
    let '(text, needZero) :=
      if gt qian 0 then (text ++ atNumber digits qian ++ at_ units 3, false)
      else if (index <? total - 1)%nat && gt segmentValue 0 then (text, true)
      else (text, needZero) in
    (* hundreds *)
    let bai := Math_floor (remainder segmentValue 1000 / 100) in
    let '(text, needZero) :=
      if gt bai 0 then
        ((if needZero then text ++ at_ digits 0 else text)
           ++ atNumber digits bai ++ at_ units 2, false)
      else if truthy text && gt (remainder segmentValue 1000) 0 then (text, true)
      else (text, needZero) in
    (* tens *)
    let shi := Math_floor (remainder segmentValue 100 / 10) in
    let '(text, needZero) :=
      if gt shi 0 then
        let text := if needZero then text ++ at_ digits 0 else text in
        (if strictEq shi 1 && (index =? 0)%nat && (total =? 1)%nat
         then text ++ at_ units 1
         else text ++ atNumber digits shi ++ at_ units 1, false)
      else if truthy text && gt (remainder segmentValue 100) 0 then (text, true)
      else (text, needZero) in
    (* ones *)
    let ge := remainder segmentValue 10 in
    let text :=
      if gt ge 0 then
        (if needZero then text ++ at_ digits 0 else text) ++ atNumber digits ge
      else text in
    if (index =? 1)%nat then text ++ "万"
    else if (index =? 2)%nat then text ++ "亿"
    else text.

Fixpoint mapIndexed {A B} (f : nat -> A -> B) (i : nat) (l : list A) : list B :=
  match l with
  | [] => []
  | x :: r => f i x :: mapIndexed f (S i) r
  end.

(** [None]: the call does not return. *)
Definition numberToChinese (num : numOrString) : option string :=
  let numStr := String_ num in
  if negb (truthy numStr) || isNaN (StringToNumber numStr) then Some ""
  else
    let numValue := StringToNumber numStr in
    if strictEq numValue 0 then Some "零"
    else
      let isNegative := lt numValue 0 in
      let value := PrimFloat.abs numValue in
      match segmentsLoop 100 value [] with
      | None => None
      | Some segments =>
          let segmentTexts := mapIndexed (segmentText (List.length segments)) O segments in
          let result := String.concat "" (rev segmentTexts) in
          Some (if isNegative then "负" ++ result else result)
      end.

End MathUtil.

(* ================================================================== *)
(** * coordtransform.ts *)
(* ================================================================== *)

Module Coord.

(** The arithmetic the formulas are written in.  The file is stated once
    for any reading of the operators: binary64 with the host's [Math]
    functions, or the real numbers, where the formulas are exact. *)
Class Arith (num : Type) := {
  lit : Z -> nat -> num;          (* the decimal literal  m / 10^k *)
  add : num -> num -> num;
  sub : num -> num -> num;
  mul : num -> num -> num;
  div : num -> num -> num;
  gtb : num -> num -> bool;
  ltb : num -> num -> bool;
  sqrt : num -> num;
  abs : num -> num;
  sin : num -> num;
  cos : num -> num;
  atan2 : num -> num -> num }.

Declare Scope num_scope.
Delimit Scope num_scope with num.
Infix "+" := add : num_scope.
Infix "-" := sub : num_scope.
Infix "*" := mul : num_scope.
Infix "/" := div : num_scope.
Infix ">?" := gtb (at level 70) : num_scope.
Infix "<?" := ltb : num_scope.

Section Transforms.
Context {num : Type} `{Arith num}.
#[local] Open Scope num_scope.

Definition X_PI : num := (lit 314159265358979324 17 * lit 30000 1) / lit 1800 1.
Definition PI : num := lit 31415926535897932384626 22.
Definition A : num := lit 63782450 1.
Definition EE : num := lit 669342162296594323 20.

Definition out_of_china (lng lat : num) : bool :=
  negb ((lng >? lit 7366 2) && (lng <? lit 13505 2)
        && (lat >? lit 386 2) && (lat <? lit 5355 2)).

Definition transformLng (lng lat : num) : num :=
  let ret :=
    lit 3000 1 + lng + lit 20 1 * lat + lit 1 1 * lng * lng
    + lit 1 1 * lng * lat + lit 1 1 * sqrt (abs lng) in
  let ret := ret +
    ((lit 200 1 * sin (lit 60 1 * lng * PI)
      + lit 200 1 * sin (lit 20 1 * lng * PI)) * lit 20 1) / lit 30 1 in
  let ret := ret +
    ((lit 200 1 * sin (lng * PI)
      + lit 400 1 * sin ((lng / lit 30 1) * PI)) * lit 20 1) / lit 30 1 in
  let ret := ret +
    ((lit 1500 1 * sin ((lng / lit 120 1) * PI)
      + lit 3000 1 * sin ((lng / lit 300 1) * PI)) * lit 20 1) / lit 30 1 in
  ret.

Definition transformLat (lng lat : num) : num :=
  let ret :=
    lit (-1000) 1 + lit 20 1 * lng + lit 30 1 * lat + lit 2 1 * lat * lat
    + lit 1 1 * lng * lat + lit 2 1 * sqrt (abs lng) in
  let ret := ret +
    ((lit 200 1 * sin (lit 60 1 * lng * PI)
      + lit 200 1 * sin (lit 20 1 * lng * PI)) * lit 20 1) / lit 30 1 in
  let ret := ret +
    ((lit 200 1 * sin (lat * PI)
      + lit 400 1 * sin ((lat / lit 30 1) * PI)) * lit 20 1) / lit 30 1 in
  let ret := ret +
    ((lit 1600 1 * sin ((lat / lit 120 1) * PI)
      + lit 320 0 * sin ((lat * PI) / lit 300 1)) * lit 20 1) / lit 30 1 in
  ret.

Definition wgs84togcj02 (lng lat : num) : num * num :=
  if out_of_china lng lat then (lng, lat)
  else
    let dlat := transformLat (lng - lit 1050 1) (lat - lit 350 1) in
    let dlng := transformLng (lng - lit 1050 1) (lat - lit 350 1) in
    let radlat := (lat / lit 1800 1) * PI in
    let magic := sin radlat in
    let magic := lit 1 0 - EE * magic * magic in
    let sqrtmagic := sqrt magic in
    let dlat := (dlat * lit 1800 1)
                / (((A * (lit 1 0 - EE)) / (magic * sqrtmagic)) * PI) in
    let dlng := (dlng * lit 1800 1) / ((A / sqrtmagic) * cos radlat * PI) in
    let mglat := lat + dlat in
    let mglng := lng + dlng in
    (mglng, mglat).

Definition gcj02towgs84 (lng lat : num) : num * num :=
  if out_of_china lng lat then (lng, lat)
  else
    let dlat := transformLat (lng - lit 1050 1) (lat - lit 350 1) in
    let dlng := transformLng (lng - lit 1050 1) (lat - lit 350 1) in
    let radlat := (lat / lit 1800 1) * PI in
    let magic := sin radlat in
    let magic := lit 1 0 - EE * magic * magic in
    let sqrtmagic := sqrt magic in
    let dlat := (dlat * lit 1800 1)
                / (((A * (lit 1 0 - EE)) / (magic * sqrtmagic)) * PI) in
    let dlng := (dlng * lit 1800 1) / ((A / sqrtmagic) * cos radlat * PI) in
    let mglat := lat + dlat in
    let mglng := lng + dlng in
    (lng * lit 2 0 - mglng, lat * lit 2 0 - mglat).

Definition bd09togcj02 (lng lat : num) : num * num :=
  let x := lng - lit 65 4 in
  let y := lat - lit 6 3 in
  let z := sqrt (x * x + y * y) - lit 2 5 * sin (y * X_PI) in
  let theta := atan2 y x - lit 3 6 * cos (x * X_PI) in
  let gglng := z * cos theta in
  let gglat := z * sin theta in
  (gglng, gglat).

Definition gcj02tobd09 (lng lat : num) : num * num :=
  let z := sqrt (lng * lng + lat * lat) + lit 2 5 * sin (lat * X_PI) in
  let theta := atan2 lat lng + lit 3 6 * cos (lng * X_PI) in
  let bdlng := z * cos theta + lit 65 4 in
  let bdlat := z * sin theta + lit 6 3 in
  (bdlng, bdlat).

(** [gcj02tobd09(...bd09togcj02(lng, lat))]. *)
Definition roundTrip (lng lat : num) : num * num :=
  let '(gglng, gglat) := bd09togcj02 lng lat in gcj02tobd09 gglng gglat.

End Transforms.

(** ** The two readings *)

(** binary64, over the host's [Math.sin], [Math.cos] and [Math.atan2],
    which ECMA-262 leaves to the implementation. *)
Definition binary64 (hostSin hostCos : float -> float)
    (hostAtan2 : float -> float -> float) : Arith float :=
  {| lit := fun m k => JS.ofDecimal (m <? 0)%Z (Z.abs m) (- Z.of_nat k);
     add := PrimFloat.add; sub := PrimFloat.sub;
     mul := PrimFloat.mul; div := PrimFloat.div;
     gtb := fun x y => PrimFloat.ltb y x; ltb := PrimFloat.ltb;
     sqrt := PrimFloat.sqrt; abs := PrimFloat.abs;
     sin := hostSin; cos := hostCos; atan2 := hostAtan2 |}.

(** [Math.atan2(y, x)] on the reals: the angle of the point [(x, y)]. *)
Definition Ratan2 (y x : R) : R :=
  if Rlt_dec 0 x then atan (y / x)
  else if Rlt_dec x 0 then
    (if Rle_dec 0 y then atan (y / x) + Rtrigo1.PI else atan (y / x) - Rtrigo1.PI)%R
  else if Rlt_dec 0 y then (Rtrigo1.PI / 2)%R
  else if Rlt_dec y 0 then (- Rtrigo1.PI / 2)%R
  else 0%R.

#[export] Instance exact : Arith R :=
  {| lit := fun m k => (IZR m / IZR (10 ^ Z.of_nat k))%R;
     add := Rplus; sub := Rminus; mul := Rmult; div := Rdiv;
     gtb := fun x y => if Rlt_dec y x then true else false;
     ltb := fun x y => if Rlt_dec x y then true else false;
     sqrt := R_sqrt.sqrt; abs := Rabs;
     sin := Rtrigo_def.sin; cos := Rtrigo_def.cos; atan2 := Ratan2 |}.

(** ** The round trip in polar form (exact reading)

    [x] and [y] are the BD-09 coordinates less the offsets.  [zOut] and
    [thetaOut] are the radius and the angle [bd09togcj02] computes,
    [zBack] and [thetaBack] those [gcj02tobd09] computes from its result. *)
Definition offsetLng : R := lit 65 4.
Definition offsetLat : R := lit 6 3.
Definition radiusTerm : R := lit 2 5.
Definition angleTerm : R := lit 3 6.

Definition zOut (x y : R) : R :=
  (R_sqrt.sqrt (x * x + y * y) - radiusTerm * Rtrigo_def.sin (y * X_PI))%R.
Definition thetaOut (x y : R) : R :=
  (atan (y / x) - angleTerm * Rtrigo_def.cos (x * X_PI))%R.
Definition zBack (x y : R) : R :=
  (zOut x y
   + radiusTerm * Rtrigo_def.sin (zOut x y * Rtrigo_def.sin (thetaOut x y) * X_PI))%R.
(** A point of the box, less the offsets. *)
Definition probeX : R := (1500 * Rtrigo1.PI / X_PI)%R.
Definition probeY : R := (300 * Rtrigo1.PI / X_PI)%R.

(** The round trip gives back both coordinates up to [tol]. *)
Definition recoversWithin (tol lng lat : R) : Prop :=
  (Rabs (fst (roundTrip lng lat) - lng) <= tol
   /\ Rabs (snd (roundTrip lng lat) - lat) <= tol)%R.

Definition thetaBack (x y : R) : R :=
  (thetaOut x y
   + angleTerm * Rtrigo_def.cos (zOut x y * Rtrigo_def.cos (thetaOut x y) * X_PI))%R.

End Coord.

(* ================================================================== *)
(** * amount.ts: formatting *)
(* ================================================================== *)

Module AmountFormat.
Import JS.

(** A call that may throw a [RangeError]. *)
Inductive ranged (A : Type) :=
| Value (v : A)
| RangeError.
Arguments Value {A} v.
Arguments RangeError {A}.

(** [Number.prototype.toFixed(f)] for an integer [f], ECMA-262 21.1.3.3:
    the integer [n] nearest to [x * 10^f], the larger one on a tie, written
    with [f] digits after the point. *)
Definition nearestScaled (m e f : Z) : Z :=
  if 0 <=? e then m * 2 ^ e * 10 ^ f
  else (2 * m * 10 ^ f + 2 ^ (- e)) / 2 ^ (1 - e).

(** The integer part of [m * 2^e]. *)
Definition integerPart (m e : Z) : Z := if 0 <=? e then m * 2 ^ e else m / 2 ^ (- e).

Definition fixedDigits (n f : Z) : string :=
  let m := if n =? 0 then [0] else digitsOf n in
  if f =? 0 then digitString m
  else
    let k := Z.of_nat (List.length m) in
    let m := if k <=? f then (zeros (f + 1 - k) ++ m)%list else m in
    let k := Z.of_nat (List.length m) in
    digitString (firstn (Z.to_nat (k - f)) m) ++ "." ++ digitString (skipn (Z.to_nat (k - f)) m).

Definition toFixed (x : number) (f : Z) : ranged string :=
  if (f <? 0) || (100 <? f) then RangeError
  else
    match Prim2SF x with
    | S754_finite s m e =>
        if 10 ^ 21 <=? integerPart (Z.pos m) e
        then Value (toString x)
        else Value ((if s then "-" else "") ++ fixedDigits (nearestScaled (Z.pos m) e f) f)
    | S754_zero _ => Value (fixedDigits 0 f)
    | _ => Value (toString x)
    end.

(** [\d] and [\w]. *)
Definition isDigitChar (c : ascii) : bool :=
  let n := nat_of_ascii c in (48 <=? n)%nat && (n <=? 57)%nat.

Definition isWordChar (c : ascii) : bool :=
  let n := nat_of_ascii c in
  isDigitChar c || ((65 <=? n)%nat && (n <=? 90)%nat)
  || ((97 <=? n)%nat && (n <=? 122)%nat) || (n =? 95)%nat.

Definition startsWithDigit (s : string) : bool :=
  match s with String c _ => isDigitChar c | EmptyString => false end.

(** [(?=(\d{3})+(?!\d))] at the head of [s]. *)
Fixpoint threeDigitGroups (s : string) : bool :=
  match s with
  | String a (String b (String c rest)) =>
      isDigitChar a && isDigitChar b && isDigitChar c
      && (negb (startsWithDigit rest) || threeDigitGroups rest)
  | _ => false
  end.

(** [\B] between the character [prev] and the head of [s]. *)
Definition notWordBoundary (prev : option ascii) (s : string) : bool :=
  Bool.eqb (match prev with Some c => isWordChar c | None => false end)
           (match s with String c _ => isWordChar c | EmptyString => false end).

(** [s.replace(/\B(?=(\d{3})+(?!\d))/g, ',')]: a comma at every position
    where the pattern, which matches no character, holds. *)
Fixpoint replaceFrom (prev : option ascii) (s : string) : string :=
  let here := if notWordBoundary prev s && threeDigitGroups s then "," else "" in
  match s with
  | EmptyString => here
  | String c s' => here ++ String c (replaceFrom (Some c) s')
  end.

Definition addThousands (s : string) : string := replaceFrom None s.

(** [parts.join('.')]. *)
Definition join (sep : string) (parts : list string) : string := String.concat sep parts.

(** [priceToThousands(num, decimals = 2)], [decimals] an integer. *)
Definition priceToThousands (num : number) (decimals : option Z) : ranged string :=
  let decimals := match decimals with Some d => d | None => 2 end in
  let fixed := if 0 <=? decimals then toFixed num decimals else Value (toString num) in
  match fixed with
  | RangeError => RangeError
  | Value fixed =>
      let parts := split "." fixed in
      let parts := match parts with
                   | p :: rest => addThousands p :: rest
                   | [] => [addThousands undefinedText]
                   end in
      Value (join "." parts)
  end.

(** [parseFloat(string)], ECMA-262 19.2.4: white space in front is
    dropped, and the longest prefix that is a decimal literal is read;
    [NaN] when there is none. *)
Definition parseFloat (inputString : string) : number :=
  let trimmed := skipWhite (String.length inputString) inputString in
  let '(neg, s1) := readSign trimmed in
  if String.prefix "Infinity" s1 then (if neg then neg_infinity else infinity)
  else
    let '(ip, icount, s2) := readDigits 10 s1 0 0 in
    let '(fp, fcount, s3) :=
      match s2 with
      | String "." s' => readDigits 10 s' ip 0
      | _ => (ip, 0, s2)
      end in
    if icount + fcount =? 0 then nan
    else
      let e := match readExponent s3 with Some (e, _) => e | None => 0 end in
      ofDecimal neg fp (e - fcount).

(** [centsToDollars(cents, decimals = 2)], [decimals] an integer. *)
Definition centsToDollars (cents : number) (decimals : option Z) : ranged number :=
  let decimals := match decimals with Some d => d | None => 2 end in
  let dollars := (cents / 100)%float in
  if 0 <? decimals then
    match toFixed dollars decimals with
    | Value s => Value (parseFloat s)
    | RangeError => RangeError
    end
  else Value (Math_round dollars).

(** [dollarsToCents(dollars)]. *)
Definition dollarsToCents (dollars : number) : number :=
  Math_round (dollars * 100)%float.

(** [addZero(num)]. *)
Definition addZero (num : number) : ranged string :=
  let decimalPlaces := AmountPlaces.getDecimalPlaces num in
  match decimalPlaces with
  | Some 0%nat => toFixed num 2
  | Some 1%nat => toFixed num 2
  | _ => Value (toString num)
  end.

(** ** Vocabulary for the properties *)

(** Digits in groups of three counted from the right, with a comma between
    two groups. *)
Fixpoint grouped (ds : list Z) : string :=
  match ds with
  | [] => ""
  | d :: r =>
      String (digitChar d)
        ((if (0 <? List.length r)%nat && (List.length r mod 3 =? 0)%nat then "," else "")
         ++ grouped r)
  end.

End AmountFormat.

(* ================================================================== *)
(** * math.ts: lists of numbers *)
(* ================================================================== *)

Module MathList.
Import JS AmountFormat.
#[local] Open Scope float_scope.

Definition isPositiveZero (x : number) : bool :=
  match Prim2SF x with S754_zero false => true | _ => false end.

Definition isNegativeZero (x : number) : bool :=
  match Prim2SF x with S754_zero true => true | _ => false end.

(** [Math.max(...coerced)], ECMA-262 21.3.2.24: [highest] starts at
    [-Infinity]; a [NaN] argument ends the call. *)
Fixpoint maxLoop (coerced : list number) (highest : number) : number :=
  match coerced with
  | [] => highest
  | number :: rest =>
      if isNaN number then nan
      else
        let highest :=
          if isPositiveZero number && isNegativeZero highest then 0 else highest in
        let highest := if gt number highest then number else highest in
        maxLoop rest highest
  end.

Definition Math_max (args : list number) : number := maxLoop args neg_infinity.

(** [Math.min(...coerced)], ECMA-262 21.3.2.25. *)
Fixpoint minLoop (coerced : list number) (lowest : number) : number :=
  match coerced with
  | [] => lowest
  | number :: rest =>
      if isNaN number then nan
      else
        let lowest :=
          if isNegativeZero number && isPositiveZero lowest then (-0) else lowest in
        let lowest := if lt number lowest then number else lowest in
        minLoop rest lowest
  end.

Definition Math_min (args : list number) : number := minLoop args infinity.

(** [list.length === 0]. *)
Definition isEmpty (list : list number) : bool := (List.length list =? 0)%nat.

(** [f(...list)]: every element of the array is passed as an argument.
    ECMA-262 sets no bound on the number of arguments of a call; an engine
    has one, which depends on the stack that is left, and throws a
    [RangeError] beyond it.  [argumentLimit] is the bound of the host for
    the call at hand. *)
Section Host.
Variable argumentLimit : nat.

Definition spread (f : list number -> number) (list : list number) : ranged number :=
  if (argumentLimit <? List.length list)%nat then RangeError
  else Value (f list).

Definition max (list : list number) : ranged number :=
  if isEmpty list then Value 0 else spread Math_max list.

Definition min (list : list number) : ranged number :=
  if isEmpty list then Value 0 else spread Math_min list.

End Host.

Definition sum (list : list number) : number :=
  if isEmpty list then 0 else fold_left (fun acc num => acc + num) list 0.

Definition average (list : list number) : number :=
  if isEmpty list then 0
  else
    let total := sum list in
    total / ofNat (List.length list).

End MathList.

(* ================================================================== *)
(** * math.ts: amounts in hundredths *)
(* ================================================================== *)

Module Exact.
Import JS MathUtil.
#[local] Open Scope float_scope.

(** The number that the decimal literal of [k] hundredths denotes, and its
    opposite. *)
Definition cents (k : nat) : number := ofDecimal false (Z.of_nat k) (-2).
Definition negCents (k : nat) : number := ofDecimal true (Z.of_nat k) (-2).

(** An amount with what the operations compute from it alone: its count
    of places and its multiples by 1, 10 and 100, rounded. *)
Record entry := {
  amount : number;
  places : nat;
  scaled0 : number;
  scaled1 : number;
  scaled2 : number }.

Definition entryOf (k : nat) : entry :=
  let a := cents k in
  {| amount := a;
     places := getDecimalPlaces a;
     scaled0 := Math_round (a * pow10 0);
     scaled1 := Math_round (a * pow10 1);
     scaled2 := Math_round (a * pow10 2) |}.

Definition scaledAt (e : entry) (m : nat) : number :=
  match m with
  | O => scaled0 e
  | S O => scaled1 e
  | S (S O) => scaled2 e
  | _ => Math_round (amount e * pow10 m)
  end.

Definition powAt (p0 p1 p2 : number) (m : nat) : number :=
  match m with
  | O => p0
  | S O => p1
  | S (S O) => p2
  | _ => pow10 m
  end.

Definition sumTest (p0 p1 p2 : number) (e1 : entry) (row : entry * number) : bool :=
  let '(e2, x) := row in
  let m := Nat.max (places e1) (places e2) in
  PrimFloat.Leibniz.eqb ((scaledAt e1 m + scaledAt e2 m) / powAt p0 p1 p2 m) x.

Definition differenceTest (p0 p1 p2 : number) (e2 : entry) (row : entry * (number * number))
    : bool :=
  let '(e1, (x, y)) := row in
  let m := Nat.max (places e1) (places e2) in
  PrimFloat.Leibniz.eqb ((scaledAt e1 m - scaledAt e2 m) / powAt p0 p1 p2 m) x
  && PrimFloat.Leibniz.eqb ((scaledAt e2 m - scaledAt e1 m) / powAt p0 p1 p2 m) y.

(** Every pair of amounts below [n] hundredths, each amount prepared once. *)
Definition checkSums (n : nat) : bool :=
  let p0 := pow10 0 in
  let p1 := pow10 1 in
  let p2 := pow10 2 in
  let entries := map entryOf (seq 0 n) in
  let sums := map cents (seq 0 (n + n)) in
  let differences := map (fun d => (cents d, if (d =? 0)%nat then cents 0 else negCents d))
                         (seq 0 n) in
  forallb (fun i =>
    forallb (sumTest p0 p1 p2 (entryOf i)) (combine entries (skipn i sums))
    && forallb (differenceTest p0 p1 p2 (entryOf i)) (combine (skipn i entries) differences))
    (seq 0 n).

Definition powAt4 (p0 p1 p2 p3 p4 : number) (m : nat) : number :=
  match m with
  | O => p0
  | S O => p1
  | S (S O) => p2
  | S (S (S O)) => p3
  | S (S (S (S O))) => p4
  | _ => pow10 m
  end.

Definition productTest (p0 p1 p2 p3 p4 : number) (i : nat) (e1 : entry)
    (row : nat * entry) : bool :=
  let '(j, e2) := row in
  let m := Nat.max (places e1) (places e2) in
  PrimFloat.Leibniz.eqb
    ((scaledAt e1 (places e1) * scaledAt e2 (places e2))
     / powAt4 p0 p1 p2 p3 p4 (places e1 + places e2))
    (ofDecimal false (Z.of_nat i * Z.of_nat j)%Z (-4))
  && ((j =? 0)%nat
      || (negb (strictEq (amount e2) 0)
          && PrimFloat.Leibniz.eqb (scaledAt e1 m / scaledAt e2 m)
               (ofFraction false (Z.of_nat i) (Z.of_nat j)))).

Definition checkProducts (n : nat) : bool :=
  let p0 := pow10 0 in
  let p1 := pow10 1 in
  let p2 := pow10 2 in
  let p3 := pow10 3 in
  let p4 := pow10 4 in
  let entries := combine (seq 0 n) (map entryOf (seq 0 n)) in
  forallb (fun i => forallb (productTest p0 p1 p2 p3 p4 i (entryOf i)) entries) (seq 0 n).

End Exact.

(* ================================================================== *)
(** * math.ts: formatBytes *)
(* ================================================================== *)

Module Bytes.
Import JS.
#[local] Open Scope float_scope.

Definition units : list string :=
  ["Bytes"; "KB"; "MB"; "GB"; "TB"; "PB"; "EB"; "ZB"; "YB"].

Section Host.

(** [Math.log] and [Math.pow] of the host, which ECMA-262 fixes only at
    special arguments. *)
Variable Math_log : number -> number.
Variable Math_pow : number -> number -> number.

(** [formatBytes(byte, digits = 2)]. *)
Definition formatBytes (byte : number) (digits : option number) : string :=
  let digits := match digits with Some d => d | None => 2 end in
  if lt byte 0 then "0 Bytes"
  else
    let unitIndex := Math_floor (Math_log byte / Math_log 1024) in
    if strictEq unitIndex 0 then toString byte ++ " " ++ at_ units 0
    else
      let value := byte / Math_pow 1024 unitIndex in
      let roundedValue :=
        Math_round (value * Math_pow 10 digits) / Math_pow 10 digits in
      toString roundedValue ++ " " ++ MathUtil.atNumber units unitIndex.

End Host.

End Bytes.

(* ================================================================== *)
(** * formData.ts *)
(* ================================================================== *)

Module FormDataUtil.
Import JS.
#[local] Set Warnings "-register-all".

(** The reference of an object: [===] on objects compares references. *)
Definition reference := nat.

(** A [File], or a [Blob] that is not a [File]. *)
Record file := { isFile : bool; fileReference : reference }.

Definition File (r : reference) : file := {| isFile := true; fileReference := r |}.
Definition Blob (r : reference) : file := {| isFile := false; fileReference := r |}.

(** The values an object handed to the two functions holds: primitives,
    files, arrays and plain objects.  An object is given by its own
    enumerable properties in the order of [for ... in]; a file has none. *)
Inductive any :=
| VUndefined
| VNull
| VBoolean (b : bool)
| VNumber (x : number)
| VString (s : string)
| VFile (f : file)
| VArray (r : reference) (items : list any)
| VObject (r : reference) (props : list (string * any)).

(** An entry of a [FormData]: a name with a string or a file. *)
Inductive entryValue :=
| EString (s : string)
| EFile (f : file).

Definition FormData := list (string * entryValue).

(** [String(value)]; an array prints its elements joined by commas, with
    nothing for [null] and [undefined]. *)
Fixpoint String_ (v : any) : string :=
  match v with
  | VUndefined => "undefined"
  | VNull => "null"
  | VBoolean b => if b then "true" else "false"
  | VNumber x => toString x
  | VString s => s
  | VFile f => if isFile f then "[object File]" else "[object Blob]"
  | VArray _ items =>
      String.concat ","
        ((fix elements (items : list any) : list string :=
            match items with
            | [] => []
            | item :: rest =>
                match item with
                | VUndefined | VNull => ""
                | _ => String_ item
                end :: elements rest
            end) items)
  | VObject _ _ => "[object Object]"
  end.

(** [formData.append(name, value)]: a file as it is, anything else as a
    string. *)
Definition append (name : string) (v : any) (fd : FormData) : FormData :=
  (fd ++ [(name, match v with VFile f => EFile f | _ => EString (String_ v) end)])%list.

(** [value === filterValue]. *)
Definition strictEquals (v w : any) : bool :=
  match v, w with
  | VUndefined, VUndefined => true
  | VNull, VNull => true
  | VBoolean a, VBoolean b => Bool.eqb a b
  | VNumber x, VNumber y => strictEq x y
  | VString s, VString t => String.eqb s t
  | VFile f, VFile g => Nat.eqb (fileReference f) (fileReference g)
  | VArray r _, VArray r' _ => Nat.eqb r r'
  | VObject r _, VObject r' _ => Nat.eqb r r'
  | _, _ => false
  end.

(** [formDataHander(obj)]. *)
Definition formDataHander (obj : list (string * any)) : FormData :=
  fold_left
    (fun formData '(key, value) =>
       match value with
       | VUndefined | VNull => formData
       | _ => append key value formData
       end)
    obj [].

(** [handleFile({ file, key, formData })], which may add to [formData]. *)
Definition handler := file -> string -> FormData -> FormData.

Record FormDataOptions := {
  fileKey : option string;
  handleFile : option handler;
  filter : option (list any) }.

(** ['raw' in item && (item.raw instanceof File || item.raw instanceof Blob)],
    with the file. *)
Fixpoint rawFile (props : list (string * any)) : option file :=
  match props with
  | [] => None
  | (name, v) :: rest =>
      if String.eqb name "raw"
      then match v with VFile f => Some f | _ => None end
      else rawFile rest
  end.

Section AppendNestedValue.
Variable fileKey : string.
Variable handleFile : option handler.

Definition putFile (key : string) (f : file) (formData : FormData) : FormData :=
  match handleFile with
  | Some handle => handle f key formData
  | None => append fileKey (VFile f) formData
  end.

(** [`${index}`]. *)
Definition indexText (index : nat) : string := toString (ofNat index).

Fixpoint appendNestedValue (key : string) (value : any) (formData : FormData)
    {struct value} : FormData :=
  match value with
  | VUndefined | VNull => formData
  | VFile _ => append key value formData
  | VArray _ items =>
      (fix forEach (items : list any) (index : nat) (formData : FormData)
         : FormData :=
         match items with
         | [] => formData
         | item :: rest =>
             let formData :=
               match item with
               | VObject _ props =>
                   match rawFile props with
                   | Some f => putFile key f formData
                   | None =>
                       (fix forIn (props : list (string * any))
                            (formData : FormData) : FormData :=
                          match props with
                          | [] => formData
                          | (nestedKey, v) :: more =>
                              forIn more
                                (appendNestedValue
                                   (key ++ "[" ++ indexText index ++ "][" ++ nestedKey ++ "]")
                                   v formData)
                          end) props formData
                   end
               | VFile _ => formData
               | _ => appendNestedValue (key ++ "[" ++ indexText index ++ "]") item formData
               end in
             forEach rest (S index) formData
         end) items O formData
  | VObject _ props =>
      match rawFile props with
      | Some f => putFile key f formData
      | None =>
          (fix forIn (props : list (string * any))
               (formData : FormData) : FormData :=
             match props with
             | [] => formData
             | (nestedKey, v) :: more =>
                 forIn more (appendNestedValue (key ++ "[" ++ nestedKey ++ "]") v formData)
             end) props formData
      end
  | _ => append key value formData
  end.

End AppendNestedValue.

(** [createFormData(obj, options)]. *)
Definition createFormData (obj : list (string * any)) (options : option FormDataOptions)
    : FormData :=
  let options :=
    match options with
    | Some o => o
    | None => {| fileKey := None; handleFile := None; filter := None |}
    end in
  let fileKey := match fileKey options with Some k => k | None => "file" end in
  let handleFile := handleFile options in
  let filter := match filter options with Some l => l | None => [] end in
  let shouldFilter value := existsb (fun filterValue => strictEquals value filterValue) filter in
  fold_left
    (fun formData '(key, value) =>
       if shouldFilter value then formData
       else appendNestedValue fileKey handleFile key value formData)
    obj [].

End FormDataUtil.

(* ================================================================== *)
(** * coordtransform.ts: round trips *)
(* ================================================================== *)

Module CoordTrips.
Import Coord.

Section Trips.
Context {num : Type} `{Arith num}.

(** [bd09togcj02(...gcj02tobd09(lng, lat))]. *)
Definition roundTripBack (lng lat : num) : num * num :=
  let '(bdlng, bdlat) := gcj02tobd09 lng lat in bd09togcj02 bdlng bdlat.

End Trips.

(** Both coordinates of [p] are within [tol] of [lng] and [lat]. *)
Definition within (tol : R) (p : R * R) (lng lat : R) : Prop :=
  (Rabs (fst p - lng) <= tol /\ Rabs (snd p - lat) <= tol)%R.

End CoordTrips.

(* ================================================================== *)
(** * coordtransform.ts: the round trip in binary64 *)
(* ================================================================== *)

Module Binary64Value.

(** The real number that a finite binary64 value denotes; 0 for the
    others. *)
Definition SFvalue (x : spec_float) : R :=
  match x with
  | S754_finite s m e =>
      ((if s then - IZR (Z.pos m) else IZR (Z.pos m)) * powerRZ 2 e)%R
  | _ => 0%R
  end.

Definition value (x : float) : R := SFvalue (Prim2SF x).

(** Neither [NaN] nor an infinity. *)
Definition finite (x : float) : bool :=
  match Prim2SF x with
  | S754_zero _ | S754_finite _ _ _ => true
  | _ => false
  end.

(** The size of the error that one operation with the exact result
    [exact] can make: a relative error of [2^-50] or an absolute error of
    [2^-1072].  Rounding to nearest makes less. *)
Definition roundOff (exact : R) : R :=
  (powerRZ 2 (-50) * Rabs exact + powerRZ 2 (-1072))%R.

(** A finite binary64 value within [eps] of the real number [A]. *)
Definition near (eps : R) (a : float) (A : R) : Prop :=
  finite a = true /\ (Rabs (value a - A) <= eps)%R.

End Binary64Value.

(** ECMA-262 leaves [Math.sin], [Math.cos] and [Math.atan2] to the
    implementation.  The properties of the round trip in binary64 are
    stated for every host that is [accurate] to 1e-12, which is several
    thousand units in the last place of a result of size 1. *)
Module Binary64Trip.
Import Binary64Value.
#[local] Open Scope R_scope.

(** A host function of one argument that is within [eta] of [F] at every
    finite argument. *)
Definition accurate (f : float -> float) (F : R -> R) (eta : R) : Prop :=
  forall a, finite a = true ->
            finite (f a) = true /\ Rabs (value (f a) - F (value a)) <= eta.

(** A host [atan2] that is within [eta] of the angle of the point, for
    the points of the right half-plane. *)
Definition accurate2 (f : float -> float -> float) (eta : R) : Prop :=
  forall y x, finite y = true -> finite x = true -> 0 < value x ->
              finite (f y x) = true
              /\ Rabs (value (f y x) - Coord.Ratan2 (value y) (value x)) <= eta.

(** The round trip in binary64 gives back both coordinates up to [tol]. *)
Definition recovers64 (F : Coord.Arith float) (tol : R) (lng lat : float) : Prop :=
  let p := @Coord.roundTrip float F lng lat in
  finite (fst p) = true /\ finite (snd p) = true
  /\ (Rabs (value (fst p) - value lng) <= tol)%R
  /\ (Rabs (value (snd p) - value lat) <= tol)%R.

(** One accurate host: its [Math.sin], [Math.cos] and [Math.atan2] are
    the real functions rounded down to a grid of step [2^-50].  [toGrid r]
    is [k * 2^-50 - 4] for the whole number [k] of steps in [r + 4]. *)
Definition toGrid (r : R) : float :=
  (of_uint63 (Uint63.of_Z (Int_part ((r + 4) * 1125899906842624))) * 0x1p-50 - 4)%float.

Definition gridSin (x : float) : float := toGrid (sin (value x)).
Definition gridCos (x : float) : float := toGrid (cos (value x)).
Definition gridAtan2 (y x : float) : float := toGrid (Coord.Ratan2 (value y) (value x)).
Definition gridHost : Coord.Arith float := Coord.binary64 gridSin gridCos gridAtan2.

(** The point [(90.0065, 18.006)], as the literals of a call denote it. *)
Definition probeLng : float := JS.ofDecimal false 900065 (-4).
Definition probeLat : float := JS.ofDecimal false 18006 (-3).

End Binary64Trip.


(* ================================================================== *)
(** * Facts about strings and the host functions *)
(* ================================================================== *)

Module StringFacts.
Import JS.
#[local] Open Scope string_scope.

Lemma append_nil_r (s : string) : s ++ "" = s.
Proof. induction s as [|c s IH]; cbn; [reflexivity | now rewrite IH]. Qed.

Lemma append_assoc (s t u : string) : (s ++ t) ++ u = s ++ (t ++ u).
Proof. induction s as [|c s IH]; cbn; [reflexivity | now rewrite IH]. Qed.

Lemma length_append (s t : string) :
  String.length (s ++ t) = (String.length s + String.length t)%nat.
Proof. induction s as [|c s IH]; cbn; [reflexivity | now rewrite IH]. Qed.

Lemma chars_append (s t : string) : chars (s ++ t) = (chars s ++ chars t)%list.
Proof.
  unfold chars. induction s as [|c s IH]; cbn; [reflexivity | now rewrite IH].
Qed.

Lemma truthy_append_l (s t : string) : truthy s = true -> truthy (s ++ t) = true.
Proof. destruct s; [discriminate | reflexivity]. Qed.

Lemma truthy_append_r (s t : string) : truthy t = true -> truthy (s ++ t) = true.
Proof. destruct s; [trivial | reflexivity]. Qed.

Lemma truthy_false (s : string) : truthy s = false -> s = "".
Proof. destruct s; [reflexivity | discriminate]. Qed.

(** ** Digit strings *)

Lemma isDigit_cases (d : Z) :
  isDigit d ->
  d = 0 \/ d = 1 \/ d = 2 \/ d = 3 \/ d = 4 \/ d = 5 \/ d = 6 \/ d = 7 \/ d = 8 \/ d = 9.
Proof. unfold isDigit; lia. Qed.

Ltac digit_cases H :=
  apply isDigit_cases in H;
  repeat (destruct H as [H | H]; [subst | ]); [ .. | subst].

Lemma chars_digitString (ds : list Z) : chars (digitString ds) = map digitChar ds.
Proof.
  unfold chars. induction ds as [|d r IH]; cbn; [reflexivity | now rewrite IH].
Qed.

Lemma length_digitString (ds : list Z) : String.length (digitString ds) = List.length ds.
Proof. induction ds as [|d r IH]; cbn; [reflexivity | now rewrite IH]. Qed.

Lemma digitString_app (a b : list Z) :
  digitString (a ++ b) = digitString a ++ digitString b.
Proof. induction a as [|d r IH]; cbn; [reflexivity | now rewrite IH]. Qed.

Lemma get_digitString (ds : list Z) (i : nat) :
  (i < List.length ds)%nat ->
  String.get i (digitString ds) = Some (digitChar (nth i ds 0)).
Proof.
  revert i; induction ds as [|d r IH]; intros i Hi; cbn in *; [lia|].
  destruct i; [reflexivity | apply IH; lia].
Qed.

Lemma parseDigit_digitChar (d : Z) :
  isDigit d -> parseDigit (digitChar d) = Some (Z.to_nat d).
Proof. intros H; digit_cases H; reflexivity. Qed.

Lemma digitChar_not_point (d : Z) : isDigit d -> digitChar d <> "."%char.
Proof. intros H; digit_cases H; discriminate. Qed.

Lemma digitChar_not_e (d : Z) : isDigit d -> digitChar d <> "e"%char.
Proof. intros H; digit_cases H; discriminate. Qed.

(** ** [split] on the decimal point *)

Lemma prefix_point (c : ascii) (s : string) :
  String.prefix "." (String c s) = Ascii.eqb c ".".
Proof.
  change (String.prefix "." (String c s))
    with (if ascii_dec "."%char c then String.prefix "" s else false).
  destruct (ascii_dec "." c) as [<- | Hne].
  - destruct s; reflexivity.
  - symmetry; apply Ascii.eqb_neq; congruence.
Qed.

Lemma splitAux_digits (ds : list Z) (cur : string) :
  Forall isDigit ds ->
  splitAux "." (digitString ds) O cur = [cur ++ digitString ds].
Proof.
  intros Hds; revert cur; induction Hds as [|d r Hd Hr IH]; intros cur.
  - cbn. now rewrite append_nil_r.
  - cbn [digitString splitAux]. rewrite prefix_point.
    destruct (Ascii.eqb_spec (digitChar d) "."%char) as [Heq | _].
    + now apply digitChar_not_point in Heq.
    + rewrite IH, append_assoc. reflexivity.
Qed.

Lemma splitAux_digits_point (ds : list Z) (rest cur : string) :
  Forall isDigit ds ->
  splitAux "." (digitString ds ++ "." ++ rest) O cur =
    (cur ++ digitString ds) :: splitAux "." rest O "".
Proof.
  intros Hds; revert cur; induction Hds as [|d r Hd Hr IH]; intros cur.
  - cbn. rewrite append_nil_r. destruct rest; reflexivity.
  - cbn [digitString append splitAux]. rewrite prefix_point.
    destruct (Ascii.eqb_spec (digitChar d) "."%char) as [Heq | _].
    + now apply digitChar_not_point in Heq.
    + rewrite IH, append_assoc. reflexivity.
Qed.

Lemma split_integer (a : list Z) :
  Forall isDigit a -> split "." (digitString a) = [digitString a].
Proof. intros Ha. unfold split. now rewrite splitAux_digits. Qed.

Lemma split_fraction (a b : list Z) :
  Forall isDigit a -> Forall isDigit b ->
  split "." (digitString a ++ "." ++ digitString b) = [digitString a; digitString b].
Proof.
  intros Ha Hb. unfold split.
  rewrite splitAux_digits_point by assumption.
  now rewrite splitAux_digits.
Qed.

(** ** [indexOf] and [split] in general *)

Lemma indexOfFrom_absent (pat s : string) (i : Z) :
  (0 <= i)%Z ->
  (indexOfFrom pat s i =? -1)%Z = negb (occurs pat s).
Proof.
  revert i; induction s as [|c s IH]; intros i Hi; cbn [indexOfFrom occurs].
  - destruct (String.prefix pat ""); [apply Z.eqb_neq; lia | reflexivity].
  - destruct (String.prefix pat (String c s)); [apply Z.eqb_neq; lia|].
    apply IH. lia.
Qed.

Lemma splitAux_cur (sep s : string) (skip : nat) (cur : string) :
  splitAux sep s skip cur =
    match splitAux sep s skip "" with
    | hd :: tl => (cur ++ hd)%string :: tl
    | [] => []
    end.
Proof.
  revert skip cur; induction s as [|c s IH]; intros skip cur; cbn [splitAux].
  - now rewrite append_nil_r.
  - destruct skip as [|k]; [|apply IH].
    destruct (String.prefix sep (String c s)).
    + now rewrite append_nil_r.
    + rewrite (IH O (cur ++ String c "")), (IH O ("" ++ String c "")).
      destruct (splitAux sep s 0 ""); [reflexivity|].
      now rewrite append_assoc.
Qed.

End StringFacts.

(** ** The shape of [toString] *)

Module ToStringFacts.
Import JS StringFacts.
#[local] Open Scope string_scope.
#[local] Open Scope Z_scope.

Lemma digitsAux_isDigit (fuel : nat) (z : Z) (acc : list Z) :
  Forall isDigit acc -> Forall isDigit (digitsAux fuel z acc).
Proof.
  revert z acc; induction fuel as [|f IH]; intros z acc Hacc; cbn.
  - constructor; [|assumption]. pose proof (Z.mod_pos_bound z 10); unfold isDigit; lia.
  - assert (Hd : isDigit (z mod 10))
      by (pose proof (Z.mod_pos_bound z 10); unfold isDigit; lia).
    destruct (z <? 10); [constructor; assumption|].
    apply IH. constructor; assumption.
Qed.

Lemma digitsOf_isDigit (z : Z) : Forall isDigit (digitsOf z).
Proof. apply digitsAux_isDigit. constructor. Qed.

Lemma stripZerosRev_isDigit (ds : list Z) :
  Forall isDigit ds -> Forall isDigit (stripZerosRev ds).
Proof.
  induction 1 as [|d r Hd Hr IH]; cbn; [constructor|].
  destruct d; try (constructor; assumption). assumption.
Qed.

Lemma stripTrailingZeros_isDigit (ds : list Z) :
  Forall isDigit ds -> Forall isDigit (stripTrailingZeros ds).
Proof.
  intros H. unfold stripTrailingZeros.
  apply Forall_rev, stripZerosRev_isDigit, Forall_rev, H.
Qed.

Lemma zeros_isDigit (n : Z) : Forall isDigit (zeros n).
Proof.
  unfold zeros. apply Forall_forall. intros d Hd.
  apply repeat_spec in Hd. subst. unfold isDigit. lia.
Qed.

Lemma exponent_in (a b : string) : In "e"%char (chars (a ++ "e" ++ b)).
Proof. rewrite chars_append. apply in_or_app. right. left. reflexivity. Qed.

Lemma render_shape (ds : list Z) (n : Z) :
  Forall isDigit ds -> noExponent (render ds n) -> fixedShape (render ds n).
Proof.
  intros Hds. unfold render.
  destruct ((Z.of_nat (List.length ds) <=? n) && (n <=? 21)).
  { intros _. eapply shapeInteger; [|reflexivity].
    apply Forall_app. split; [assumption | apply zeros_isDigit]. }
  destruct ((0 <? n) && (n <=? 21)).
  { intros _.
    rewrite <- (firstn_skipn (Z.to_nat n) ds) in Hds.
    apply Forall_app in Hds. destruct Hds as [Ha Hb].
    exact (shapeFraction _ _ _ Ha Hb eq_refl). }
  destruct ((-6 <? n) && (n <=? 0)).
  { intros _. apply (shapeFraction _ [0] (zeros (- n) ++ ds)); [| |reflexivity].
    - repeat constructor; unfold isDigit; lia.
    - apply Forall_app. split; [apply zeros_isDigit | assumption]. }
  intros Hno. exfalso. apply Hno.
  destruct ds as [|d [|d' r]].
  - apply (exponent_in "").
  - apply exponent_in.
  - rewrite chars_append. apply in_or_app. right.
    apply (exponent_in ("." ++ digitString (d' :: r))).
Qed.

Lemma positiveToString_shape (m e : Z) :
  noExponent (positiveToString m e) -> fixedShape (positiveToString m e).
Proof.
  unfold positiveToString.
  destruct (match shortest _ _ _ _ with Some st => st | None => _ end) as [s t].
  apply render_shape, stripTrailingZeros_isDigit, digitsOf_isDigit.
Qed.

(** [Number.isFinite]. *)
Lemma toString_finite (x : number) (s : bool) (m : positive) (e : Z) :
  Prim2SF x = S754_finite s m e ->
  toString x = (if s then "-" else "") ++ positiveToString (Z.pos m) e
  /\ toString (PrimFloat.abs x) = positiveToString (Z.pos m) e.
Proof.
  intros Hx. unfold toString. rewrite abs_spec, Hx. split; reflexivity.
Qed.

Lemma strictEq_zero_false (x : number) :
  strictEq x 0%float = false ->
  match Prim2SF x with S754_zero _ => False | _ => True end.
Proof.
  unfold strictEq. rewrite FloatAxioms.eqb_spec.
  destruct (Prim2SF x); cbn; try trivial. discriminate.
Qed.

End ToStringFacts.

(** ** A nonzero number prints a character that is not the digit zero *)

Module NonZeroFacts.
Import JS StringFacts ToStringFacts.
#[local] Open Scope string_scope.
#[local] Open Scope Z_scope.

Definition positiveInterval (iv : interval) : Prop :=
  0 < ivLow iv /\ 0 < ivVal iv /\ 0 < ivDen iv.

Lemma roundingInterval_positive (m e : Z) :
  0 < m -> positiveInterval (roundingInterval m e).
Proof.
  intros Hm. cbv [positiveInterval roundingInterval ivLow ivVal ivDen].
  assert (HU : 0 < (if 0 <=? e then 2 ^ e else 1))
    by (destruct (0 <=? e) eqn:He; [apply Z.pow_pos_nonneg; lia | lia]).
  assert (HD : 0 < (if 0 <=? e then 4 else 4 * 2 ^ (- e)))
    by (destruct (0 <=? e) eqn:He;
        [lia | assert (0 < 2 ^ (- e)) by (apply Z.pow_pos_nonneg; lia); lia]).
  set (U := if 0 <=? e then 2 ^ e else 1) in *.
  assert (HmU : 4 * U <= 4 * m * U) by nia.
  split; [|split]; [|lia|assumption].
  destruct (_ && _); lia.
Qed.

Lemma decNum_positive (s t : Z) : 0 < decNum s t -> 0 < s.
Proof.
  unfold decNum. destruct (0 <=? t) eqn:Ht; [|trivial].
  assert (Hp : 0 < 10 ^ t) by (apply Z.pow_pos_nonneg; lia).
  intros H. now apply (Z.mul_pos_cancel_r s (10 ^ t)).
Qed.

Lemma decDen_positive (t : Z) : 0 < decDen t.
Proof.
  unfold decDen. destruct (0 <=? t) eqn:Ht; [lia | apply Z.pow_pos_nonneg; lia].
Qed.

Lemma inInterval_positive (iv : interval) (s t : Z) :
  positiveInterval iv -> inInterval iv s t = true -> 0 < s.
Proof.
  intros (Hlow & _ & Hden) Hin. apply (decNum_positive s t).
  pose proof (decDen_positive t) as Ht.
  unfold inInterval in Hin.
  assert (Hlo : 0 < ivLow iv * decDen t) by nia.
  destruct (ivClosed iv); apply andb_prop in Hin; destruct Hin as [Hin _];
    [apply Z.leb_le in Hin | apply Z.ltb_lt in Hin]; nia.
Qed.

Lemma floorScaled_nonneg (iv : interval) (t : Z) :
  positiveInterval iv -> 0 <= floorScaled iv t.
Proof.
  intros (_ & Hval & Hden). unfold floorScaled.
  destruct (0 <=? t) eqn:Ht.
  - apply Z.div_pos; [lia|].
    assert (0 < 10 ^ t) by (apply Z.pow_pos_nonneg; lia). nia.
  - apply Z.div_pos; [|lia].
    assert (0 < 10 ^ (- t)) by (apply Z.pow_pos_nonneg; lia). nia.
Qed.

Lemma pickDigits_positive (iv : interval) (n0 k s : Z) :
  positiveInterval iv -> pickDigits iv n0 k = Some s -> 0 < s.
Proof.
  intros Hiv. unfold pickDigits.
  pose proof (floorScaled_nonneg iv (n0 - k) Hiv) as Hlo.
  destruct (inInterval iv (floorScaled iv (n0 - k)) (n0 - k)) eqn:Hin1;
    destruct (inInterval iv (floorScaled iv (n0 - k) + 1) (n0 - k)) eqn:Hin2;
    intros Hs; inversion Hs; subst; clear Hs.
  - apply (inInterval_positive iv _ _ Hiv) in Hin1.
    destruct (_ <? _); [assumption|]. destruct (_ <? _); [lia|].
    destruct (Z.even _); lia.
  - now apply (inInterval_positive iv _ _ Hiv) in Hin1.
  - lia.
Qed.

Lemma shortest_positive (fuel : nat) (iv : interval) (n0 k s t : Z) :
  positiveInterval iv -> shortest fuel iv n0 k = Some (s, t) -> 0 < s.
Proof.
  intros Hiv. revert k; induction fuel as [|f IH]; intros k; cbn; [discriminate|].
  destruct (pickDigits iv n0 k) as [s'|] eqn:Hp.
  - intros Hs; inversion Hs; subst. eapply pickDigits_positive; eassumption.
  - apply IH.
Qed.

Lemma exactDecimal_positive (m e : Z) : 0 < m -> 0 < fst (exactDecimal m e).
Proof.
  intros Hm. unfold exactDecimal. destruct (0 <=? e) eqn:He; cbn.
  - assert (0 < 2 ^ e) by (apply Z.pow_pos_nonneg; lia). nia.
  - assert (0 < 5 ^ (- e)) by (apply Z.pow_pos_nonneg; lia). nia.
Qed.

(** The digits of a positive integer are not all zero. *)
Definition someNonZero (ds : list Z) : Prop := Exists (fun d => d <> 0) ds.

Lemma digitsAux_someNonZero (fuel : nat) (z : Z) (acc : list Z) :
  0 < z < 2 ^ (Z.of_nat fuel + 1) -> someNonZero (digitsAux fuel z acc).
Proof.
  revert z acc; induction fuel as [|f IH]; intros z acc Hz.
  - cbn in *. left. change (2 ^ 1) with 2 in Hz.
    assert (z = 1) by lia. subst. discriminate.
  - cbn [digitsAux]. destruct (z <? 10) eqn:H10.
    + apply Z.ltb_lt in H10. left. rewrite Z.mod_small by lia. lia.
    + apply Z.ltb_ge in H10. apply IH.
      replace (Z.of_nat (S f) + 1) with (Z.succ (Z.of_nat f + 1)) in Hz by lia.
      rewrite Z.pow_succ_r in Hz by lia.
      split.
      * apply Z.div_str_pos; lia.
      * apply Z.div_lt_upper_bound; lia.
Qed.

Lemma digitsOf_someNonZero (z : Z) : 0 < z -> someNonZero (digitsOf z).
Proof.
  intros Hz. apply digitsAux_someNonZero.
  rewrite Z2Nat.id by apply Z.log2_nonneg.
  pose proof (Z.log2_spec z Hz). rewrite <- Z.add_1_r in *. lia.
Qed.

Lemma stripZerosRev_someNonZero (ds : list Z) :
  someNonZero ds -> someNonZero (stripZerosRev ds).
Proof.
  induction 1 as [d r Hd | d r Hr IH]; cbn.
  - destruct d; [contradiction | now left | now left].
  - destruct d; [assumption | now right | now right].
Qed.

Lemma stripTrailingZeros_someNonZero (ds : list Z) :
  someNonZero ds -> someNonZero (stripTrailingZeros ds).
Proof.
  unfold stripTrailingZeros, someNonZero. intros H.
  apply Exists_rev, stripZerosRev_someNonZero, Exists_rev, H.
Qed.

(** A character that [parseInt] does not read as zero. *)
Definition notZeroChar (c : ascii) : Prop :=
  match parseDigit c with Some O => False | _ => True end.

Definition hasNotZeroChar (s : string) : Prop :=
  exists c, In c (chars s) /\ notZeroChar c.

Lemma digitString_hasNotZeroChar (ds : list Z) :
  Forall isDigit ds -> someNonZero ds -> hasNotZeroChar (digitString ds).
Proof.
  intros Hds Hnz. apply Exists_exists in Hnz. destruct Hnz as (d & Hin & Hd).
  exists (digitChar d). split.
  - rewrite chars_digitString. now apply in_map.
  - assert (Hdig : isDigit d) by (apply (proj1 (Forall_forall _ _) Hds); assumption).
    unfold notZeroChar. rewrite parseDigit_digitChar by assumption.
    destruct (Z.to_nat d) eqn:Hn; [|trivial]. unfold isDigit in Hdig. lia.
Qed.

Lemma point_in (a b : string) : hasPoint (a ++ "." ++ b) = true.
Proof.
  unfold hasPoint. apply existsb_exists. exists "."%char. split; [|reflexivity].
  rewrite chars_append. apply in_or_app. right. now left.
Qed.

Lemma render_hasNotZeroChar (ds : list Z) (n : Z) :
  Forall isDigit ds -> someNonZero ds -> hasPoint (render ds n) = false ->
  hasNotZeroChar (render ds n).
Proof.
  intros Hds Hnz. unfold render.
  destruct (_ && _).
  { intros _. apply digitString_hasNotZeroChar.
    - apply Forall_app; split; [assumption | apply zeros_isDigit].
    - apply Exists_app. now left. }
  destruct (_ && _); [rewrite point_in; discriminate|].
  destruct (_ && _).
  { intros Hp.
    pose proof (point_in "0" (digitString (zeros (- n) ++ ds))) as Hpt.
    cbn [append] in Hp, Hpt. congruence. }
  intros _. exists "e"%char. split; [|exact I].
  destruct ds as [|d [|d' r]].
  - apply (exponent_in "").
  - apply exponent_in.
  - rewrite chars_append. apply in_or_app. right.
    apply (exponent_in ("." ++ digitString (d' :: r))).
Qed.

Lemma positiveToString_hasNotZeroChar (m : positive) (e : Z) :
  hasPoint (positiveToString (Z.pos m) e) = false ->
  hasNotZeroChar (positiveToString (Z.pos m) e).
Proof.
  unfold positiveToString.
  pose proof (roundingInterval_positive (Z.pos m) e eq_refl) as Hiv.
  destruct (shortest _ _ _ _) as [[s t]|] eqn:Hs.
  - apply shortest_positive in Hs; [|assumption].
    apply render_hasNotZeroChar.
    + apply stripTrailingZeros_isDigit, digitsOf_isDigit.
    + now apply stripTrailingZeros_someNonZero, digitsOf_someNonZero.
  - pose proof (exactDecimal_positive (Z.pos m) e eq_refl) as Hs'.
    destruct (exactDecimal (Z.pos m) e) as [s t]. cbn in Hs'.
    apply render_hasNotZeroChar.
    + apply stripTrailingZeros_isDigit, digitsOf_isDigit.
    + now apply stripTrailingZeros_someNonZero, digitsOf_someNonZero.
Qed.

Lemma toString_abs_hasNotZeroChar (x : number) :
  strictEq x 0%float = false ->
  hasPoint (toString (PrimFloat.abs x)) = false ->
  hasNotZeroChar (toString (PrimFloat.abs x)).
Proof.
  intros Hnz. apply strictEq_zero_false in Hnz.
  unfold toString. rewrite abs_spec.
  destruct (Prim2SF x) as [z | i | | s m e]; cbn [SFabs].
  - contradiction.
  - intros _. exists "I"%char. split; [now left | exact I].
  - intros _. exists "N"%char. split; [now left | exact I].
  - apply positiveToString_hasNotZeroChar.
Qed.

End NonZeroFacts.

(* ================================================================== *)
(** * Facts about binary64 arithmetic *)
(* ================================================================== *)

Module FloatFacts.
Import JS.
#[local] Open Scope Z_scope.

Lemma SFopp_involutive (x : spec_float) : SFopp (SFopp x) = x.
Proof. destruct x; cbn; rewrite ?negb_involutive; reflexivity. Qed.

Lemma opp_involutive (x : number) : (- - x)%float = x.
Proof. apply Prim2SF_inj. now rewrite !opp_spec, SFopp_involutive. Qed.

Lemma SF2Prim_opp (x : spec_float) : SF2Prim (SFopp x) = (- SF2Prim x)%float.
Proof.
  destruct x as [[|] | [|] | | [|] m e]; cbn [SFopp negb SF2Prim];
    try reflexivity.
  symmetry. apply opp_involutive.
Qed.

Lemma binary_round_aux_opp (s : bool) (m e : Z) (l : location) :
  binary_round_aux prec emax (negb s) m e l
  = SFopp (binary_round_aux prec emax s m e l).
Proof.
  unfold binary_round_aux.
  destruct (shr_fexp prec emax m e l) as [mrs e'].
  destruct (shr_fexp prec emax _ e' loc_Exact) as [mrs' e''].
  destruct (shr_m mrs'); [reflexivity | | reflexivity].
  destruct (e'' <=? emax - prec); reflexivity.
Qed.

Lemma SFmul_opp_l (x y : spec_float) :
  SF64mul (SFopp x) y = SFopp (SF64mul x y).
Proof.
  unfold SF64mul.
  destruct x as [sx | sx | | sx mx ex], y as [sy | sy | | sy my ey];
    cbn [SFopp SFmul]; rewrite <- ?negb_xorb_l; try reflexivity.
  apply binary_round_aux_opp.
Qed.

Lemma mul_opp_l (x y : number) : (- x * y)%float = (- (x * y))%float.
Proof.
  apply Prim2SF_inj. rewrite opp_spec, !mul_spec, opp_spec. apply SFmul_opp_l.
Qed.

Lemma SFsub_opp_r (x y : spec_float) : SF64sub x (SFopp y) = SF64add x y.
Proof.
  unfold SF64sub, SF64add.
  destruct x as [[|] | [|] | | sx mx ex], y as [[|] | [|] | | sy my ey];
    cbn [SFopp SFsub SFadd negb]; rewrite ?negb_involutive; try reflexivity.
  f_equal. destruct sy; cbn [negb cond_Zopp]; lia.
Qed.

Lemma sub_opp_r (x y : number) : (x - - y)%float = (x + y)%float.
Proof.
  apply Prim2SF_inj. rewrite sub_spec, add_spec, opp_spec. apply SFsub_opp_r.
Qed.

Lemma binary_normalize_opp (z e : Z) :
  z <> 0 ->
  binary_normalize prec emax (- z) e false
  = SFopp (binary_normalize prec emax z e false).
Proof.
  intros Hz. destruct z as [|p|p]; [contradiction| |]; cbn [Z.opp binary_normalize];
    unfold binary_round;
    destruct (shl_align _ _ _) as [mz ez].
  - apply (binary_round_aux_opp false).
  - rewrite (binary_round_aux_opp false). now rewrite SFopp_involutive.
Qed.

Lemma ofZ_opp (z : Z) : z <> 0 -> ofZ (- z) = (- ofZ z)%float.
Proof.
  intros Hz. unfold ofZ. now rewrite binary_normalize_opp, SF2Prim_opp.
Qed.

Lemma signedZero_opp (s : bool) : signedZero (negb s) = (- signedZero s)%float.
Proof. unfold signedZero. apply (SF2Prim_opp (S754_zero s)). Qed.

(** ** [Math.round] and the opposite *)

(** Rounding to the nearest integer commutes with the opposite except at
    the ties: the nearest integers of [z] and [-z] are opposite unless
    [z + 1/2] is an integer. *)
Lemma round_quotient_opp (a P : Z) :
  0 < P -> (2 * a + P) mod (2 * P) <> 0 ->
  (2 * (- a) + P) / (2 * P) = - ((2 * a + P) / (2 * P)).
Proof.
  intros HP Hmod.
  replace (2 * - a + P) with (- (2 * a + P) + 1 * (2 * P)) by lia.
  rewrite Z.div_add by lia.
  rewrite Z.div_opp_l_nz by (try assumption; lia). lia.
Qed.

Lemma half_mod_sign (m P : Z) :
  0 < P -> (2 * m + P) mod (2 * P) <> 0 -> (2 * (- m) + P) mod (2 * P) <> 0.
Proof.
  intros HP Hmod Hneg. apply Hmod.
  apply Z.mod_divide in Hneg; [|lia]. apply Z.mod_divide; [lia|].
  destruct Hneg as [c Hc]. exists (1 - c). lia.
Qed.

Lemma Math_round_opp (z : number) :
  isHalfInteger z = false -> Math_round (- z)%float = (- Math_round z)%float.
Proof.
  unfold isHalfInteger, Math_round. rewrite opp_spec.
  destruct (Prim2SF z) as [s | s | | s m e] eqn:Hz; cbn [SFopp]; try reflexivity.
  destruct (0 <=? e) eqn:He; [reflexivity|]. apply Z.leb_gt in He.
  replace (e <? 0) with true by (symmetry; apply Z.ltb_lt; lia).
  cbn [andb]. intros Hhalf. apply Z.eqb_neq in Hhalf.
  assert (HP : 0 < 2 ^ (- e)) by (apply Z.pow_pos_nonneg; lia).
  assert (HD : 2 ^ (1 - e) = 2 * 2 ^ (- e))
    by (replace (1 - e) with (Z.succ (- e)) by lia; apply Z.pow_succ_r; lia).
  rewrite HD in *.
  assert (Hq : (2 * signedMantissa (negb s) m + 2 ^ (- e)) / (2 * 2 ^ (- e))
               = - ((2 * signedMantissa s m + 2 ^ (- e)) / (2 * 2 ^ (- e)))).
  { destruct s; cbn [negb signedMantissa].
    - change (Z.pos m) with (- Z.neg m). apply round_quotient_opp; [assumption|].
      change (Z.neg m) with (- Z.pos m). now apply half_mod_sign.
    - change (Z.neg m) with (- Z.pos m). now apply round_quotient_opp. }
  rewrite Hq.
  set (q := (2 * signedMantissa s m + 2 ^ (- e)) / (2 * 2 ^ (- e))).
  destruct (Z.eq_dec q 0) as [-> | Hq0].
  - cbn [Z.opp Z.eqb]. apply signedZero_opp.
  - replace (- q =? 0) with false by (symmetry; apply Z.eqb_neq; lia).
    replace (q =? 0) with false by (symmetry; now apply Z.eqb_neq).
    now apply ofZ_opp.
Qed.

End FloatFacts.

(* ================================================================== *)
(** * Properties of amount.ts *)
(* ================================================================== *)

Module AmountFacts.
Import JS Amount StringFacts ToStringFacts.
#[local] Open Scope string_scope.

(** ** The output alphabet *)

Lemma over_app (s t : string) :
  OverAlphabet s -> OverAlphabet t -> OverAlphabet (s ++ t).
Proof.
  induction 1 as [|c s Hc Hs IH]; intros Ht; [exact Ht|].
  rewrite append_assoc. apply over_cons; auto.
Qed.

Lemma over_char (c : string) : In c alphabet -> OverAlphabet c.
Proof.
  intros Hc. rewrite <- (append_nil_r c). apply over_cons; [exact Hc | constructor].
Qed.

Ltac in_alphabet :=
  first [ exact over_nil
        | apply over_char; unfold alphabet; cbn [In];
          repeat first [ left; reflexivity | right ] ].

Create HintDb over.
#[local] Hint Resolve over_nil over_app : over.

Lemma numeral_over (d : digit) : isDecimal d -> OverAlphabet (numeral d).
Proof.
  intros (n & -> & Hn). unfold numeral, at_, upperCaseNums.
  do 10 (destruct n as [|n]; [in_alphabet|]). lia.
Qed.

Lemma units_over (pos : nat) : (pos < 4)%nat -> OverAlphabet (at_ units pos).
Proof.
  intros Hpos. unfold at_, units.
  do 4 (destruct pos as [|pos]; [in_alphabet|]). lia.
Qed.

Lemma decimalUnits_over (i : nat) : (i < 4)%nat -> OverAlphabet (at_ decimalUnits i).
Proof.
  intros Hi. unfold at_, decimalUnits.
  do 4 (destruct i as [|i]; [in_alphabet|]). lia.
Qed.

Lemma bigUnits_over (groupIdx : nat) : OverAlphabet (atOrEmpty bigUnits groupIdx).
Proof.
  unfold atOrEmpty, bigUnits.
  do 3 (destruct groupIdx as [|groupIdx]; [in_alphabet|]).
  destruct groupIdx; in_alphabet.
Qed.

Lemma zero_over : OverAlphabet "零".
Proof. in_alphabet. Qed.

Lemma shi_over : OverAlphabet "拾".
Proof. in_alphabet. Qed.

#[local] Hint Resolve numeral_over units_over decimalUnits_over bigUnits_over
  zero_over shi_over : over.

(** ** The integer part *)

Lemma groupStep_over (digits : list digit) (start i : nat) (st : groupState) :
  isDecimal (nth i digits None) -> (i - start < 4)%nat ->
  OverAlphabet (groupResult st) ->
  OverAlphabet (groupResult (groupStep digits start st i)).
Proof.
  intros Hd Hpos Hst. unfold groupStep.
  destruct (nonZero _); [|destruct (hasValue st); assumption].
  cbn [groupResult].
  assert (Hr : OverAlphabet (if needZero st && hasValue st
                             then "零" ++ groupResult st else groupResult st))
    by (destruct (needZero st && hasValue st); auto with over).
  destruct (isOne _ && _); auto 6 with over.
Qed.

Lemma fold_groupStep_over (digits : list digit) (start : nat) (idx : list nat)
    (st : groupState) :
  (forall i, In i idx -> isDecimal (nth i digits None) /\ (i - start < 4)%nat) ->
  OverAlphabet (groupResult st) ->
  OverAlphabet (groupResult (fold_left (groupStep digits start) idx st)).
Proof.
  revert st; induction idx as [|i idx IH]; intros st Hidx Hst; [exact Hst|].
  cbn [fold_left]. apply IH.
  - intros j Hj. apply Hidx. now right.
  - destruct (Hidx i (or_introl eq_refl)). now apply groupStep_over.
Qed.

Lemma groupLoop_over (digits : list digit) (start end_ : nat) :
  decimalDigits digits -> (end_ <= List.length digits)%nat -> (end_ <= start + 4)%nat ->
  OverAlphabet (groupResult (groupLoop digits start end_)).
Proof.
  intros Hds Hlen Hend. unfold groupLoop. apply fold_groupStep_over.
  - intros i Hi. apply in_seq in Hi. split; [apply Hds|]; lia.
  - constructor.
Qed.

Lemma convertGroup_over (digits : list digit) (result : string) (groupIdx : nat) :
  decimalDigits digits -> OverAlphabet result ->
  OverAlphabet (convertGroup digits (List.length digits) result groupIdx).
Proof.
  intros Hds Hres. unfold convertGroup.
  set (start := (groupIdx * 4)%nat).
  set (end_ := Nat.min (start + 4) (List.length digits)).
  assert (Hg : OverAlphabet (groupResult (groupLoop digits start end_)))
    by (apply groupLoop_over; [assumption | apply Nat.le_min_r | apply Nat.le_min_l]).
  destruct (hasValue _); [|assumption].
  apply over_app.
  - destruct (true && _); auto with over.
  - destruct (truthy result && _ && _); auto with over.
Qed.

Lemma fold_convertGroup_over (digits : list digit) (groups : list nat) (result : string) :
  decimalDigits digits -> OverAlphabet result ->
  OverAlphabet (fold_left (convertGroup digits (List.length digits)) groups result).
Proof.
  intros Hds. revert result; induction groups as [|g groups IH]; intros result Hres.
  - exact Hres.
  - cbn [fold_left]. apply IH. now apply convertGroup_over.
Qed.

Lemma decimalDigits_of_digitString (a : list Z) :
  Forall isDigit a -> decimalDigits (rev (map parseDigit (chars (digitString a)))).
Proof.
  intros Ha i Hi. rewrite chars_digitString, map_map in *.
  rewrite length_rev, length_map in Hi.
  rewrite rev_nth by (rewrite length_map; lia).
  rewrite length_map.
  set (j := (List.length a - S i)%nat).
  rewrite (nth_indep _ None (parseDigit (digitChar 0))) by (rewrite length_map; lia).
  rewrite (map_nth (fun d => parseDigit (digitChar d))).
  assert (Hj : isDigit (nth j a 0))
    by (apply (proj1 (Forall_forall _ _) Ha), nth_In; lia).
  rewrite parseDigit_digitChar by assumption.
  exists (Z.to_nat (nth j a 0)). split; [reflexivity|]. unfold isDigit in Hj; lia.
Qed.

Lemma convertInteger_over (a : list Z) :
  Forall isDigit a -> OverAlphabet (convertInteger (digitString a)).
Proof.
  intros Ha. unfold convertInteger.
  destruct (_ || _); [constructor|].
  apply fold_convertGroup_over; [|constructor].
  now apply decimalDigits_of_digitString.
Qed.

(** ** The fraction part *)

Lemma decimalStep_over (b : list Z) (result : string) (i : nat) :
  Forall isDigit b -> (i < List.length b)%nat -> (i < 4)%nat ->
  OverAlphabet result -> OverAlphabet (decimalStep (digitString b) result i).
Proof.
  intros Hb Hi Hi4 Hres. unfold decimalStep.
  rewrite get_digitString by assumption.
  assert (Hd : isDigit (nth i b 0))
    by (apply (proj1 (Forall_forall _ _) Hb), nth_In; assumption).
  rewrite parseDigit_digitChar by assumption.
  destruct (nonZero _); [|assumption].
  apply over_app; [assumption|]. apply over_app; [|auto with over].
  apply numeral_over. eexists; split; [reflexivity|]. unfold isDigit in Hd; lia.
Qed.

Lemma convertDecimal_over (b : list Z) :
  Forall isDigit b -> OverAlphabet (convertDecimal (digitString b)).
Proof.
  intros Hb. unfold convertDecimal.
  destruct (negb _); [constructor|].
  rewrite length_digitString.
  assert (Hfold : forall idx result,
             (forall i, In i idx -> (i < List.length b)%nat /\ (i < 4)%nat) ->
             OverAlphabet result ->
             OverAlphabet (fold_left (decimalStep (digitString b)) idx result)).
  { induction idx as [|i idx IH]; intros result Hidx Hres; [exact Hres|].
    cbn [fold_left]. apply IH; [intros j Hj; apply Hidx; now right|].
    destruct (Hidx i (or_introl eq_refl)). now apply decimalStep_over. }
  apply Hfold; [|constructor].
  intros i Hi. apply in_seq in Hi. lia.
Qed.

(** ** The whole amount *)

Lemma compose_over (num : number) :
  fixedShape (toString (PrimFloat.abs num)) -> OverAlphabet (compose num "整").
Proof.
  intros Hshape. unfold compose.
  assert (Hsign : OverAlphabet (if lt num 0%float then "负" else ""))
    by (destruct (lt num 0%float); in_alphabet).
  assert (Hparts : exists a b, Forall isDigit a /\ Forall isDigit b
            /\ nth 0 (split "." (toString (PrimFloat.abs num))) "" = digitString a
            /\ nth 1 (split "." (toString (PrimFloat.abs num))) "" = digitString b).
  { destruct Hshape as [a Ha -> | a b Ha Hb ->].
    - rewrite split_integer by assumption. exists a, []. repeat split; auto.
    - rewrite split_fraction by assumption. exists a, b. repeat split; auto. }
  destruct Hparts as (a & b & Ha & Hb & -> & ->).
  pose proof (convertInteger_over a Ha) as Hint.
  pose proof (convertDecimal_over b Hb) as Hdec.
  assert (Hyuan : OverAlphabet "元") by in_alphabet.
  assert (Hzheng : OverAlphabet "整") by in_alphabet.
  destruct (truthy (convertInteger _)); [destruct (negb _)|]; auto 8 with over.
Qed.

Lemma hasExponent_false (s : string) : hasExponent s = false -> noExponent s.
Proof.
  intros H Hin. unfold hasExponent in H.
  assert (Ht : existsb (Ascii.eqb "e") (chars s) = true)
    by (apply existsb_exists; exists "e"%char; split; [assumption | reflexivity]).
  congruence.
Qed.

(** C10.  For a finite nonzero amount whose decimal string has no exponent
    marker, [priceUppercase] returns a string over the alphabet of the
    numerals. *)
Theorem priceUppercase_over_alphabet (num : number) :
  isFinite num = true -> strictEq num 0%float = false ->
  hasExponent (toString num) = false ->
  OverAlphabet (priceUppercase num).
Proof.
  intros Hfin Hnz Hno. unfold priceUppercase. rewrite Hnz. apply compose_over.
  unfold isFinite in Hfin. apply strictEq_zero_false in Hnz.
  apply hasExponent_false in Hno.
  destruct (Prim2SF num) as [z | i | | s m e] eqn:Hx; try discriminate; try contradiction.
  destruct (toString_finite _ _ _ _ Hx) as [Hs Habs].
  rewrite Habs. apply positiveToString_shape.
  intros Hin. apply Hno. rewrite Hs, chars_append. apply in_or_app. now right.
Qed.

Lemma priceUppercase_over_alphabet_witness :
  priceUppercase (-1234567.123)%float = "负壹佰贰拾叁万肆仟伍佰陆拾柒元壹角贰分叁厘"
  /\ OverAlphabet (priceUppercase (-1234567.123)%float).
Proof.
  split; [vm_compute; reflexivity|].
  apply priceUppercase_over_alphabet; vm_compute; reflexivity.
Defined.

(** ** The tens digit *)

Lemma sub_offset (start k : nat) : (start + k - start)%nat = k.
Proof. lia. Qed.

Ltac group_cases :=
  repeat match goal with
         | |- context [nonZero ?d] =>
             lazymatch d with
             | Some _ => fail
             | _ => destruct (nonZero d) eqn:?
             end
         end.

Lemma groupLoop_tens_one (digits : list digit) (start end_ : nat) :
  (start + 2 <= end_)%nat -> (end_ <= start + 4)%nat ->
  nth (start + 1) digits None = Some 1%nat ->
  groupResult (groupLoop digits start end_) =
    tensOneText (digitAt digits start end_ 0) (digitAt digits start end_ 2)
                (digitAt digits start end_ 3).
Proof.
  intros Hlo Hhi Hone.
  assert (Hcases : end_ = (start + 2)%nat \/ end_ = (start + 3)%nat
                   \/ end_ = (start + 4)%nat) by lia.
  unfold groupLoop, digitAt, tensOneText.
  destruct Hcases as [-> | [-> | ->]]; rewrite sub_offset; cbn [seq fold_left].
  all: replace (S start) with (start + 1)%nat by lia.
  all: try replace (S (start + 1)) with (start + 2)%nat by lia.
  all: try replace (S (start + 2)) with (start + 3)%nat by lia.
  all: repeat match goal with
       | |- context [(?a <? ?b)%nat] =>
           first [ replace (a <? b)%nat with true by (symmetry; apply Nat.ltb_lt; lia)
                 | replace (a <? b)%nat with false by (symmetry; apply Nat.ltb_ge; lia) ]
       end.
  all: rewrite ?Nat.add_0_r.
  all: set (d0 := nth start digits None).
  all: try set (d2 := nth (start + 2) digits None).
  all: try set (d3 := nth (start + 3) digits None).
  all: unfold groupStep; rewrite ?sub_offset, ?Nat.sub_diag, ?Hone.
  all: fold d0; try fold d2; try fold d3.
  all: group_cases; cbn; rewrite ?andb_false_r; cbn;
       rewrite ?append_nil_r, ?append_assoc; reflexivity.
Qed.

(** X27.  The inner loop of [convertInteger] writes a tens digit equal to
    1 as bare 拾 in the group at any index, the only group or one of
    several: the text of group [groupIdx] is its thousands and hundreds,
    then 拾 with no 壹 before it, then its units. *)
Theorem tens_digit_one_is_bare_shi (digits : list digit) (groupIdx : nat) :
  let start := (groupIdx * 4)%nat in
  let end_ := Nat.min (start + 4) (List.length digits) in
  (start + 2 <= List.length digits)%nat ->
  nth (start + 1) digits None = Some 1%nat ->
  groupResult (groupLoop digits start end_) =
    tensOneText (digitAt digits start end_ 0) (digitAt digits start end_ 2)
                (digitAt digits start end_ 3).
Proof.
  intros start end_ Hlen Hone. apply groupLoop_tens_one; [| |assumption].
  - unfold end_. apply Nat.min_glb; lia.
  - apply Nat.le_min_l.
Qed.

Lemma tens_digit_one_is_bare_shi_witness :
  let digits := rev (map parseDigit (chars "110000")) in
  groupResult (groupLoop digits 4 6) = "拾壹"
  /\ convertInteger "110000" = "拾壹万".
Proof.
  intros digits. split; [|vm_compute; reflexivity].
  assert (H1 : (1 * 4 + 2 <= List.length digits)%nat) by (cbn; lia).
  assert (H2 : nth (1 * 4 + 1) digits None = Some 1%nat) by reflexivity.
  exact (tens_digit_one_is_bare_shi digits 1 H1 H2).
Defined.

(** C1 (the code at the failing input).  In 10001 the units digit follows
    three zero digits, yet no 零 is written before it: the zero that spans
    the group boundary is lost, while the zeros inside one group (1001)
    get their single 零.  The 零 between groups is written after a group
    that begins with a zero, not before it: in 101111234 it stands before
    壹仟, which follows a 1, and is missing before 壹佰, which follows a 0. *)
Theorem priceUppercase_10001_has_no_zero :
  priceUppercase 10001%float = "壹万壹元整"
  /\ priceUppercase 10010%float = "壹万拾元整"
  /\ priceUppercase 1001%float = "壹仟零壹元整"
  /\ priceUppercase 101111234%float = "壹亿壹佰拾壹万零壹仟贰佰叁拾肆元整".
Proof. repeat (split; [vm_compute; reflexivity|]). vm_compute; reflexivity. Qed.

(** C5 (the code at the failing input).  110000 spans two groups and the
    tens digit of its upper group is 1: it is written as bare 拾, where
    the claim wants 壹拾.  [numberToChinese] of math.ts writes the bare
    form only in a number of a single group, and keeps the 一 here. *)
Theorem priceUppercase_110000_bare_shi :
  priceUppercase 110000%float = "拾壹万元整"
  /\ priceUppercase 10%float = "拾元整"
  /\ MathUtil.numberToChinese (MathUtil.OfNumber 110000%float) = Some "一十一万"
  /\ MathUtil.numberToChinese (MathUtil.OfNumber 10%float) = Some "十".
Proof. repeat (split; [vm_compute; reflexivity|]). vm_compute; reflexivity. Qed.

(** C9 (the code at the failing input).  [priceUppercase] of src/amount.ts
    declares the amount only: a second argument is ignored and 整 is
    appended.  The later revision declares [format] and documents
    壹佰贰拾叁万肆仟伍佰陆拾柒元 for the empty suffix, but it throws on the
    assignment to its constant, for this amount as for every amount but
    zero. *)
Theorem priceUppercase_suffix_is_lost :
  priceUppercase 1234567%float = "壹佰贰拾叁万肆仟伍佰陆拾柒元整"
  /\ priceUppercaseFormat 1234567%float (Some "") = TypeError
  /\ priceUppercaseFormat 1234567%float None = TypeError
  /\ priceUppercaseFormat 0%float (Some "") = Returned "零元整".
Proof. repeat (split; [vm_compute; reflexivity|]). vm_compute; reflexivity. Qed.

(** ** Exact amounts *)

Lemma split_no_point (s : string) : hasPoint s = false -> split "." s = [s].
Proof.
  unfold split, hasPoint, chars.
  assert (Haux : forall cur, existsb (Ascii.eqb ".") (list_ascii_of_string s) = false ->
                             splitAux "." s O cur = [cur ++ s]).
  { induction s as [|c s IH]; intros cur Hp; cbn [splitAux].
    - now rewrite append_nil_r.
    - cbn [list_ascii_of_string existsb] in Hp. apply orb_false_elim in Hp.
      destruct Hp as [Hc Hs]. rewrite prefix_point, Ascii.eqb_sym, Hc.
      rewrite IH by assumption. now rewrite append_assoc. }
  apply Haux.
Qed.

Lemma numeral_truthy (d : digit) : truthy (numeral d) = true.
Proof.
  destruct d as [n|]; [|reflexivity]. unfold numeral, at_, upperCaseNums.
  do 10 (destruct n as [|n]; [reflexivity|]). destruct n; reflexivity.
Qed.

(** Once a group has a value its text is not empty, and stays so. *)
Definition valued (st : groupState) : Prop :=
  hasValue st = true /\ truthy (groupResult st) = true.

Lemma groupStep_valued (digits : list digit) (start i : nat) (st : groupState) :
  valued st \/ nonZero (nth i digits None) = true ->
  valued (groupStep digits start st i).
Proof.
  unfold valued, groupStep. intros Hst.
  destruct (nonZero (nth i digits None)) eqn:Hd.
  - cbn [hasValue groupResult]. split; [reflexivity|].
    destruct (isOne _ && _); [reflexivity|].
    apply truthy_append_l, numeral_truthy.
  - destruct Hst as [[Hv Ht] | Hd']; [|discriminate].
    rewrite Hv. cbn [hasValue groupResult]. now split.
Qed.

Lemma fold_groupStep_valued (digits : list digit) (start : nat) (idx : list nat)
    (st : groupState) :
  valued st \/ (exists i, In i idx /\ nonZero (nth i digits None) = true) ->
  valued (fold_left (groupStep digits start) idx st).
Proof.
  revert st; induction idx as [|j idx IH]; intros st Hst; cbn [fold_left].
  - destruct Hst as [Hst | (i & [] & _)]. exact Hst.
  - apply IH.
    destruct Hst as [Hst | (i & [<- | Hi] & Hd)].
    + left. apply groupStep_valued. now left.
    + left. apply groupStep_valued. now right.
    + right. now exists i.
Qed.

Lemma convertGroup_truthy (digits : list digit) (len : nat) (result : string)
    (groupIdx : nat) :
  truthy result = true \/ valued (groupLoop digits (groupIdx * 4) (Nat.min (groupIdx * 4 + 4) len)) ->
  truthy (convertGroup digits len result groupIdx) = true.
Proof.
  unfold convertGroup.
  set (st := groupLoop digits (groupIdx * 4) (Nat.min (groupIdx * 4 + 4) len)).
  intros H.
  destruct (hasValue st) eqn:Hv.
  - destruct H as [Hres | [_ Ht]].
    + apply truthy_append_r.
      destruct (truthy result && _ && _); [reflexivity | assumption].
    + apply truthy_append_l.
      destruct (true && _); [apply truthy_append_l|]; assumption.
  - destruct H as [Hres | [Hv' _]]; [assumption | congruence].
Qed.

Lemma fold_convertGroup_truthy (digits : list digit) (len : nat) (groups : list nat)
    (result : string) :
  truthy result = true
  \/ (exists g, In g groups
                /\ valued (groupLoop digits (g * 4) (Nat.min (g * 4 + 4) len))) ->
  truthy (fold_left (convertGroup digits len) groups result) = true.
Proof.
  revert result; induction groups as [|g groups IH]; intros result H; cbn [fold_left].
  - destruct H as [H | (g & [] & _)]. exact H.
  - apply IH.
    destruct H as [H | (g' & [<- | Hg] & Hval)].
    + left. apply convertGroup_truthy. now left.
    + left. apply convertGroup_truthy. now right.
    + right. now exists g'.
Qed.

Lemma convertInteger_truthy (n : string) :
  NonZeroFacts.hasNotZeroChar n -> truthy (convertInteger n) = true.
Proof.
  intros (c & Hin & Hc). unfold convertInteger.
  assert (Hn0 : (n =? "0")%string = false).
  { apply String.eqb_neq. intros ->. cbn in Hin. destruct Hin as [<- | []].
    exact Hc. }
  assert (Hnt : truthy n = true) by (destruct n; [destruct Hin | reflexivity]).
  rewrite Hn0, Hnt. cbn [orb negb].
  set (digits := rev (map parseDigit (chars n))).
  assert (Hd : In (parseDigit c) digits) by (apply -> in_rev; now apply in_map).
  destruct (In_nth _ _ None Hd) as (i & Hi & Hnth).
  apply fold_convertGroup_truthy. right. exists (i / 4)%nat.
  pose proof (Nat.div_mod_eq i 4) as Hdm.
  pose proof (Nat.mod_upper_bound i 4 ltac:(lia)) as Hmod.
  split.
  - apply in_seq. split; [lia|]. cbn [Nat.add].
    apply Nat.Div0.div_lt_upper_bound.
    pose proof (Nat.div_mod_eq (List.length digits + 3) 4).
    pose proof (Nat.mod_upper_bound (List.length digits + 3) 4 ltac:(lia)). lia.
  - unfold groupLoop. apply fold_groupStep_valued. right. exists i. split.
    + apply in_seq. lia.
    + assert (Hnz : nonZero (parseDigit c) = true).
      { unfold NonZeroFacts.notZeroChar in Hc.
        destruct (parseDigit c) as [[|k]|]; [contradiction | reflexivity | reflexivity]. }
      rewrite <- Hnth in Hnz. exact Hnz.
Qed.

Lemma compose_exact (num : number) (suffix : string) :
  strictEq num 0%float = false ->
  hasPoint (toString (PrimFloat.abs num)) = false ->
  compose num suffix =
    (if lt num 0%float then "负" else "")
    ++ convertInteger (toString (PrimFloat.abs num)) ++ "元" ++ suffix.
Proof.
  intros Hnz Hpt. unfold compose.
  rewrite (split_no_point _ Hpt). cbn [nth].
  rewrite convertInteger_truthy
    by (apply NonZeroFacts.toString_abs_hasNotZeroChar; assumption).
  change (convertDecimal "") with "". cbn [truthy negb].
  now rewrite !append_assoc.
Qed.

(** X28.  A nonzero amount whose decimal string has no fraction point is
    written as its sign, the text of its integer part, which is not
    empty, and 元整. *)
Theorem priceUppercase_exact_amount (val : number) :
  strictEq val 0%float = false ->
  hasPoint (toString (PrimFloat.abs val)) = false ->
  priceUppercase val =
    (if lt val 0%float then "负" else "")
    ++ convertInteger (toString (PrimFloat.abs val)) ++ "元整"
  /\ truthy (convertInteger (toString (PrimFloat.abs val))) = true.
Proof.
  intros Hnz Hpt. split.
  - unfold priceUppercase. rewrite Hnz. now apply compose_exact.
  - apply convertInteger_truthy.
    now apply NonZeroFacts.toString_abs_hasNotZeroChar.
Qed.

Lemma priceUppercase_exact_amount_witness :
  priceUppercase (-1234567)%float = "负壹佰贰拾叁万肆仟伍佰陆拾柒元整"
  /\ truthy (convertInteger "1234567") = true.
Proof.
  pose proof (priceUppercase_exact_amount (-1234567)%float eq_refl eq_refl)
    as [Htext Hfull].
  split; [rewrite Htext; vm_compute; reflexivity | exact Hfull].
Defined.

End AmountFacts.
(* ================================================================== *)
(** * Properties of math.ts *)
(* ================================================================== *)

Module MathFacts.
Import JS MathUtil.
#[local] Open Scope float_scope.

(** C2 (the code at the failing input).  [1e-7] prints as ["1e-7"], which
    has no point: math.ts counts 0 places where the exponent says 7, the
    scale of [addition(1e-7, 0)] is [10^0] and the sum is 0.  The
    [getDecimalPlaces] of amount.ts decodes the exponent and counts 7. *)
Theorem getDecimalPlaces_ignores_exponent :
  toString 1e-7 = "1e-7"
  /\ getDecimalPlaces 1e-7 = 0%nat
  /\ getDecimalPlaces 1.5e-7 = 4%nat
  /\ addition 1e-7 0 None = 0
  /\ AmountPlaces.getDecimalPlaces 1e-7 = Some 7%nat
  /\ AmountPlaces.getDecimalPlaces 1.5e-7 = Some 8%nat.
Proof. repeat (split; [vm_compute; reflexivity|]). vm_compute; reflexivity. Qed.

(** The call throws exactly when the divisor is [=== 0], which [-0] is
    and [NaN] is not. *)
Lemma divisionOperation_throws_iff (a b : number) (decimal : option nat) :
  (exists message, divisionOperation a b decimal = Throws message)
  <-> strictEq b 0 = true.
Proof.
  unfold divisionOperation. destruct (strictEq b 0); split.
  - reflexivity.
  - intros _. eexists. reflexivity.
  - intros [message Hm]. discriminate.
  - discriminate.
Qed.

(** C3 (the code at the failing input).  [1e-7] counts 0 places (the
    defect of C2), so [m] is 0 and the quotient is [round(1e-7) / round(1)],
    which is 0.  With the 7 places that the exponent says, and that the
    [getDecimalPlaces] of amount.ts counts, the formula of the claim is
    [round(1) / round(10^7)], which is [1e-7]. *)
Theorem divisionOperation_loses_small_dividend :
  getDecimalPlaces 1e-7 = 0%nat
  /\ divisionOperation 1e-7 1 None = Returns 0
  /\ AmountPlaces.getDecimalPlaces 1e-7 = Some 7%nat
  /\ Math_round (1e-7 * pow10 7) / Math_round (1 * pow10 7) = 1e-7.
Proof. repeat (split; [vm_compute; reflexivity|]). vm_compute; reflexivity. Qed.

(** C8 (counterexample).  [361.5759002340628] has 13 places and its
    product with [10^13] is [3615759002340627.5]: [Math.round] takes the
    tie up for [b] and up again (towards zero) for [-b], so the two
    results differ in the last place. *)
Lemma addition_is_not_subtraction_of_opposite :
  addition 0 361.5759002340628 None = 361.5759002340628
  /\ subtraction 0 (PrimFloat.opp 361.5759002340628) None = 361.5759002340627
  /\ addition 0 361.5759002340628 None
     <> subtraction 0 (PrimFloat.opp 361.5759002340628) None.
Proof.
  split; [vm_compute; reflexivity|].
  split; [vm_compute; reflexivity|].
  vm_compute. discriminate.
Qed.

(** ** Input that is not a number *)

(** C4 (the code at the failing input).  [priceUppercase] has no guard:
    [NaN] prints as ["NaN"], whose three letters are read as digits that
    are [NaN], and the result is not the empty string, nor a numeral.
    [numberToChinese] has the guard and returns the empty string. *)
Theorem priceUppercase_NaN_is_not_empty :
  toString nan = "NaN"%string
  /\ Amount.priceUppercase nan = "undefined佰undefined拾undefined元整"%string
  /\ numberToChinese (OfNumber nan) = Some ""%string
  /\ numberToChinese (OfString "12a") = Some ""%string.
Proof. repeat (split; [vm_compute; reflexivity|]). vm_compute; reflexivity. Qed.

(** ** The sign-flip identity *)

Lemma placesOf_minus (s : string) : placesOf (String "-" s) = placesOf s.
Proof.
  unfold placesOf, indexOf, split.
  rewrite !StringFacts.indexOfFrom_absent by lia.
  change (occurs "." (String "-" s)) with (occurs "." s).
  change (splitAux "." (String "-" s) 0 "") with (splitAux "." s 0 "-").
  rewrite StringFacts.splitAux_cur.
  destruct (splitAux "." s 0 "") as [|hd tl]; reflexivity.
Qed.

Lemma getDecimalPlaces_opp (num : number) :
  getDecimalPlaces (- num) = getDecimalPlaces num.
Proof.
  unfold getDecimalPlaces, toString. rewrite opp_spec.
  destruct (Prim2SF num) as [s | [|] | | [|] m e]; cbn [SFopp negb];
    try reflexivity.
  - symmetry. apply placesOf_minus.
  - apply placesOf_minus.
Qed.

(** C8 (as amended).  Without the [decimal] argument, [addition(a, b)] is
    [subtraction(a, -b)] whenever [b] times the scale is not halfway
    between two integers, where [Math.round] takes [b] and [-b] to
    integers that are not opposite. *)
Theorem addition_is_subtraction_of_opposite (a b : number) :
  isHalfInteger (b * pow10 (Nat.max (getDecimalPlaces a) (getDecimalPlaces b))) = false ->
  addition a b None = subtraction a (- b) None.
Proof.
  intros Hhalf. unfold addition, subtraction, roundDecimal.
  rewrite getDecimalPlaces_opp.
  rewrite FloatFacts.mul_opp_l, (FloatFacts.Math_round_opp _ Hhalf).
  now rewrite FloatFacts.sub_opp_r.
Qed.

Lemma addition_is_subtraction_of_opposite_witness :
  addition 0.1 0.2 None = 0.3 /\ subtraction 0.1 (PrimFloat.opp 0.2) None = 0.3.
Proof.
  pose proof (addition_is_subtraction_of_opposite 0.1 0.2 eq_refl) as Heq.
  split; [|rewrite <- Heq]; vm_compute; reflexivity.
Defined.

End MathFacts.

(* ================================================================== *)
(** * Facts about the real trigonometric functions *)
(* ================================================================== *)

Module TrigFacts.
#[local] Open Scope R_scope.

Lemma Rabs_bound (a b : R) : Rabs a <= b -> - b <= a <= b.
Proof. unfold Rabs. destruct (Rcase_abs a); lra. Qed.

Lemma Rabs_sin_le (t : R) : Rabs (sin t) <= Rabs t.
Proof.
  assert (Hpos : forall u, 0 < u -> Rabs (sin u) <= u).
  { intros u Hu. apply Rabs_le. split.
    - destruct (Rle_lt_dec 1 u) as [H1 | H1].
      + pose proof (SIN_bound u). lra.
      + assert (0 < sin u) by (apply sin_gt_0; [lra | pose proof PI2_3_2; lra]). lra.
    - left. now apply sin_lt_x. }
  destruct (Rtotal_order t 0) as [Hneg | [-> | Hp]].
  - rewrite <- (Ropp_involutive t) at 1. rewrite sin_neg, Rabs_Ropp.
    rewrite (Rabs_left t) by assumption. apply Hpos. lra.
  - rewrite sin_0, Rabs_R0. lra.
  - rewrite (Rabs_right t) by lra. now apply Hpos.
Qed.

Lemma sin_diff_le (u v : R) : Rabs (sin u - sin v) <= Rabs (u - v).
Proof.
  rewrite form4, !Rabs_mult.
  pose proof (COS_bound ((u + v) / 2)) as Hc.
  assert (Hcos : Rabs (cos ((u + v) / 2)) <= 1) by (apply Rabs_le; lra).
  pose proof (Rabs_sin_le ((u - v) / 2)) as Hs.
  pose proof (Rabs_pos (sin ((u - v) / 2))).
  pose proof (Rabs_pos (cos ((u + v) / 2))).
  replace (Rabs ((u - v) / 2)) with (Rabs (u - v) / 2) in Hs
    by (unfold Rdiv; rewrite Rabs_mult, (Rabs_right (/ 2)); lra).
  rewrite (Rabs_right 2) by lra. nra.
Qed.

Lemma cos_diff_le (u v : R) : Rabs (cos u - cos v) <= Rabs (u - v).
Proof.
  rewrite form2, !Rabs_mult.
  pose proof (SIN_bound ((u + v) / 2)) as Hc.
  assert (Hsin : Rabs (sin ((u + v) / 2)) <= 1) by (apply Rabs_le; lra).
  pose proof (Rabs_sin_le ((u - v) / 2)) as Hs.
  pose proof (Rabs_pos (sin ((u - v) / 2))).
  pose proof (Rabs_pos (sin ((u + v) / 2))).
  replace (Rabs ((u - v) / 2)) with (Rabs (u - v) / 2) in Hs
    by (unfold Rdiv; rewrite Rabs_mult, (Rabs_right (/ 2)); lra).
  rewrite (Rabs_left (-2)) by lra. nra.
Qed.

(** Polar coordinates of a point of the right half-plane. *)
Lemma polar_of_point (x y : R) :
  0 < x ->
  sqrt (x * x + y * y) * cos (atan (y / x)) = x
  /\ sqrt (x * x + y * y) * sin (atan (y / x)) = y.
Proof.
  intros Hx. rewrite cos_atan, sin_atan.
  assert (Hs : 0 < 1 + (y / x)²) by (unfold Rsqr; nra).
  assert (Hr : sqrt (x * x + y * y) = x * sqrt (1 + (y / x)²)).
  { replace (x * x + y * y) with (x * x * (1 + (y / x)²))
      by (unfold Rsqr; field; lra).
    rewrite sqrt_mult by nra. now rewrite sqrt_square by lra. }
  assert (Hq : 0 < sqrt (1 + (y / x)²)) by now apply sqrt_lt_R0.
  rewrite Hr. split; field; lra.
Qed.

(** The point with polar coordinates [z > 0] and [theta] in the right
    half-plane gives them back. *)
Lemma point_of_polar (z theta : R) :
  0 < z -> - (PI / 2) < theta < PI / 2 ->
  sqrt (z * cos theta * (z * cos theta) + z * sin theta * (z * sin theta)) = z
  /\ atan (z * sin theta / (z * cos theta)) = theta
  /\ 0 < z * cos theta.
Proof.
  intros Hz Ht.
  assert (Hc : 0 < cos theta) by (apply cos_gt_0; lra).
  split; [|split].
  - replace (z * cos theta * (z * cos theta) + z * sin theta * (z * sin theta))
      with (z * z * ((sin theta)² + (cos theta)²)) by (unfold Rsqr; ring).
    rewrite sin2_cos2, Rmult_1_r. apply sqrt_square. lra.
  - replace (z * sin theta / (z * cos theta)) with (tan theta)
      by (unfold tan; field; lra).
    now apply atan_tan.
  - nra.
Qed.

(** Moving a point in polar coordinates moves each Cartesian coordinate by
    at most the change of radius plus radius times the change of angle. *)
Lemma polar_cos_diff (z z' t t' : R) :
  Rabs (z' * cos t' - z * cos t) <= Rabs (z' - z) + Rabs z * Rabs (t' - t).
Proof.
  replace (z' * cos t' - z * cos t)
    with ((z' - z) * cos t' + z * (cos t' - cos t)) by ring.
  eapply Rle_trans; [apply Rabs_triang|]. rewrite !Rabs_mult.
  pose proof (COS_bound t') as Hc.
  assert (Hcos : Rabs (cos t') <= 1) by (apply Rabs_le; lra).
  pose proof (cos_diff_le t' t) as Hd.
  pose proof (Rabs_pos (z' - z)). pose proof (Rabs_pos z).
  pose proof (Rabs_pos (cos t')). nra.
Qed.

Lemma polar_sin_diff (z z' t t' : R) :
  Rabs (z' * sin t' - z * sin t) <= Rabs (z' - z) + Rabs z * Rabs (t' - t).
Proof.
  replace (z' * sin t' - z * sin t)
    with ((z' - z) * sin t' + z * (sin t' - sin t)) by ring.
  eapply Rle_trans; [apply Rabs_triang|]. rewrite !Rabs_mult.
  pose proof (SIN_bound t') as Hc.
  assert (Hsin : Rabs (sin t') <= 1) by (apply Rabs_le; lra).
  pose proof (sin_diff_le t' t) as Hd.
  pose proof (Rabs_pos (z' - z)). pose proof (Rabs_pos z).
  pose proof (Rabs_pos (sin t')). nra.
Qed.

Lemma sin_scaled_diff (c u v : R) :
  0 <= c -> Rabs (sin (u * c) - sin (v * c)) <= c * Rabs (u - v).
Proof.
  intros Hc. eapply Rle_trans; [apply sin_diff_le|].
  replace (u * c - v * c) with (c * (u - v)) by ring.
  rewrite Rabs_mult, (Rabs_right c) by lra. lra.
Qed.

Lemma cos_scaled_diff (c u v : R) :
  0 <= c -> Rabs (cos (u * c) - cos (v * c)) <= c * Rabs (u - v).
Proof.
  intros Hc. eapply Rle_trans; [apply cos_diff_le|].
  replace (u * c - v * c) with (c * (u - v)) by ring.
  rewrite Rabs_mult, (Rabs_right c) by lra. lra.
Qed.

Lemma PI_gt_3 : 3 < PI.
Proof. pose proof PI2_3_2. lra. Qed.

Lemma atan_unit_range (t : R) : 0 < t < 1 -> 0 < atan t < PI / 4.
Proof.
  intros [H0 H1]. split.
  - rewrite <- atan_0. now apply atan_increasing.
  - rewrite <- atan_1. now apply atan_increasing.
Qed.

Lemma sin_cubic_lower (t : R) : 0 <= t <= 1 -> t - t ^ 3 / 6 <= sin t.
Proof.
  intros [H0 H1].
  assert (Hpi : t <= PI) by (pose proof PI_gt_3; lra).
  destruct (SIN t H0 Hpi) as [Hlb _].
  unfold sin_lb, sin_approx, sin_term in Hlb. cbn in Hlb.
  assert (H5 : 0 <= t ^ 5) by (apply pow_le; assumption).
  assert (H27 : t ^ 7 <= t ^ 5).
  { replace (t ^ 7) with (t ^ 5 * (t * t)) by ring.
    replace (t ^ 5) with (t ^ 5 * 1) at 2 by ring.
    apply Rmult_le_compat_l; [assumption | nra]. }
  cbn in H5, H27. lra.
Qed.

Lemma cos_quadratic_lower (t : R) : 1 - t * t / 2 <= cos t.
Proof.
  replace (cos t) with (cos (2 * (t / 2))) by (f_equal; field).
  rewrite cos_2a_sin.
  pose proof (Rabs_sin_le (t / 2)) as Hs.
  assert (Hsq : sin (t / 2) * sin (t / 2) <= t / 2 * (t / 2)).
  { pose proof (Rabs_pos (sin (t / 2))).
    replace (sin (t / 2) * sin (t / 2)) with (Rabs (sin (t / 2)) * Rabs (sin (t / 2)))
      by (rewrite <- Rabs_mult; apply Rabs_right; nra).
    replace (t / 2 * (t / 2)) with (Rabs (t / 2) * Rabs (t / 2))
      by (rewrite <- Rabs_mult; apply Rabs_right; nra).
    nra. }
  lra.
Qed.

End TrigFacts.
(* ================================================================== *)
(** * Properties of coordtransform.ts *)
(* ================================================================== *)

Module CoordFacts.
Import Coord.

Section AnyArithmetic.
Context {num : Type} `{Arith num}.
#[local] Open Scope num_scope.

(** C6.  Inside the box [gcj02towgs84] reflects the forward-corrected
    point of [wgs84togcj02] through the input, [lng * 2 - g_lng] and
    [lat * 2 - g_lat]; outside it returns the input.  This holds in every
    reading of the arithmetic, binary64 included. *)
Theorem gcj02towgs84_reflects_forward (lng lat : num) :
  (out_of_china lng lat = false ->
     gcj02towgs84 lng lat =
       (lng * lit 2 0 - fst (wgs84togcj02 lng lat),
        lat * lit 2 0 - snd (wgs84togcj02 lng lat)))
  /\ (out_of_china lng lat = true -> gcj02towgs84 lng lat = (lng, lat)).
Proof.
  unfold gcj02towgs84, wgs84togcj02.
  split; intros Hout; rewrite Hout; reflexivity.
Qed.

End AnyArithmetic.

(** The literals of the exact reading as numerals, and its comparisons
    decided by [lra]. *)
Ltac eval_lits :=
  cbn [lit gtb ltb add sub mul div exact];
  repeat match goal with
         | |- context [(10 ^ Z.of_nat ?k)%Z] =>
             let v := eval vm_compute in (10 ^ Z.of_nat k)%Z in
             change (10 ^ Z.of_nat k)%Z with v
         end.

Ltac decide_box :=
  unfold out_of_china; eval_lits;
  repeat match goal with
         | |- context [Rlt_dec ?a ?b] => destruct (Rlt_dec a b); try lra
         end;
  try reflexivity.

Lemma out_of_china_beijing :
  out_of_china (116397128 / 1000000)%R (39916527 / 1000000)%R = false.
Proof. decide_box. Qed.

Lemma out_of_china_origin : out_of_china 0%R 0%R = true.
Proof. decide_box. Qed.

Lemma gcj02towgs84_reflects_forward_witness :
  let lng := (116397128 / 1000000)%R in
  let lat := (39916527 / 1000000)%R in
  gcj02towgs84 lng lat =
    ((lng * lit 2 0 - fst (wgs84togcj02 lng lat))%num,
     (lat * lit 2 0 - snd (wgs84togcj02 lng lat))%num)
  /\ gcj02towgs84 0%R 0%R = (0%R, 0%R).
Proof.
  intros lng lat. split.
  - exact (proj1 (gcj02towgs84_reflects_forward lng lat) out_of_china_beijing).
  - exact (proj2 (gcj02towgs84_reflects_forward 0%R 0%R) out_of_china_origin).
Defined.

(** ** The exact reading: the round trip through GCJ-02 *)

#[local] Open Scope R_scope.
#[local] Abbreviation pi := Rtrigo1.PI.

Lemma Ratan2_right (y x : R) : 0 < x -> Ratan2 y x = atan (y / x).
Proof.
  intros Hx. unfold Ratan2. destruct (Rlt_dec 0 x); [reflexivity | contradiction].
Qed.

Lemma roundTrip_polar (x y : R) :
  0 < x -> 0 < zOut x y -> - (pi / 2) < thetaOut x y < pi / 2 ->
  roundTrip (x + offsetLng) (y + offsetLat) =
    (zBack x y * Rtrigo_def.cos (thetaBack x y) + offsetLng,
     zBack x y * Rtrigo_def.sin (thetaBack x y) + offsetLat).
Proof.
  intros Hx Hz Ht.
  unfold roundTrip, bd09togcj02, gcj02tobd09.
  cbn [add sub mul div sqrt sin cos atan2 exact].
  fold offsetLng offsetLat radiusTerm angleTerm.
  replace (x + offsetLng - offsetLng) with x by ring.
  replace (y + offsetLat - offsetLat) with y by ring.
  rewrite (Ratan2_right y x Hx).
  fold (zOut x y) (thetaOut x y).
  destruct (TrigFacts.point_of_polar _ _ Hz Ht) as (Hr & Ha & Hpos).
  rewrite Hr, (Ratan2_right _ _ Hpos), Ha.
  reflexivity.
Qed.

Lemma constants :
  offsetLng = 65 / 10000 /\ offsetLat = 6 / 1000
  /\ radiusTerm = 2 / 100000 /\ angleTerm = 3 / 1000000
  /\ 52 < (X_PI : R) < 53.
Proof.
  unfold offsetLng, offsetLat, radiusTerm, angleTerm, X_PI. eval_lits.
  repeat split; lra.
Qed.

Lemma out_of_china_false (lng lat : R) :
  out_of_china lng lat = false ->
  7366 / 100 < lng < 13505 / 100 /\ 386 / 100 < lat < 5355 / 100.
Proof.
  unfold out_of_china. eval_lits.
  repeat match goal with
         | |- context [Rlt_dec ?a ?b] => destruct (Rlt_dec a b)
         end; cbn; intros H; try discriminate; lra.
Qed.

(** What the two transforms compute for a point of the box. *)
Lemma polar_in_box (x y : R) :
  73 < x < 136 -> 3 < y < 54 ->
  let r := R_sqrt.sqrt (x * x + y * y) in
  let phi := atan (y / x) in
  x = r * Rtrigo_def.cos phi /\ y = r * Rtrigo_def.sin phi
  /\ 73 < r < 147 /\ 0 < phi < pi / 4
  /\ Rabs (zOut x y - r) <= radiusTerm
  /\ Rabs (thetaOut x y - phi) <= angleTerm.
Proof.
  intros Hx Hy r phi.
  destruct constants as (_ & _ & Ha & Hb & _).
  destruct (TrigFacts.polar_of_point x y) as [Hcos Hsin]; [lra|].
  fold r phi in Hcos, Hsin.
  assert (Hr : 73 < r < 147).
  { split.
    - apply Rlt_le_trans with x; [lra|].
      rewrite <- (sqrt_square x) at 1 by lra. apply sqrt_le_1_alt. nra.
    - rewrite <- (sqrt_square 147) by lra. apply sqrt_lt_1_alt. nra. }
  assert (Hphi : 0 < phi < pi / 4).
  { apply TrigFacts.atan_unit_range. split.
    - apply Rdiv_lt_0_compat; lra.
    - apply Rmult_lt_reg_r with x; [lra|]. unfold Rdiv.
      rewrite Rmult_assoc, Rinv_l by lra. lra. }
  repeat split; try lra.
  - unfold zOut. fold r.
    replace (r - radiusTerm * Rtrigo_def.sin (y * X_PI) - r)
      with (- (radiusTerm * Rtrigo_def.sin (y * X_PI))) by ring.
    rewrite Rabs_Ropp, Rabs_mult, (Rabs_right radiusTerm) by lra.
    pose proof (SIN_bound (y * X_PI)).
    assert (Rabs (Rtrigo_def.sin (y * X_PI)) <= 1) by (apply Rabs_le; lra).
    nra.
  - unfold thetaOut. fold phi.
    replace (phi - angleTerm * Rtrigo_def.cos (x * X_PI) - phi)
      with (- (angleTerm * Rtrigo_def.cos (x * X_PI))) by ring.
    rewrite Rabs_Ropp, Rabs_mult, (Rabs_right angleTerm) by lra.
    pose proof (COS_bound (x * X_PI)).
    assert (Rabs (Rtrigo_def.cos (x * X_PI)) <= 1) by (apply Rabs_le; lra).
    nra.
Qed.

(** The radius and the angle after the round trip, against the polar
    coordinates of the point. *)
Lemma back_in_box (x y : R) :
  73 < x < 136 -> 3 < y < 54 ->
  let r := R_sqrt.sqrt (x * x + y * y) in
  let phi := atan (y / x) in
  0 < zOut x y /\ - (pi / 2) < thetaOut x y < pi / 2
  /\ Rabs (zBack x y - r) <= 5 / 10000000
  /\ Rabs (thetaBack x y - phi) <= 8 / 100000000.
Proof.
  intros Hx Hy r phi.
  destruct constants as (_ & _ & Ha & Hb & Hc).
  destruct (polar_in_box x y Hx Hy) as (Hxr & Hyr & Hr & Hphi & Hz & Ht).
  fold r phi in Hxr, Hyr, Hr, Hphi, Hz, Ht.
  pose proof TrigFacts.PI_gt_3 as Hpi.
  apply TrigFacts.Rabs_bound in Hz. apply TrigFacts.Rabs_bound in Ht.
  assert (Hzpos : 0 < zOut x y) by lra.
  assert (Htr : - (pi / 2) < thetaOut x y < pi / 2) by lra.
  split; [assumption|]. split; [assumption|].
  set (E := radiusTerm + 147 * angleTerm).
  assert (HX : Rabs (zOut x y * Rtrigo_def.cos (thetaOut x y) - x) <= E).
  { replace (zOut x y * Rtrigo_def.cos (thetaOut x y) - x)
      with (zOut x y * Rtrigo_def.cos (thetaOut x y) - r * Rtrigo_def.cos phi)
      by (rewrite <- Hxr; reflexivity).
    eapply Rle_trans; [apply TrigFacts.polar_cos_diff|].
    rewrite (Rabs_right r) by lra.
    assert (Rabs (zOut x y - r) <= radiusTerm) by (apply Rabs_le; lra).
    assert (Rabs (thetaOut x y - phi) <= angleTerm) by (apply Rabs_le; lra).
    pose proof (Rabs_pos (thetaOut x y - phi)). unfold E. nra. }
  assert (HY : Rabs (zOut x y * Rtrigo_def.sin (thetaOut x y) - y) <= E).
  { replace (zOut x y * Rtrigo_def.sin (thetaOut x y) - y)
      with (zOut x y * Rtrigo_def.sin (thetaOut x y) - r * Rtrigo_def.sin phi)
      by (rewrite <- Hyr; reflexivity).
    eapply Rle_trans; [apply TrigFacts.polar_sin_diff|].
    rewrite (Rabs_right r) by lra.
    assert (Rabs (zOut x y - r) <= radiusTerm) by (apply Rabs_le; lra).
    assert (Rabs (thetaOut x y - phi) <= angleTerm) by (apply Rabs_le; lra).
    pose proof (Rabs_pos (thetaOut x y - phi)). unfold E. nra. }
  assert (HE : E <= 47 / 100000) by (unfold E; lra).
  assert (Hc0 : 0 <= (X_PI : R)) by lra.
  split.
  - unfold zBack.
    replace (zOut x y
             + radiusTerm * Rtrigo_def.sin (zOut x y * Rtrigo_def.sin (thetaOut x y) * X_PI)
             - r)
      with (radiusTerm * (Rtrigo_def.sin (zOut x y * Rtrigo_def.sin (thetaOut x y) * X_PI)
                          - Rtrigo_def.sin (y * X_PI)))
      by (unfold zOut; fold r; ring).
    rewrite Rabs_mult, (Rabs_right radiusTerm) by lra.
    pose proof (TrigFacts.sin_scaled_diff X_PI
                  (zOut x y * Rtrigo_def.sin (thetaOut x y)) y Hc0) as Hs.
    pose proof (Rabs_pos (zOut x y * Rtrigo_def.sin (thetaOut x y) - y)).
    nra.
  - unfold thetaBack.
    replace (thetaOut x y
             + angleTerm * Rtrigo_def.cos (zOut x y * Rtrigo_def.cos (thetaOut x y) * X_PI)
             - phi)
      with (angleTerm * (Rtrigo_def.cos (zOut x y * Rtrigo_def.cos (thetaOut x y) * X_PI)
                         - Rtrigo_def.cos (x * X_PI)))
      by (unfold thetaOut; fold phi; ring).
    rewrite Rabs_mult, (Rabs_right angleTerm) by lra.
    pose proof (TrigFacts.cos_scaled_diff X_PI
                  (zOut x y * Rtrigo_def.cos (thetaOut x y)) x Hc0) as Hs.
    pose proof (Rabs_pos (zOut x y * Rtrigo_def.cos (thetaOut x y) - x)).
    nra.
Qed.

(** X25.  In exact arithmetic the round trip through GCJ-02 gives back
    every point of the box up to 0.00002 degrees in each coordinate. *)
Theorem roundTrip_recovers_approximately (lng lat : R) :
  out_of_china lng lat = false -> recoversWithin (2 / 100000) lng lat.
Proof.
  intros Hin. apply out_of_china_false in Hin. destruct Hin as [Hlng Hlat].
  destruct constants as (Hol & Hot & _).
  set (x := lng - offsetLng). set (y := lat - offsetLat).
  assert (Hx : 73 < x < 136) by (unfold x; lra).
  assert (Hy : 3 < y < 54) by (unfold y; lra).
  destruct (polar_in_box x y Hx Hy) as (Hxr & Hyr & Hr & _).
  destruct (back_in_box x y Hx Hy) as (Hz & Ht & Hzb & Htb).
  unfold recoversWithin.
  replace lng with (x + offsetLng) by (unfold x; ring).
  replace lat with (y + offsetLat) by (unfold y; ring).
  rewrite roundTrip_polar by (try assumption; lra). cbn [fst snd].
  set (r := R_sqrt.sqrt (x * x + y * y)) in *.
  set (phi := atan (y / x)) in *.
  pose proof (Rabs_pos (thetaBack x y - phi)).
  split.
  - replace (zBack x y * Rtrigo_def.cos (thetaBack x y) + offsetLng - (x + offsetLng))
      with (zBack x y * Rtrigo_def.cos (thetaBack x y) - r * Rtrigo_def.cos phi)
      by (rewrite <- Hxr; ring).
    eapply Rle_trans; [apply TrigFacts.polar_cos_diff|].
    rewrite (Rabs_right r) by lra. nra.
  - replace (zBack x y * Rtrigo_def.sin (thetaBack x y) + offsetLat - (y + offsetLat))
      with (zBack x y * Rtrigo_def.sin (thetaBack x y) - r * Rtrigo_def.sin phi)
      by (rewrite <- Hyr; ring).
    eapply Rle_trans; [apply TrigFacts.polar_sin_diff|].
    rewrite (Rabs_right r) by lra. nra.
Qed.

Lemma roundTrip_recovers_approximately_witness :
  recoversWithin (2 / 100000) (116397128 / 1000000) (39916527 / 1000000).
Proof. exact (roundTrip_recovers_approximately _ _ out_of_china_beijing). Defined.

(** ** A point where the round trip is off *)

Lemma probe_in_box :
  84 < probeX < 116 /\ 16 < probeY < 24
  /\ probeX * X_PI = 2 * INR 750 * pi /\ probeY * X_PI = 2 * INR 150 * pi
  /\ probeY / probeX = 1 / 5.
Proof.
  destruct constants as (_ & _ & _ & _ & Hc).
  pose proof TrigFacts.PI_gt_3 as Hpi. pose proof PI_4 as Hpi4.
  assert (H750 : INR 750 = 750) by (rewrite INR_IZR_INZ; reflexivity).
  assert (H150 : INR 150 = 150) by (rewrite INR_IZR_INZ; reflexivity).
  unfold probeX, probeY. rewrite H750, H150.
  assert (Hinv : 1 / 53 < / (X_PI : R) < 1 / 52).
  { split.
    - apply Rmult_lt_reg_r with (X_PI : R); [lra|]. rewrite Rinv_l by lra. lra.
    - apply Rmult_lt_reg_r with (X_PI : R); [lra|]. rewrite Rinv_l by lra. lra. }
  unfold Rdiv at 1 2 3 4.
  repeat split; try nra; field; lra.
Qed.

Lemma probe_out :
  zOut probeX probeY = R_sqrt.sqrt (probeX * probeX + probeY * probeY)
  /\ thetaOut probeX probeY = atan (probeY / probeX) - angleTerm.
Proof.
  destruct probe_in_box as (_ & _ & Hxc & Hyc & _).
  unfold zOut, thetaOut. rewrite Hxc, Hyc.
  replace (2 * INR 150 * pi) with (0 + 2 * INR 150 * pi) by ring.
  replace (2 * INR 750 * pi) with (0 + 2 * INR 750 * pi) by ring.
  rewrite sin_period, cos_period, sin_0, cos_0. split; ring.
Qed.

(** The phase by which the correction of the radius is evaluated off its
    place on the way back. *)
Lemma probe_phase :
  let delta := 300 * pi * (1 - Rtrigo_def.cos angleTerm)
               + 1500 * pi * Rtrigo_def.sin angleTerm in
  zOut probeX probeY * Rtrigo_def.sin (thetaOut probeX probeY) * X_PI
    = - delta + 2 * INR 150 * pi
  /\ 134 / 10000 <= delta <= 19 / 1000.
Proof.
  intros delta.
  destruct constants as (_ & _ & _ & Hb & Hc).
  destruct probe_in_box as (Hx & Hy & Hxc & Hyc & _).
  destruct probe_out as [Hz Ht].
  destruct (TrigFacts.polar_of_point probeX probeY) as [Hcos Hsin]; [lra|].
  assert (H750 : INR 750 = 750) by (rewrite INR_IZR_INZ; reflexivity).
  assert (H150 : INR 150 = 150) by (rewrite INR_IZR_INZ; reflexivity).
  rewrite H750 in Hxc. rewrite H150 in Hyc. rewrite H150.
  split.
  - rewrite Hz, Ht, sin_minus.
    set (r := R_sqrt.sqrt (probeX * probeX + probeY * probeY)) in *.
    set (phi := atan (probeY / probeX)) in *.
    replace (r * (Rtrigo_def.sin phi * Rtrigo_def.cos angleTerm
                  - Rtrigo_def.cos phi * Rtrigo_def.sin angleTerm) * X_PI)
      with (r * Rtrigo_def.sin phi * X_PI * Rtrigo_def.cos angleTerm
            - r * Rtrigo_def.cos phi * X_PI * Rtrigo_def.sin angleTerm) by ring.
    rewrite Hcos, Hsin, Hxc, Hyc. unfold delta. ring.
  - pose proof TrigFacts.PI_gt_3 as Hpi. pose proof PI_4 as Hpi4.
    pose proof (TrigFacts.sin_cubic_lower angleTerm ltac:(lra)) as Hlow.
    pose proof (sin_lt_x angleTerm ltac:(lra)) as Hup.
    pose proof (TrigFacts.cos_quadratic_lower angleTerm) as Hcl.
    pose proof (COS_bound angleTerm) as Hcb.
    unfold delta. rewrite Hb in *.
    set (s := Rtrigo_def.sin (3 / 1000000)) in *.
    set (k := Rtrigo_def.cos (3 / 1000000)) in *.
    assert (Hs : 2999 / 1000000000 <= s <= 3 / 1000000) by (cbn in Hlow; lra).
    assert (Hk : 0 <= 1 - k <= 1 / 100000000000) by lra.
    split; nra.
Qed.

(** X26.  In exact arithmetic the two transforms are not inverse to each
    other.  At the point of the box whose offset BD-09 coordinates are
    [1500 pi / X_PI] and [300 pi / X_PI] the corrections of the way out
    are 0 for the radius and the full 0.000003 for the angle, and the way
    back evaluates them at the moved point: the round trip misses the
    point by more than 0.0000001 degrees in one of the two coordinates. *)
Theorem roundTrip_is_not_exact :
  out_of_china (probeX + offsetLng) (probeY + offsetLat) = false
  /\ ~ recoversWithin (1 / 10000000) (probeX + offsetLng) (probeY + offsetLat).
Proof.
  destruct constants as (Hol & Hot & Ha & Hb & Hc).
  destruct probe_in_box as (Hx & Hy & Hxc & Hyc & Hratio).
  split.
  { unfold out_of_china. eval_lits. fold offsetLng offsetLat.
    repeat match goal with
           | |- context [Rlt_dec ?a ?b] => destruct (Rlt_dec a b); try lra
           end;
    try reflexivity. }
  assert (Hx' : 73 < probeX < 136) by lra.
  assert (Hy' : 3 < probeY < 54) by lra.
  destruct (back_in_box probeX probeY Hx' Hy') as (Hz & Ht & _ & _).
  destruct (polar_in_box probeX probeY Hx' Hy') as (Hxr & Hyr & Hr & _).
  destruct probe_phase as [Hphase Hdelta].
  unfold recoversWithin.
  rewrite roundTrip_polar by (try assumption; lra). cbn [fst snd].
  set (r := R_sqrt.sqrt (probeX * probeX + probeY * probeY)) in *.
  set (phi := atan (probeY / probeX)) in *.
  set (delta := 300 * pi * (1 - Rtrigo_def.cos angleTerm)
                + 1500 * pi * Rtrigo_def.sin angleTerm) in *.
  (* the radius on the way back *)
  assert (Hzb : zBack probeX probeY = r - radiusTerm * Rtrigo_def.sin delta).
  { unfold zBack. rewrite Hphase, sin_period, sin_neg.
    destruct probe_out as [Hzo _]. fold r in Hzo. rewrite Hzo. ring. }
  assert (Hsin : 13 / 1000 <= Rtrigo_def.sin delta).
  { pose proof (TrigFacts.sin_cubic_lower delta ltac:(lra)) as Hlow.
    cbn in Hlow. nra. }
  pose proof (SIN_bound delta) as Hsb.
  set (zb := zBack probeX probeY) in *.
  set (tb := thetaBack probeX probeY) in *.
  intros [Hlng Hlat].
  replace (zb * Rtrigo_def.cos tb + offsetLng - (probeX + offsetLng))
    with (zb * Rtrigo_def.cos tb - probeX) in Hlng by ring.
  replace (zb * Rtrigo_def.sin tb + offsetLat - (probeY + offsetLat))
    with (zb * Rtrigo_def.sin tb - probeY) in Hlat by ring.
  apply TrigFacts.Rabs_bound in Hlng. apply TrigFacts.Rabs_bound in Hlat.
  (* the distance between the two points is at least the gap of the radii *)
  assert (Hdist : (zb - r) * (zb - r)
                  <= (zb * Rtrigo_def.cos tb - probeX) * (zb * Rtrigo_def.cos tb - probeX)
                     + (zb * Rtrigo_def.sin tb - probeY) * (zb * Rtrigo_def.sin tb - probeY)).
  { rewrite Hxr, Hyr at 1 2.
    pose proof (sin2_cos2 tb) as H1. pose proof (sin2_cos2 phi) as H2.
    pose proof (cos_minus tb phi) as Hcm.
    pose proof (COS_bound (tb - phi)) as Hcb.
    unfold Rsqr in H1, H2.
    assert (Hzr : 0 <= zb * r) by (rewrite Hzb; nra).
    replace ((zb * Rtrigo_def.cos tb - r * Rtrigo_def.cos phi)
             * (zb * Rtrigo_def.cos tb - r * Rtrigo_def.cos phi)
             + (zb * Rtrigo_def.sin tb - r * Rtrigo_def.sin phi)
               * (zb * Rtrigo_def.sin tb - r * Rtrigo_def.sin phi))
      with (zb * zb * (Rtrigo_def.sin tb * Rtrigo_def.sin tb
                       + Rtrigo_def.cos tb * Rtrigo_def.cos tb)
            + r * r * (Rtrigo_def.sin phi * Rtrigo_def.sin phi
                       + Rtrigo_def.cos phi * Rtrigo_def.cos phi)
            - 2 * (zb * r) * Rtrigo_def.cos (tb - phi))
      by (rewrite Hcm; ring).
    rewrite H1, H2. nra. }
  assert (Hgap : 26 / 100000000 <= r - zb) by (rewrite Hzb; nra).
  nra.
Qed.

End CoordFacts.

(* ================================================================== *)
(** * Further properties *)
(* ================================================================== *)

Module ValidFacts.
Import JS AmountFormat.

Lemma digits2_pos_size (m : positive) : digits2_pos m = Pos.size m.
Proof. induction m; cbn; congruence. Qed.

(** A binary64 mantissa has at most 53 bits. *)
Lemma mantissa_bound (x : number) (s : bool) (m : positive) (e : Z) :
  Prim2SF x = S754_finite s m e -> Z.pos m < 2 ^ 53 /\ -1074 <= e <= 971.
Proof.
  intros Hx. pose proof (Prim2SF_valid x) as Hv. rewrite Hx in Hv.
  unfold SpecFloat.valid_binary, SpecFloat.bounded, SpecFloat.canonical_mantissa,
    SpecFloat.fexp in Hv.
  apply andb_prop in Hv. destruct Hv as [Hc He].
  apply Z.eqb_eq in Hc. apply Z.leb_le in He.
  rewrite digits2_pos_size in Hc.
  change (SpecFloat.emin prec emax) with (-1074) in Hc.
  change (emax - prec) with 971 in He. change prec with 53 in Hc.
  pose proof (Pos.size_gt m) as Hsz.
  assert (Hle : Z.pos (Pos.size m) <= 53) by lia.
  split; [|lia].
  apply Z.lt_le_trans with (Z.pos (2 ^ Pos.size m)); [exact Hsz|].
  rewrite Pos2Z.inj_pow. apply Z.pow_le_mono_r; lia.
Qed.

Lemma below_limit (x : number) :
  PrimFloat.ltb (PrimFloat.abs x) 1e21 = true ->
  match Prim2SF x with
  | S754_finite s m e => integerPart (Z.pos m) e < 10 ^ 21
  | S754_zero _ => True
  | _ => False
  end.
Proof.
  rewrite ltb_spec, abs_spec.
  replace (Prim2SF 1e21) with (S754_finite false 7629394531250000 17)
    by (vm_compute; reflexivity).
  destruct (Prim2SF x) as [z| i | |s m e] eqn:Hx; cbn [SFabs];
    try trivial; try discriminate.
  destruct (mantissa_bound x s m e Hx) as [Hm He].
  unfold SFltb, SFcompare, integerPart.
  change (10 ^ 21) with 1000000000000000000000.
  destruct (Z.compare_spec e 17) as [-> | Hlt | Hgt]; try discriminate.
  - intros Hcmp.
    assert (Hc : (m < 7629394531250000)%positive).
    { unfold Pos.lt, Pos.compare.
      destruct (Pos.compare_cont Eq m 7629394531250000); (reflexivity || discriminate). }
    apply Pos2Z.pos_lt_pos in Hc.
    change (0 <=? 17) with true. cbv iota. change (2 ^ 17) with 131072.
    clear - Hc. lia.
  - intros _. destruct (Z.leb_spec 0 e).
    + assert (H16 : 2 ^ e <= 2 ^ 16) by (apply Z.pow_le_mono_r; lia).
      assert (0 < 2 ^ e) by (apply Z.pow_pos_nonneg; lia).
      change (2 ^ 16) with 65536 in H16. change (2 ^ 53) with 9007199254740992 in Hm.
      nia.
    + assert (0 < 2 ^ (- e)) by (apply Z.pow_pos_nonneg; lia).
      apply Z.le_lt_trans with (Z.pos m).
      * apply Z.div_le_upper_bound; [assumption | nia].
      * change (2 ^ 53) with 9007199254740992 in Hm. lia.
Qed.

Lemma lt_zero_sign (x : number) (s : bool) (m : positive) (e : Z) :
  Prim2SF x = S754_finite s m e -> lt x 0%float = s.
Proof.
  intros Hx. unfold lt. rewrite ltb_spec, Hx.
  replace (Prim2SF 0%float) with (S754_zero false) by (vm_compute; reflexivity).
  destruct s; reflexivity.
Qed.

Lemma lt_zero_zero (x : number) (s : bool) :
  Prim2SF x = S754_zero s -> lt x 0%float = false.
Proof.
  intros Hx. unfold lt. rewrite ltb_spec, Hx.
  replace (Prim2SF 0%float) with (S754_zero false) by (vm_compute; reflexivity).
  reflexivity.
Qed.


End ValidFacts.


Module AmountFormatFacts.
Import JS AmountFormat StringFacts ToStringFacts ValidFacts.

Lemma isDigitChar_digitChar (d : Z) : isDigit d -> isDigitChar (digitChar d) = true.
Proof. intros H; digit_cases H; reflexivity. Qed.

Lemma isWordChar_digitChar (d : Z) : isDigit d -> isWordChar (digitChar d) = true.
Proof. intros H; digit_cases H; reflexivity. Qed.

Lemma startsWithDigit_digitString (ds : list Z) :
  Forall isDigit ds -> startsWithDigit (digitString ds) = (0 <? List.length ds)%nat.
Proof.
  destruct 1 as [|d r Hd Hr]; [reflexivity|]. cbn. now apply isDigitChar_digitChar.
Qed.

(** On a run of digits that ends the string, the lookahead holds exactly
    when the run has a positive multiple of three digits. *)
Lemma threeDigitGroups_digitString (ds : list Z) :
  Forall isDigit ds ->
  threeDigitGroups (digitString ds)
  = (0 <? List.length ds)%nat && (List.length ds mod 3 =? 0)%nat.
Proof.
  remember (List.length ds) as n eqn:Hn.
  revert ds Hn. induction n as [n IH] using lt_wf_ind. intros ds Hn Hds.
  destruct ds as [|a [|b [|c rest]]]; subst n; try reflexivity.
  inversion Hds as [|? ? Ha Hds1]; subst.
  inversion Hds1 as [|? ? Hb Hds2]; subst.
  inversion Hds2 as [|? ? Hc Hrest]; subst.
  cbn [digitString threeDigitGroups].
  rewrite !isDigitChar_digitChar by assumption. cbn [andb].
  rewrite startsWithDigit_digitString by assumption.
  rewrite (IH (List.length rest)) by (cbn; try lia; auto).
  cbn [List.length].
  replace (S (S (S (List.length rest)))) with (List.length rest + 1 * 3)%nat by lia.
  rewrite Nat.Div0.mod_add.
  assert (Hpos : (0 <? List.length rest + 1 * 3)%nat = true) by (apply Nat.ltb_lt; lia).
  rewrite Hpos. destruct rest; reflexivity.
Qed.

Lemma replaceFrom_digits (ds : list Z) (d : Z) :
  Forall isDigit ds -> isDigit d ->
  replaceFrom (Some (digitChar d)) (digitString ds)
  = (if (0 <? List.length ds)%nat && (List.length ds mod 3 =? 0)%nat then "," else "")
    ++ match ds with [] => "" | _ => grouped ds end.
Proof.
  intros Hds; revert d; induction Hds as [|a r Ha Hr IH]; intros d Hd.
  - cbn [digitString replaceFrom threeDigitGroups List.length]. now rewrite andb_false_r.
  - cbn [digitString replaceFrom grouped].
    change (String (digitChar a) (digitString r)) with (digitString (a :: r)).
    rewrite threeDigitGroups_digitString by (constructor; assumption).
    unfold notWordBoundary. cbn [digitString].
    rewrite !isWordChar_digitChar by assumption. cbn [Bool.eqb andb].
    f_equal. f_equal. rewrite IH by assumption.
    destruct r; [reflexivity|]. reflexivity.
Qed.

(** The regular expression puts its commas where the groups of three
    digits, counted from the right, meet; a sign in front gets none. *)
Lemma addThousands_digits (ds : list Z) :
  Forall isDigit ds -> addThousands (digitString ds) = grouped ds.
Proof.
  intros Hds. destruct Hds as [|a r Ha Hr]; [reflexivity|].
  unfold addThousands. cbn [digitString replaceFrom grouped].
  unfold notWordBoundary. rewrite isWordChar_digitChar by assumption.
  cbn [Bool.eqb andb append]. f_equal.
  rewrite replaceFrom_digits by assumption.
  destruct r; reflexivity.
Qed.

Lemma addThousands_minus_digits (ds : list Z) :
  Forall isDigit ds -> addThousands ("-" ++ digitString ds) = "-" ++ grouped ds.
Proof.
  intros Hds. unfold addThousands. cbn [append replaceFrom].
  assert (Hno : threeDigitGroups (String "-" (digitString ds)) = false)
    by (destruct ds as [|a [|b r]]; reflexivity).
  rewrite Hno, andb_false_r. cbn [append]. f_equal.
  destruct Hds as [|a r Ha Hr]; [reflexivity|].
  cbn [digitString replaceFrom grouped].
  unfold notWordBoundary. rewrite isWordChar_digitChar by assumption.
  cbn [Bool.eqb andb append]. f_equal.
  rewrite replaceFrom_digits by assumption.
  destruct r; reflexivity.
Qed.

Lemma digitsAux_nonempty (fuel : nat) (z : Z) (acc : list Z) :
  digitsAux fuel z acc <> [].
Proof.
  revert z acc; induction fuel as [|f IH]; intros z acc; cbn; [discriminate|].
  destruct (z <? 10); [discriminate | apply IH].
Qed.

Lemma digitsOf_nonempty (z : Z) : digitsOf z <> [].
Proof. apply digitsAux_nonempty. Qed.

(** The shape of [toFixed]: an integer part of one digit or more and, when
    digits are asked for, a point and exactly that many digits. *)
Lemma fixedDigits_shape (n f : Z) :
  0 <= f ->
  exists a b : list Z,
    Forall isDigit a /\ Forall isDigit b /\ a <> [] /\ Z.of_nat (List.length b) = f
    /\ fixedDigits n f = digitString a ++ (if f =? 0 then "" else "." ++ digitString b).
Proof.
  intros Hf. unfold fixedDigits.
  set (m := if n =? 0 then [0] else digitsOf n).
  assert (Hm : Forall isDigit m).
  { unfold m. destruct (n =? 0); [|apply digitsOf_isDigit].
    repeat constructor; unfold isDigit; lia. }
  assert (Hne : m <> []).
  { unfold m. destruct (n =? 0); [discriminate | apply digitsOf_nonempty]. }
  destruct (Z.eqb_spec f 0) as [-> | Hf0].
  - exists m, []. rewrite append_nil_r. repeat split; auto.
  - set (k := Z.of_nat (List.length m)).
    set (m' := if k <=? f then (zeros (f + 1 - k) ++ m)%list else m).
    assert (Hm' : Forall isDigit m').
    { unfold m'. destruct (k <=? f); [|assumption].
      apply Forall_app. split; [apply zeros_isDigit | assumption]. }
    assert (Hk' : f + 1 <= Z.of_nat (List.length m')).
    { unfold m'. destruct (Z.leb_spec k f); [|fold k; lia].
      rewrite length_app. unfold zeros. rewrite repeat_length. fold k. lia. }
    set (k' := Z.of_nat (List.length m')) in *.
    exists (firstn (Z.to_nat (k' - f)) m'), (skipn (Z.to_nat (k' - f)) m').
    rewrite <- (firstn_skipn (Z.to_nat (k' - f)) m') in Hm'.
    apply Forall_app in Hm'. destruct Hm' as [Ha Hb].
    repeat split; auto.
    + intros Hnil. apply (f_equal (@List.length Z)) in Hnil.
      rewrite length_firstn in Hnil. cbn in Hnil. unfold k' in *. lia.
    + rewrite length_skipn. unfold k' in *. lia.
Qed.

Lemma split_signed (sign : string) (a : list Z) (tail : string) :
  sign = "" \/ sign = "-" ->
  Forall isDigit a ->
  tail = "" \/ (exists b, Forall isDigit b /\ tail = "." ++ digitString b) ->
  exists rest,
    split "." (sign ++ digitString a ++ tail) = (sign ++ digitString a) :: rest
    /\ join "." ((sign ++ grouped a) :: rest) = sign ++ grouped a ++ tail.
Proof.
  intros Hsign Ha Htail.
  assert (Hsplit : forall t, split "." (sign ++ t) = splitAux "." t O sign).
  { intros t. destruct Hsign as [-> | ->]; [reflexivity|].
    unfold split. cbn [append splitAux]. rewrite prefix_point. reflexivity. }
  rewrite Hsplit.
  destruct Htail as [-> | (b & Hb & ->)].
  - exists []. rewrite append_nil_r, splitAux_digits by assumption.
    split; [reflexivity|]. cbn. now rewrite append_nil_r.
  - exists [digitString b].
    rewrite splitAux_digits_point by assumption.
    fold (split "." (digitString b)). rewrite split_integer by assumption.
    split; [reflexivity|]. unfold join. cbn [String.concat].
    now rewrite !append_assoc.
Qed.


Lemma toFixed_shape (x : number) (d : Z) :
  0 <= d <= 100 -> PrimFloat.ltb (PrimFloat.abs x) 1e21 = true ->
  exists a b : list Z,
    Forall isDigit a /\ Forall isDigit b /\ a <> [] /\ Z.of_nat (List.length b) = d
    /\ toFixed x d =
       Value ((if lt x 0%float then "-" else "")
              ++ digitString a ++ (if d =? 0 then "" else "." ++ digitString b)).
Proof.
  intros Hd Hlim. apply below_limit in Hlim. unfold toFixed.
  assert (Hr : ((d <? 0) || (100 <? d)) = false).
  { apply orb_false_intro; [apply Z.ltb_ge | apply Z.ltb_ge]; lia. }
  rewrite Hr.
  destruct (Prim2SF x) as [z| i | |s m e] eqn:Hx; try contradiction.
  - rewrite (lt_zero_zero x z Hx).
    destruct (fixedDigits_shape 0 d ltac:(lia)) as (a & b & Ha & Hb & Hne & Hlen & Heq).
    exists a, b. rewrite Heq. repeat split; auto.
  - rewrite (lt_zero_sign x s m e Hx).
    assert (Hlt : (10 ^ 21 <=? integerPart (Z.pos m) e) = false) by (apply Z.leb_gt; exact Hlim).
    rewrite Hlt.
    destruct (fixedDigits_shape (nearestScaled (Z.pos m) e d) d ltac:(lia))
      as (a & b & Ha & Hb & Hne & Hlen & Heq).
    exists a, b. rewrite Heq. repeat split; auto.
Qed.

Lemma addThousands_signed (sign : string) (a : list Z) :
  sign = "" \/ sign = "-" -> Forall isDigit a ->
  addThousands (sign ++ digitString a) = sign ++ grouped a.
Proof.
  intros [-> | ->] Ha; [apply addThousands_digits | apply addThousands_minus_digits];
    assumption.
Qed.

Lemma sign_cases (b : bool) : (if b then "-" else "") = "" \/ (if b then "-" else "") = "-".
Proof. destruct b; auto. Qed.

(** X1.  Below [10^21] and for 0 to 100 decimals, the
    result is the sign, the integer digits of [toFixed] in groups of three
    counted from the right with commas between them, and the fraction of
    [toFixed] as it is. *)
Theorem priceToThousands_groups (num : number) (decimals : Z) :
  0 <= decimals <= 100 ->
  PrimFloat.ltb (PrimFloat.abs num) 1e21 = true ->
  exists a b : list Z,
    Forall isDigit a /\ Forall isDigit b /\ a <> []
    /\ Z.of_nat (List.length b) = decimals
    /\ let sign := if lt num 0%float then "-" else "" in
       let tail := if decimals =? 0 then "" else "." ++ digitString b in
       toFixed num decimals = Value (sign ++ digitString a ++ tail)
       /\ priceToThousands num (Some decimals) = Value (sign ++ grouped a ++ tail).
Proof.
  intros Hd Hlim.
  destruct (toFixed_shape num decimals Hd Hlim) as (a & b & Ha & Hb & Hne & Hlen & Heq).
  exists a, b. repeat split; auto.
  unfold priceToThousands.
  assert (H0 : (0 <=? decimals) = true) by (apply Z.leb_le; lia).
  rewrite H0, Heq.
  destruct (split_signed (if lt num 0%float then "-" else "") a
              (if decimals =? 0 then "" else "." ++ digitString b))
    as (rest & Hsplit & Hjoin).
  - apply sign_cases.
  - assumption.
  - destruct (decimals =? 0); [now left | right; now exists b].
  - rewrite Hsplit, addThousands_signed by (apply sign_cases || assumption).
    now rewrite Hjoin.
Qed.

Lemma priceToThousands_groups_witness :
  exists a b : list Z,
    Forall isDigit a /\ Forall isDigit b /\ a <> []
    /\ Z.of_nat (List.length b) = 2
    /\ toFixed (- 1234567.891)%float 2 = Value ("-" ++ digitString a ++ "." ++ digitString b)
    /\ priceToThousands (- 1234567.891)%float (Some 2)
       = Value ("-" ++ grouped a ++ "." ++ digitString b).
Proof.
  exact (priceToThousands_groups (- 1234567.891)%float 2 ltac:(lia) eq_refl).
Defined.

(** X2.  The call throws, a [RangeError] of [toFixed],
    exactly when more than 100 decimals are asked for; a negative count
    prints the number with [toString]. *)
Theorem priceToThousands_throws_iff (num : number) (decimals : option Z) :
  priceToThousands num decimals = RangeError
  <-> exists d, decimals = Some d /\ 100 < d.
Proof.
  unfold priceToThousands, toFixed. split.
  - destruct decimals as [d|].
    + intros H. exists d. split; [reflexivity|].
      destruct (Z.leb_spec 0 d); [|discriminate].
      destruct (Z.ltb_spec d 0); [lia|].
      destruct (Z.ltb_spec 100 d); [assumption|].
      cbn [orb] in H.
      destruct (Prim2SF num); try discriminate.
      destruct (10 ^ 21 <=? _); discriminate.
    + change (0 <=? 2) with true. change ((2 <? 0) || (100 <? 2)) with false.
      cbv iota.
      destruct (Prim2SF num); try discriminate.
      destruct (10 ^ 21 <=? _); discriminate.
  - intros (d & -> & Hd).
    assert (H0 : (0 <=? d) = true) by (apply Z.leb_le; lia).
    assert (H1 : (100 <? d) = true) by (apply Z.ltb_lt; lia).
    now rewrite H0, H1, orb_true_r.
Qed.

(** ** addZero *)

Lemma occurs_exponent (s : string) : hasExponent s = false -> occurs "e-" s = false.
Proof.
  unfold hasExponent, chars. induction s as [|c s IH]; [reflexivity|].
  cbn [list_ascii_of_string existsb]. intros H. apply orb_false_elim in H.
  destruct H as [Hc Hs]. cbn [occurs].
  change (String.prefix "e-" (String c s))
    with (if ascii_dec "e"%char c then String.prefix "-" s else false).
  destruct (ascii_dec "e" c) as [<- | _]; [discriminate | now apply IH].
Qed.

Lemma hasExponent_app (s t : string) :
  hasExponent (s ++ t) = hasExponent s || hasExponent t.
Proof. unfold hasExponent. now rewrite chars_append, existsb_app. Qed.

Lemma noExponent_of (s : string) : hasExponent s = false -> noExponent s.
Proof.
  unfold hasExponent, noExponent. intros H Hin.
  assert (Ht : existsb (Ascii.eqb "e") (chars s) = true)
    by (apply existsb_exists; exists "e"%char; split; [assumption | reflexivity]).
  congruence.
Qed.

Lemma occurs_point_digits (a : list Z) (sign : string) :
  sign = "" \/ sign = "-" -> Forall isDigit a ->
  occurs "." (sign ++ digitString a) = false.
Proof.
  intros Hsign Ha.
  assert (Hd : occurs "." (digitString a) = false).
  { induction Ha as [|d r Hd Hr IH]; [reflexivity|].
    cbn [digitString occurs]. rewrite prefix_point.
    destruct (Ascii.eqb_spec (digitChar d) "."%char) as [Heq | _]; [|exact IH].
    now apply digitChar_not_point in Heq. }
  destruct Hsign as [-> | ->]; [exact Hd|].
  cbn [append occurs]. rewrite prefix_point. exact Hd.
Qed.

Lemma occurs_app_r (pat s t : string) : occurs pat t = true -> occurs pat (s ++ t) = true.
Proof.
  intros H. induction s as [|c s IH]; [exact H|].
  cbn [append occurs]. rewrite IH. now destruct (String.prefix _ _).
Qed.

Lemma split_signed_fraction (sign : string) (a b : list Z) :
  sign = "" \/ sign = "-" -> Forall isDigit a -> Forall isDigit b ->
  split "." (sign ++ digitString a ++ "." ++ digitString b)
  = [sign ++ digitString a; digitString b].
Proof.
  intros Hsign Ha Hb.
  assert (Hsplit : forall t, split "." (sign ++ t) = splitAux "." t O sign).
  { intros t. destruct Hsign as [-> | ->]; [reflexivity|].
    unfold split. cbn [append splitAux]. rewrite prefix_point. reflexivity. }
  rewrite Hsplit, splitAux_digits_point by assumption.
  fold (split "." (digitString b)). now rewrite split_integer.
Qed.

Lemma toString_zero_or_finite (x : number) :
  PrimFloat.ltb (PrimFloat.abs x) 1e21 = true ->
  hasExponent (toString x) = false ->
  exists (sign : string) (p : string),
    (sign = "" \/ sign = "-") /\ toString x = sign ++ p /\ fixedShape p.
Proof.
  intros Hlim Hno. apply below_limit in Hlim. unfold toString in *.
  destruct (Prim2SF x) as [z| i | |s m e] eqn:Hx; try contradiction.
  - exists "", "0". split; [now left|]. split; [reflexivity|].
    apply (shapeInteger _ [0]); [|reflexivity]. repeat constructor; unfold isDigit; lia.
  - exists (if s then "-" else ""), (positiveToString (Z.pos m) e).
    split; [apply sign_cases|]. split; [reflexivity|].
    apply positiveToString_shape, noExponent_of.
    rewrite hasExponent_app in Hno. now apply orb_false_elim in Hno.
Qed.

(** X3.  A number below [10^21] that prints without an exponent
    comes back with a point and two digits or more after it. *)
Theorem addZero_two_decimals (num : number) :
  PrimFloat.ltb (PrimFloat.abs num) 1e21 = true ->
  hasExponent (toString num) = false ->
  exists (a : string) (b : list Z),
    Forall isDigit b /\ (2 <= List.length b)%nat
    /\ addZero num = Value (a ++ "." ++ digitString b).
Proof.
  intros Hlim Hno.
  assert (Hfixed : exists (a : string) (b : list Z),
             Forall isDigit b /\ (2 <= List.length b)%nat
             /\ toFixed num 2 = Value (a ++ "." ++ digitString b)).
  { destruct (toFixed_shape num 2 ltac:(lia) Hlim) as (a & b & Ha & Hb & _ & Hlen & Heq).
    exists ((if lt num 0%float then "-" else "") ++ digitString a), b.
    repeat split; [assumption | lia |].
    rewrite Heq. change (2 =? 0) with false. cbv iota. now rewrite append_assoc. }
  unfold addZero, AmountPlaces.getDecimalPlaces.
  destruct (strictEq (Math_floor num) num); [exact Hfixed|].
  assert (He : (indexOf "e-" (toString num) =? -1) = true).
  { unfold indexOf. rewrite indexOfFrom_absent by lia.
    now rewrite (occurs_exponent _ Hno). }
  assert (Hp : (indexOf "." (toString num) =? -1) = negb (occurs "." (toString num))).
  { unfold indexOf. apply indexOfFrom_absent. lia. }
  rewrite He, Hp. cbn [negb andb].
  destruct (toString_zero_or_finite num Hlim Hno) as (sign & p & Hsign & Hstr & Hshape).
  rewrite Hstr.
  destruct Hshape as [a Ha -> | a b Ha Hb ->].
  - rewrite (occurs_point_digits a sign Hsign Ha). cbn [negb andb]. exact Hfixed.
  - rewrite <- append_assoc, (occurs_app_r "." (sign ++ digitString a))
      by (cbn [append occurs]; now rewrite prefix_point).
    cbn [negb andb]. rewrite append_assoc.
    rewrite (split_signed_fraction sign a b Hsign Ha Hb). cbn [nth].
    rewrite length_digitString.
    destruct (List.length b) as [|[|n]] eqn:Hlen; try exact Hfixed.
    exists (sign ++ digitString a), b.
    repeat split; [assumption | lia |].
    now rewrite !append_assoc.
Qed.

Lemma addZero_two_decimals_witness :
  exists (a : string) (b : list Z),
    Forall isDigit b /\ (2 <= List.length b)%nat
    /\ addZero 123.5%float = Value (a ++ "." ++ digitString b).
Proof. exact (addZero_two_decimals 123.5%float eq_refl eq_refl). Defined.

(** ** Cents and dollars *)

(** A test on [count] successive integers, the first being [first]. *)
Fixpoint allFrom (test : Z -> bool) (first : Z) (count : nat) : bool :=
  match count with
  | O => true
  | S count => test first && allFrom test (first + 1) count
  end.

Lemma allFrom_sound (test : Z -> bool) (count : nat) :
  forall first z,
    allFrom test first count = true ->
    first <= z < first + Z.of_nat count -> test z = true.
Proof.
  induction count as [|count IH]; intros first z Hall Hz; [lia|].
  cbn [allFrom] in Hall. apply andb_prop in Hall. destruct Hall as [Hfirst Hrest].
  destruct (Z.eq_dec z first) as [-> | Hne]; [assumption|].
  apply (IH (first + 1)); [assumption | lia].
Qed.

Definition tripTest (c : Z) : bool :=
  match centsToDollars (ofZ c) None with
  | Value x => PrimFloat.Leibniz.eqb x (ofDecimal false c (-2))
  | RangeError => false
  end
  && PrimFloat.Leibniz.eqb (dollarsToCents (ofDecimal false c (-2))) (ofZ c).

Lemma all_tripTest : allFrom tripTest 0 (Z.to_nat 10000) = true.
Proof. vm_compute. reflexivity. Qed.

(** X4.  Up to 99.99: a whole number of
    cents becomes the amount that its two decimals denote, and the amount
    becomes the same number of cents again. *)
Theorem cents_round_trip (c : Z) :
  0 <= c < 10000 ->
  centsToDollars (ofZ c) None = Value (ofDecimal false c (-2))
  /\ dollarsToCents (ofDecimal false c (-2)) = ofZ c.
Proof.
  intros Hc.
  pose proof (allFrom_sound tripTest _ 0 c all_tripTest ltac:(lia)) as Hall.
  unfold tripTest in Hall. apply andb_prop in Hall. destruct Hall as [Hto Hfrom].
  split.
  - destruct (centsToDollars (ofZ c) None) as [x|]; [|discriminate].
    apply FloatAxioms.Leibniz.eqb_spec in Hto. now rewrite Hto.
  - now apply FloatAxioms.Leibniz.eqb_spec.
Qed.

Lemma cents_round_trip_witness :
  centsToDollars 1234%float None = Value 12.34%float
  /\ dollarsToCents 12.34%float = 1234%float.
Proof. apply (cents_round_trip 1234). lia. Defined.

End AmountFormatFacts.

Module AmountSignFacts.
Import JS Amount StringFacts.

Lemma positive_cases (x : number) :
  lt 0%float x = true ->
  strictEq x 0%float = false /\ lt x 0%float = false
  /\ strictEq (- x)%float 0%float = false /\ lt (- x)%float 0%float = true
  /\ PrimFloat.abs (- x)%float = PrimFloat.abs x.
Proof.
  unfold lt, strictEq. rewrite !ltb_spec, !eqb_spec, opp_spec.
  replace (Prim2SF 0%float) with (S754_zero false) by (vm_compute; reflexivity).
  intros Hpos.
  assert (Habs : PrimFloat.abs (- x)%float = PrimFloat.abs x).
  { apply Prim2SF_inj. rewrite !abs_spec, opp_spec. now destruct (Prim2SF x). }
  destruct (Prim2SF x) as [s|s| |s m e]; cbn in *; try discriminate;
    destruct s; try discriminate; repeat split; assumption || reflexivity.
Qed.

Lemma compose_negative (x : number) (suffix : string) :
  lt 0%float x = true -> compose (- x)%float suffix = "负" ++ compose x suffix.
Proof.
  intros Hpos. destruct (positive_cases x Hpos) as (_ & Hlt & _ & Hneg & Habs).
  unfold compose. rewrite Hlt, Hneg, Habs.
  destruct (truthy (convertInteger _)); [|reflexivity].
  destruct (negb (truthy (convertDecimal _))); reflexivity.
Qed.

(** X5.  A negative amount is written as 负 followed by
    the text of the amount without its sign. *)
Theorem priceUppercase_negative (num : number) :
  lt 0%float num = true ->
  priceUppercase (- num)%float = "负" ++ priceUppercase num.
Proof.
  intros Hpos. destruct (positive_cases num Hpos) as (Hnz & _ & Hnz' & _).
  unfold priceUppercase. rewrite Hnz, Hnz'.
  now apply compose_negative.
Qed.

Lemma priceUppercase_negative_witness :
  priceUppercase (- 123.45)%float = "负" ++ priceUppercase 123.45%float
  /\ priceUppercase 123.45%float = "壹佰贰拾叁元肆角伍分".
Proof.
  split; [exact (priceUppercase_negative 123.45%float eq_refl) | vm_compute; reflexivity].
Defined.

(** ** Amounts of a million millions *)

Lemma groupStep_shift (pre ds : list digit) (start i : nat) (st : groupState) :
  groupStep (pre ++ ds) (List.length pre + start) st (List.length pre + i)
  = groupStep ds start st i.
Proof.
  unfold groupStep. rewrite app_nth2_plus.
  now replace (List.length pre + i - (List.length pre + start))%nat with (i - start)%nat by lia.
Qed.

Lemma groupLoop_shift (pre ds : list digit) (start end_ : nat) :
  groupLoop (pre ++ ds) (List.length pre + start) (List.length pre + end_)
  = groupLoop ds start end_.
Proof.
  unfold groupLoop.
  replace (List.length pre + end_ - (List.length pre + start))%nat
    with (end_ - start)%nat by lia.
  generalize (end_ - start)%nat as count. generalize groupInit as st.
  intros st count. generalize start at 2 4 as first. revert st.
  induction count as [|count IH]; intros st first; [reflexivity|].
  cbn [seq fold_left]. rewrite groupStep_shift.
  replace (S (List.length pre + first)) with (List.length pre + S first)%nat by lia.
  apply IH.
Qed.

Lemma groupLoop_zeros (digits : list digit) (start end_ : nat) :
  (forall i, (start <= i < end_)%nat -> nth i digits None = Some O) ->
  groupLoop digits start end_ = groupInit.
Proof.
  unfold groupLoop. intros Hzero.
  assert (Hfold : forall l st,
             hasValue st = false ->
             (forall i, In i l -> nth i digits None = Some O) ->
             fold_left (groupStep digits start) l st = st).
  { induction l as [|i l IH]; intros st Hst Hl; [reflexivity|].
    cbn [fold_left]. unfold groupStep at 2.
    rewrite (Hl i) by now left. cbn [nonZero]. rewrite Hst.
    apply IH; [assumption | intros j Hj; apply Hl; now right]. }
  apply Hfold; [reflexivity|].
  intros i Hi. apply in_seq in Hi. apply Hzero. lia.
Qed.

Definition twelveZeros : string := "000000000000".

Lemma digits_of_digitString (a : list Z) :
  Forall isDigit a ->
  map parseDigit (chars (digitString a)) = map (fun d => Some (Z.to_nat d)) a.
Proof.
  intros Ha. rewrite chars_digitString, map_map.
  apply map_ext_in. intros d Hd. apply parseDigit_digitChar.
  rewrite Forall_forall in Ha. now apply Ha.
Qed.

(** The groups of an integer part that ends in twelve zeros, its first
    four digits or fewer being [a]: the fourth group is written with no
    unit, as the only group of [a] is. *)
Lemma convertInteger_fourth_group (a : list Z) :
  Forall isDigit a -> (1 <= List.length a <= 4)%nat ->
  convertInteger (digitString a ++ twelveZeros) = convertInteger (digitString a).
Proof.
  intros Ha Hlen.
  set (D := rev (map (fun d => Some (Z.to_nat d)) a)).
  assert (HD : List.length D = List.length a)
    by (unfold D; now rewrite length_rev, length_map).
  set (st := groupLoop D 0 (List.length a)).
  assert (Hright : convertInteger (digitString a)
                   = if hasValue st then groupResult st else "").
  { unfold convertInteger.
    destruct (String.eqb_spec (digitString a) "0") as [Hzero | _].
    - cbn [orb]. assert (Ha0 : a = [0%Z]).
      { destruct a as [|d [|d' r]]; try discriminate.
        inversion Ha as [|? ? Hd _]; subst. digit_cases Hd; try discriminate. reflexivity. }
      unfold st, D. rewrite Ha0. reflexivity.
    - destruct a as [|d r]; [cbn in Hlen; lia|].
      cbn [digitString truthy negb orb].
      change (String (digitChar d) (digitString r)) with (digitString (d :: r)).
      rewrite digits_of_digitString by assumption. fold D. rewrite HD.
      assert (Hcount : ((List.length (d :: r) + 3) / 4 = 1)%nat).
      { destruct Hlen as [H1 H4]. cbn [List.length] in *.
        destruct r as [|? [|? [|? [|? ?]]]]; cbn in *; try reflexivity; lia. }
      rewrite Hcount. cbn [seq fold_left]. unfold convertGroup.
      cbn [Nat.mul Nat.add]. rewrite Nat.min_r by lia. fold st.
      rewrite andb_false_r.
      destruct (hasValue st); [cbn [truthy andb]; now rewrite append_nil_r | reflexivity]. }
  rewrite Hright. unfold convertInteger.
  assert (Hnz : ((digitString a ++ twelveZeros =? "0")%string
                 || negb (truthy (digitString a ++ twelveZeros))) = false).
  { destruct a as [|d r]; [cbn in Hlen; lia|].
    unfold twelveZeros. cbn [digitString append String.eqb truthy].
    destruct (Ascii.eqb (digitChar d) "0"); destruct r; reflexivity. }
  rewrite Hnz.
  assert (Hdigits : rev (map parseDigit (chars (digitString a ++ twelveZeros)))
                    = (repeat (Some O) 12 ++ D)%list).
  { rewrite chars_append, map_app, rev_app_distr.
    rewrite digits_of_digitString by assumption. reflexivity. }
  rewrite Hdigits. rewrite length_app, repeat_length, HD.
  assert (Hcount : ((12 + List.length a + 3) / 4 = 4)%nat).
  { destruct Hlen as [H1 H4].
    destruct a as [|? [|? [|? [|? [|? ?]]]]]; cbn in *; try reflexivity; lia. }
  rewrite Hcount. cbn [seq fold_left].
  assert (Hlow : forall g result,
             (g < 3)%nat ->
             convertGroup (repeat (Some O) 12 ++ D) (12 + List.length a) result g = result).
  { intros g result Hg. unfold convertGroup.
    rewrite groupLoop_zeros; [reflexivity|].
    intros i Hi. rewrite app_nth1 by (rewrite repeat_length; lia).
    apply nth_repeat_lt. lia. }
  rewrite (Hlow 0%nat), (Hlow 1%nat), (Hlow 2%nat) by lia. unfold convertGroup.
  change (3 * 4)%nat with (List.length (repeat (Some O) 12) + 0)%nat.
  replace (Nat.min (List.length (repeat (Some O) 12) + 0 + 4) (12 + List.length a))
    with (List.length (repeat (@Some nat O) 12) + List.length a)%nat
    by (rewrite repeat_length; lia).
  rewrite groupLoop_shift. fold st.
  destruct (hasValue st); [|reflexivity].
  cbn [andb truthy Nat.ltb Nat.leb atOrEmpty bigUnits nth].
  now rewrite !append_nil_r.
Qed.

(** X6.  The fourth group of four digits has no unit of
    its own: an amount that prints as up to four digits and twelve zeros
    is written as the amount that prints as those digits alone. *)
Theorem priceUppercase_drops_the_fourth_unit (x y : number) (a : list Z) :
  Forall isDigit a -> (1 <= List.length a <= 4)%nat ->
  toString (PrimFloat.abs x) = digitString a ++ twelveZeros ->
  toString (PrimFloat.abs y) = digitString a ->
  strictEq x 0%float = false -> strictEq y 0%float = false ->
  lt x 0%float = lt y 0%float ->
  priceUppercase x = priceUppercase y.
Proof.
  intros Ha Hlen Hx Hy Hxz Hyz Hsign.
  unfold priceUppercase, compose. rewrite Hxz, Hyz, Hx, Hy, Hsign.
  assert (Hz : Forall isDigit (zeros 12)) by apply ToStringFacts.zeros_isDigit.
  replace (digitString a ++ twelveZeros) with (digitString (a ++ zeros 12))
    by (rewrite digitString_app; reflexivity).
  rewrite !split_integer by (try apply Forall_app; auto).
  cbn [nth]. rewrite digitString_app.
  change (digitString (zeros 12)) with twelveZeros.
  now rewrite convertInteger_fourth_group.
Qed.

Lemma priceUppercase_drops_the_fourth_unit_witness :
  priceUppercase 1234000000000000%float = priceUppercase 1234%float
  /\ priceUppercase 1234%float = "壹仟贰佰叁拾肆元整".
Proof.
  split; [|vm_compute; reflexivity].
  apply (priceUppercase_drops_the_fourth_unit _ _ [1; 2; 3; 4]%Z);
    try (vm_compute; reflexivity).
  - repeat constructor; unfold isDigit; lia.
  - cbn; lia.
Defined.

End AmountSignFacts.

(** ** The order of binary64 values *)

Module OrderFacts.
Import JS.

(** [x <= y] on values that are not [NaN]. *)
Definition SFle (x y : spec_float) : Prop :=
  SFcompare x y = Some Lt \/ SFcompare x y = Some Eq.

Ltac compare_cases :=
  repeat match goal with
         | |- context [Z.compare ?a ?b] => destruct (Z.compare_spec a b)
         | H : context [Z.compare ?a ?b] |- _ => destruct (Z.compare_spec a b)
         | |- context [Pos.compare_cont Eq ?a ?b] =>
             change (Pos.compare_cont Eq a b) with (Pos.compare a b);
             destruct (Pos.compare_spec a b)
         | H : context [Pos.compare_cont Eq ?a ?b] |- _ =>
             change (Pos.compare_cont Eq a b) with (Pos.compare a b) in H;
             destruct (Pos.compare_spec a b)
         end.

Lemma SFle_trans (x y z : spec_float) : SFle x y -> SFle y z -> SFle x z.
Proof.
  unfold SFle.
  destruct x as [sx|sx| |sx mx ex], y as [sy|sy| |sy my ey], z as [sz|sz| |sz mz ez];
    cbn; try (intros [H|H]; discriminate); try tauto;
    try (destruct sx, sy, sz; cbn; intros [H1|H1] [H2|H2]; try discriminate; tauto).
  destruct sx, sy, sz; cbn; compare_cases; cbn; subst;
    intros [Hxy|Hxy] [Hyz|Hyz]; try discriminate; try tauto; try lia.
Qed.

Lemma SFle_total (x y : spec_float) :
  x <> S754_nan -> y <> S754_nan -> SFltb y x = false -> SFle x y.
Proof.
  unfold SFle, SFltb.
  destruct x as [sx|sx| |sx mx ex], y as [sy|sy| |sy my ey];
    cbn; try congruence; intros _ _;
    try (destruct sx; try destruct sy; cbn; intros H; try discriminate; tauto).
  change (Pos.compare_cont Eq my mx) with (Pos.compare my mx).
  change (Pos.compare_cont Eq mx my) with (Pos.compare mx my).
  rewrite (Z.compare_antisym ex ey), (Pos.compare_antisym mx my).
  destruct (ex ?= ey), (mx ?= my)%positive, sx, sy; cbn; intros H;
    try discriminate; tauto.
Qed.

Lemma SFltb_le (x y : spec_float) : SFltb x y = true -> SFle x y.
Proof. unfold SFltb, SFle. destruct (SFcompare x y) as [[]|]; try discriminate; tauto. Qed.

Lemma SFle_refl (x : spec_float) : x <> S754_nan -> SFle x x.
Proof.
  unfold SFle. destruct x as [s|s| |s m e]; cbn; try congruence; intros _.
  - tauto.
  - destruct s; tauto.
  - rewrite Z.compare_refl.
    change (Pos.compare_cont Eq m m) with (Pos.compare m m).
    rewrite Pos.compare_refl. destruct s; cbn; tauto.
Qed.

Lemma leb_SFle (x y : number) : PrimFloat.leb x y = true <-> SFle (Prim2SF x) (Prim2SF y).
Proof.
  rewrite leb_spec. unfold SFleb, SFle.
  destruct (SFcompare _ _) as [[]|]; split; intros H;
    try reflexivity; try discriminate; try tauto;
    destruct H; discriminate.
Qed.

Lemma isNaN_false (x : number) : isNaN x = false <-> Prim2SF x <> S754_nan.
Proof.
  unfold isNaN. rewrite eqb_spec. unfold SFeqb.
  destruct (Prim2SF x) as [s|s| |s m e]; cbn.
  - split; [discriminate | reflexivity].
  - destruct s; cbn; (split; [discriminate | reflexivity]).
  - split; [discriminate | congruence].
  - rewrite Z.compare_refl.
    change (Pos.compare_cont Eq m m) with (Pos.compare m m).
    rewrite Pos.compare_refl. destruct s; cbn; (split; [discriminate | reflexivity]).
Qed.

Lemma isNaN_true (x : number) : isNaN x = true <-> Prim2SF x = S754_nan.
Proof.
  pose proof (isNaN_false x) as H. destruct (isNaN x).
  - split; [|reflexivity]. intros _.
    destruct (Prim2SF x); try reflexivity;
      exfalso; assert (true = false) by (apply H; discriminate); discriminate.
  - split; [discriminate|]. intros Hx. exfalso. now apply (proj1 H).
Qed.

End OrderFacts.

Module MathListFacts.
Import JS AmountFormat MathList OrderFacts.

Lemma SFle_neg_infinity (x : spec_float) :
  SFle x (S754_infinity true) -> x = S754_infinity true.
Proof.
  unfold SFle. destruct x as [s|s| |s m e]; cbn;
    try (intros [H|H]; discriminate).
  destruct s; cbn; [reflexivity | intros [H|H]; discriminate].
Qed.

Lemma SFle_infinity (x : spec_float) :
  SFle (S754_infinity false) x -> x = S754_infinity false.
Proof.
  unfold SFle. destruct x as [s|s| |s m e]; cbn;
    try (intros [H|H]; discriminate).
  destruct s; cbn; [intros [H|H]; discriminate | reflexivity].
Qed.

Lemma isPositiveZero_eq (x : number) : isPositiveZero x = true -> x = 0%float.
Proof.
  unfold isPositiveZero. intros H. apply Prim2SF_inj.
  destruct (Prim2SF x) as [[]| | |]; try discriminate. reflexivity.
Qed.

Lemma isNegativeZero_eq (x : number) : isNegativeZero x = true -> x = (-0)%float.
Proof.
  unfold isNegativeZero. intros H. apply Prim2SF_inj.
  destruct (Prim2SF x) as [[]| | |]; try discriminate. reflexivity.
Qed.

(** What the loop of [Math.max] keeps: [highest] is above the arguments
    read so far and is one of them, or still [-Infinity]. *)
Definition maxInvariant (read : list number) (highest : number) : Prop :=
  isNaN highest = false
  /\ (forall y, In y read -> SFle (Prim2SF y) (Prim2SF highest))
  /\ (In highest read \/ highest = neg_infinity).

Lemma maxLoop_invariant (rest read : list number) (highest : number) :
  (forall y, In y rest -> isNaN y = false) ->
  maxInvariant read highest ->
  maxInvariant (read ++ rest) (maxLoop rest highest).
Proof.
  revert read highest; induction rest as [|number rest IH]; intros read highest Hrest Hinv.
  - now rewrite app_nil_r.
  - cbn [maxLoop]. rewrite (Hrest number) by now left.
    replace (read ++ number :: rest)%list with ((read ++ [number]) ++ rest)%list
      by now rewrite <- app_assoc.
    apply IH; [intros y Hy; apply Hrest; now right|].
    destruct Hinv as (Hnan & Hle & Hin).
    assert (Hnum : Prim2SF number <> S754_nan) by (apply isNaN_false, Hrest; now left).
    assert (Hhigh : Prim2SF highest <> S754_nan) by now apply isNaN_false.
    destruct (isPositiveZero number && isNegativeZero highest) eqn:Hzero.
    + apply andb_prop in Hzero. destruct Hzero as [Hp Hn].
      apply isPositiveZero_eq in Hp. apply isNegativeZero_eq in Hn. subst number highest.
      change (gt 0 0)%float with false. cbv iota.
      split; [reflexivity|]. split.
      * intros y Hy. apply in_app_or in Hy. destruct Hy as [Hy | [<- | []]].
        -- apply SFle_trans with (Prim2SF (-0)%float); [now apply Hle|].
           right; reflexivity.
        -- right; reflexivity.
      * left. apply in_or_app. right. now left.
    + unfold gt. rewrite ltb_spec.
      destruct (SFltb (Prim2SF highest) (Prim2SF number)) eqn:Hgt.
      * split; [apply Hrest; now left|]. split.
        -- intros y Hy. apply in_app_or in Hy. destruct Hy as [Hy | [<- | []]].
           ++ apply SFle_trans with (Prim2SF highest); [now apply Hle | now apply SFltb_le].
           ++ now apply SFle_refl.
        -- left. apply in_or_app. right. now left.
      * split; [assumption|]. split.
        -- intros y Hy. apply in_app_or in Hy. destruct Hy as [Hy | [<- | []]].
           ++ now apply Hle.
           ++ now apply SFle_total.
        -- destruct Hin as [Hin | ->]; [left; apply in_or_app; now left | now right].
Qed.

(** X7.  On a list that is not empty and holds no [NaN]: within
    the argument limit of the host [max] returns an element of the list,
    and no element is above it; on a longer list the call throws. *)
Theorem max_is_greatest (argumentLimit : nat) (list : list number) :
  list <> [] ->
  (forall y, In y list -> isNaN y = false) ->
  match max argumentLimit list with
  | Value highest =>
      (List.length list <= argumentLimit)%nat
      /\ In highest list
      /\ forall y, In y list -> PrimFloat.leb y highest = true
  | RangeError => (argumentLimit < List.length list)%nat
  end.
Proof.
  intros Hne Hnan. unfold max, spread, isEmpty, Math_max.
  destruct list as [|x rest]; [congruence|]. cbn [List.length Nat.eqb].
  destruct (Nat.ltb_spec argumentLimit (S (List.length rest))) as [Hlong | Hshort];
    [exact Hlong|].
  destruct (maxLoop_invariant (x :: rest) [] neg_infinity Hnan) as (_ & Hle & Hin).
  { split; [reflexivity|]. split; [intros y []| now right]. }
  cbn [app] in Hle, Hin. split; [exact Hshort|]. split.
  - destruct Hin as [Hin | Heq]; [exact Hin|].
    left. apply Prim2SF_inj. rewrite Heq.
    specialize (Hle x (or_introl eq_refl)). rewrite Heq in Hle.
    now apply SFle_neg_infinity in Hle.
  - intros y Hy. apply leb_SFle. now apply Hle.
Qed.

Lemma max_is_greatest_witness :
  max 100 [2; 8; 4; 6]%float = Value 8%float
  /\ max 3 [2; 8; 4; 6]%float = RangeError
  /\ forall y, In y [2; 8; 4; 6]%float -> PrimFloat.leb y 8%float = true.
Proof.
  assert (Hnan : forall y, In y [2; 8; 4; 6]%float -> isNaN y = false)
    by (intros y [<- | [<- | [<- | [<- | []]]]]; reflexivity).
  pose proof (max_is_greatest 100 [2; 8; 4; 6]%float ltac:(discriminate) Hnan)
    as (_ & _ & Hle).
  split; [reflexivity|]. split; [reflexivity | exact Hle].
Defined.

Definition minInvariant (read : list number) (lowest : number) : Prop :=
  isNaN lowest = false
  /\ (forall y, In y read -> SFle (Prim2SF lowest) (Prim2SF y))
  /\ (In lowest read \/ lowest = infinity).

Lemma minLoop_invariant (rest read : list number) (lowest : number) :
  (forall y, In y rest -> isNaN y = false) ->
  minInvariant read lowest ->
  minInvariant (read ++ rest) (minLoop rest lowest).
Proof.
  revert read lowest; induction rest as [|number rest IH]; intros read lowest Hrest Hinv.
  - now rewrite app_nil_r.
  - cbn [minLoop]. rewrite (Hrest number) by now left.
    replace (read ++ number :: rest)%list with ((read ++ [number]) ++ rest)%list
      by now rewrite <- app_assoc.
    apply IH; [intros y Hy; apply Hrest; now right|].
    destruct Hinv as (Hnan & Hle & Hin).
    assert (Hnum : Prim2SF number <> S754_nan) by (apply isNaN_false, Hrest; now left).
    assert (Hlow : Prim2SF lowest <> S754_nan) by now apply isNaN_false.
    destruct (isNegativeZero number && isPositiveZero lowest) eqn:Hzero.
    + apply andb_prop in Hzero. destruct Hzero as [Hn Hp].
      apply isPositiveZero_eq in Hp. apply isNegativeZero_eq in Hn. subst number lowest.
      change (lt (-0) (-0))%float with false. cbv iota.
      split; [reflexivity|]. split.
      * intros y Hy. apply in_app_or in Hy. destruct Hy as [Hy | [<- | []]].
        -- apply SFle_trans with (Prim2SF 0%float); [right; reflexivity | now apply Hle].
        -- right; reflexivity.
      * left. apply in_or_app. right. now left.
    + unfold lt. rewrite ltb_spec.
      destruct (SFltb (Prim2SF number) (Prim2SF lowest)) eqn:Hlt.
      * split; [apply Hrest; now left|]. split.
        -- intros y Hy. apply in_app_or in Hy. destruct Hy as [Hy | [<- | []]].
           ++ apply SFle_trans with (Prim2SF lowest); [now apply SFltb_le | now apply Hle].
           ++ now apply SFle_refl.
        -- left. apply in_or_app. right. now left.
      * split; [assumption|]. split.
        -- intros y Hy. apply in_app_or in Hy. destruct Hy as [Hy | [<- | []]].
           ++ now apply Hle.
           ++ now apply SFle_total.
        -- destruct Hin as [Hin | ->]; [left; apply in_or_app; now left | now right].
Qed.

(** X8.  On a list that is not empty and holds no [NaN]: within
    the argument limit of the host [min] returns an element of the list,
    and no element is below it; on a longer list the call throws. *)
Theorem min_is_least (argumentLimit : nat) (list : list number) :
  list <> [] ->
  (forall y, In y list -> isNaN y = false) ->
  match min argumentLimit list with
  | Value lowest =>
      (List.length list <= argumentLimit)%nat
      /\ In lowest list
      /\ forall y, In y list -> PrimFloat.leb lowest y = true
  | RangeError => (argumentLimit < List.length list)%nat
  end.
Proof.
  intros Hne Hnan. unfold min, spread, isEmpty, Math_min.
  destruct list as [|x rest]; [congruence|]. cbn [List.length Nat.eqb].
  destruct (Nat.ltb_spec argumentLimit (S (List.length rest))) as [Hlong | Hshort];
    [exact Hlong|].
  destruct (minLoop_invariant (x :: rest) [] infinity Hnan) as (_ & Hle & Hin).
  { split; [reflexivity|]. split; [intros y []| now right]. }
  cbn [app] in Hle, Hin. split; [exact Hshort|]. split.
  - destruct Hin as [Hin | Heq]; [exact Hin|].
    left. apply Prim2SF_inj. rewrite Heq.
    specialize (Hle x (or_introl eq_refl)). rewrite Heq in Hle.
    now apply SFle_infinity in Hle.
  - intros y Hy. apply leb_SFle. now apply Hle.
Qed.

Lemma min_is_least_witness :
  min 100 [2; 8; 4; 6]%float = Value 2%float
  /\ min 3 [2; 8; 4; 6]%float = RangeError
  /\ forall y, In y [2; 8; 4; 6]%float -> PrimFloat.leb 2%float y = true.
Proof.
  assert (Hnan : forall y, In y [2; 8; 4; 6]%float -> isNaN y = false)
    by (intros y [<- | [<- | [<- | [<- | []]]]]; reflexivity).
  pose proof (min_is_least 100 [2; 8; 4; 6]%float ltac:(discriminate) Hnan)
    as (_ & _ & Hle).
  split; [reflexivity|]. split; [reflexivity | exact Hle].
Defined.

(** ** [NaN] in a list *)

Lemma maxLoop_nan (list : list number) (highest : number) :
  (exists y, In y list /\ isNaN y = true) -> maxLoop list highest = nan.
Proof.
  revert highest; induction list as [|x rest IH]; intros highest (y & Hin & Hy).
  - destruct Hin.
  - cbn [maxLoop]. destruct (isNaN x) eqn:Hx; [reflexivity|].
    apply IH. exists y. split; [|assumption].
    destruct Hin as [<- | Hin]; [congruence | assumption].
Qed.

Lemma minLoop_nan (list : list number) (lowest : number) :
  (exists y, In y list /\ isNaN y = true) -> minLoop list lowest = nan.
Proof.
  revert lowest; induction list as [|x rest IH]; intros lowest (y & Hin & Hy).
  - destruct Hin.
  - cbn [minLoop]. destruct (isNaN x) eqn:Hx; [reflexivity|].
    apply IH. exists y. split; [|assumption].
    destruct Hin as [<- | Hin]; [congruence | assumption].
Qed.

Lemma add_nan_l (x y : number) : isNaN x = true -> isNaN (x + y)%float = true.
Proof.
  rewrite !isNaN_true, add_spec. intros ->. reflexivity.
Qed.

Lemma add_nan_r (x y : number) : isNaN y = true -> isNaN (x + y)%float = true.
Proof.
  rewrite !isNaN_true, add_spec. intros ->. now destruct (Prim2SF x).
Qed.

Lemma div_nan_l (x y : number) : isNaN x = true -> isNaN (x / y)%float = true.
Proof.
  rewrite !isNaN_true, div_spec. intros ->. reflexivity.
Qed.

Lemma fold_add_nan (list : list number) (acc : number) :
  isNaN acc = true \/ (exists y, In y list /\ isNaN y = true) ->
  isNaN (fold_left (fun acc num => acc + num)%float list acc) = true.
Proof.
  revert acc; induction list as [|x rest IH]; intros acc H; cbn [fold_left].
  - destruct H as [H | (y & [] & _)]. exact H.
  - apply IH. destruct H as [H | (y & [<- | Hin] & Hy)].
    + left. now apply add_nan_l.
    + left. now apply add_nan_r.
    + right. now exists y.
Qed.

(** X9.  One [NaN] in the list makes the result
    of [sum] and of [average] [NaN], and that of [max] and of [min] too
    where the list is within the argument limit of the host; on a longer
    list these two throw. *)
Theorem nan_is_contagious (argumentLimit : nat) (list : list number) (y : number) :
  In y list -> isNaN y = true ->
  isNaN (sum list) = true /\ isNaN (average list) = true
  /\ match max argumentLimit list with
     | Value highest => isNaN highest = true
     | RangeError => (argumentLimit < List.length list)%nat
     end
  /\ match min argumentLimit list with
     | Value lowest => isNaN lowest = true
     | RangeError => (argumentLimit < List.length list)%nat
     end.
Proof.
  intros Hin Hy.
  assert (Hex : exists y, In y list /\ isNaN y = true) by now exists y.
  unfold max, min, spread, sum, average, sum, isEmpty, Math_max, Math_min.
  destruct list as [|x rest]; [destruct Hin|]. cbn [List.length Nat.eqb].
  rewrite maxLoop_nan, minLoop_nan by assumption.
  split; [apply fold_add_nan; now right|].
  split; [apply div_nan_l, fold_add_nan; now right|].
  destruct (Nat.ltb_spec argumentLimit (S (List.length rest))) as [Hlong | Hshort];
    split; assumption || reflexivity.
Qed.

Lemma nan_is_contagious_witness :
  isNaN (sum [1; nan; 3]%float) = true /\ isNaN (average [1; nan; 3]%float) = true
  /\ max 100 [1; nan; 3]%float = Value nan
  /\ min 100 [1; nan; 3]%float = Value nan.
Proof.
  pose proof (nan_is_contagious 100 [1; nan; 3]%float nan
                ltac:(right; now left) eq_refl) as (Hsum & Haverage & _ & _).
  split; [exact Hsum|]. split; [exact Haverage|]. split; reflexivity.
Defined.

End MathListFacts.

Module ExactFacts.
Import JS MathUtil Exact.
#[local] Open Scope nat_scope.

Lemma scaledAt_entryOf (k m : nat) :
  scaledAt (entryOf k) m = Math_round (cents k * pow10 m)%float.
Proof. destruct m as [|[|[|m]]]; reflexivity. Qed.

Lemma powAt_pow10 (m : nat) : powAt (pow10 0) (pow10 1) (pow10 2) m = pow10 m.
Proof. destruct m as [|[|[|m]]]; reflexivity. Qed.

Lemma combine_map_seq {A B} (f : nat -> A) (g : nat -> B) (n n' a b : nat) :
  n <= n' ->
  combine (map f (seq a n)) (map g (seq b n'))
  = map (fun j => (f (a + j), g (b + j))) (seq 0 n).
Proof.
  revert n' a b; induction n as [|n IH]; intros n' a b Hn; [reflexivity|].
  destruct n' as [|n']; [lia|]. cbn [seq map combine].
  rewrite !Nat.add_0_r. f_equal.
  rewrite IH by lia. rewrite <- seq_shift, map_map.
  apply map_ext. intros j. now rewrite !Nat.add_succ_r.
Qed.

Lemma sumTest_sound (i j : nat) :
  sumTest (pow10 0) (pow10 1) (pow10 2) (entryOf i) (entryOf j, cents (i + j)) = true ->
  addition (cents i) (cents j) None = cents (i + j).
Proof.
  unfold sumTest. rewrite !scaledAt_entryOf, powAt_pow10.
  intros H. apply FloatAxioms.Leibniz.eqb_spec in H. exact H.
Qed.

Lemma differenceTest_sound (i d : nat) (x y : number) :
  differenceTest (pow10 0) (pow10 1) (pow10 2) (entryOf i) (entryOf (i + d), (x, y)) = true ->
  subtraction (cents (i + d)) (cents i) None = x
  /\ subtraction (cents i) (cents (i + d)) None = y.
Proof.
  unfold differenceTest. rewrite !scaledAt_entryOf, powAt_pow10.
  intros H. apply andb_prop in H. destruct H as [Hx Hy].
  apply FloatAxioms.Leibniz.eqb_spec in Hx, Hy. split.
  - exact Hx.
  - rewrite <- Hy. unfold subtraction, roundDecimal. now rewrite Nat.max_comm.
Qed.

Lemma checkSums_sound (n i : nat) :
  checkSums n = true -> i < n ->
  (forall j, j < n -> addition (cents i) (cents j) None = cents (i + j))
  /\ (forall d, i + d < n ->
        subtraction (cents (i + d)) (cents i) None = cents d
        /\ (0 < d -> subtraction (cents i) (cents (i + d)) None = negCents d)).
Proof.
  unfold checkSums. intros Hcheck Hi.
  rewrite forallb_forall in Hcheck.
  specialize (Hcheck i ltac:(apply in_seq; lia)).
  apply andb_prop in Hcheck. destruct Hcheck as [Hsum Hdiff].
  rewrite forallb_forall in Hsum, Hdiff. split.
  - intros j Hj. apply sumTest_sound, Hsum.
    rewrite skipn_map, skipn_seq, combine_map_seq by lia.
    apply in_map_iff. exists j. split; [reflexivity | apply in_seq; lia].
  - intros d Hd.
    assert (Hin : In (entryOf (i + d),
                      (cents d, if (d =? 0) then cents 0 else negCents d))
                     (combine (skipn i (map entryOf (seq 0 n)))
                        (map (fun d => (cents d, if (d =? 0) then cents 0 else negCents d))
                           (seq 0 n)))).
    { rewrite skipn_map, skipn_seq, combine_map_seq by lia.
      apply in_map_iff. exists d. split; [reflexivity | apply in_seq; lia]. }
    apply Hdiff, differenceTest_sound in Hin. destruct Hin as [Hx Hy].
    split; [exact Hx|]. intros Hpos. rewrite Hy.
    destruct (Nat.eqb_spec d 0); [lia | reflexivity].
Qed.

Lemma checkSums_1000 : checkSums 1000 = true.
Proof. vm_compute. reflexivity. Qed.

(** X10.  The sum of two amounts of up to 9.99 with two decimals
    is the number that the decimal sum denotes: no digit is lost, as in
    [0.1 + 0.2]. *)
Theorem addition_exact_on_cents (i j : nat) :
  i < 1000 -> j < 1000 -> addition (cents i) (cents j) None = cents (i + j).
Proof.
  intros Hi Hj. now apply (checkSums_sound 1000 i checkSums_1000 Hi).
Qed.

Lemma addition_exact_on_cents_witness :
  addition 0.1%float 0.2%float None = 0.3%float.
Proof.
  exact (addition_exact_on_cents 10 20 (proj1 (Nat.ltb_lt 10 1000) eq_refl)
           (proj1 (Nat.ltb_lt 20 1000) eq_refl)).
Defined.

(** X11.  The difference of two such amounts is the number
    that the decimal difference denotes, whichever of the two is larger. *)
Theorem subtraction_exact_on_cents (i d : nat) :
  i + d < 1000 ->
  subtraction (cents (i + d)) (cents i) None = cents d
  /\ (0 < d -> subtraction (cents i) (cents (i + d)) None = negCents d).
Proof.
  intros Hd. apply (checkSums_sound 1000 i checkSums_1000); lia.
Qed.

Lemma subtraction_exact_on_cents_witness :
  subtraction 0.3%float 0.1%float None = 0.2%float
  /\ subtraction 0.1%float 0.3%float None = (-0.2)%float.
Proof.
  destruct (subtraction_exact_on_cents 10 20 (proj1 (Nat.ltb_lt 30 1000) eq_refl))
    as [Hup Hdown].
  split; [exact Hup | exact (Hdown (proj1 (Nat.ltb_lt 0 20) eq_refl))].
Defined.

Lemma powAt4_pow10 (m : nat) :
  powAt4 (pow10 0) (pow10 1) (pow10 2) (pow10 3) (pow10 4) m = pow10 m.
Proof. destruct m as [|[|[|[|[|m]]]]]; reflexivity. Qed.

Lemma productTest_sound (i j : nat) :
  productTest (pow10 0) (pow10 1) (pow10 2) (pow10 3) (pow10 4) i (entryOf i)
    (j, entryOf j) = true ->
  multiplication (cents i) (cents j) None = ofDecimal false (Z.of_nat i * Z.of_nat j)%Z (-4)
  /\ (0 < j ->
      divisionOperation (cents i) (cents j) None
      = Returns (ofFraction false (Z.of_nat i) (Z.of_nat j))).
Proof.
  unfold productTest. rewrite !scaledAt_entryOf, powAt4_pow10.
  intros H. apply andb_prop in H. destruct H as [Hmul Hdiv].
  apply FloatAxioms.Leibniz.eqb_spec in Hmul. split; [exact Hmul|].
  intros Hj. destruct (Nat.eqb_spec j 0) as [-> | _]; [lia|].
  cbn [orb] in Hdiv. apply andb_prop in Hdiv. destruct Hdiv as [Hnz Hq].
  apply FloatAxioms.Leibniz.eqb_spec in Hq.
  unfold divisionOperation, roundDecimal.
  change (amount (entryOf j)) with (cents j) in Hnz.
  apply negb_true_iff in Hnz. rewrite Hnz. now rewrite <- Hq.
Qed.

Lemma checkProducts_sound (n i j : nat) :
  checkProducts n = true -> i < n -> j < n ->
  multiplication (cents i) (cents j) None = ofDecimal false (Z.of_nat i * Z.of_nat j)%Z (-4)
  /\ (0 < j ->
      divisionOperation (cents i) (cents j) None
      = Returns (ofFraction false (Z.of_nat i) (Z.of_nat j))).
Proof.
  unfold checkProducts. intros Hcheck Hi Hj.
  rewrite forallb_forall in Hcheck.
  specialize (Hcheck i ltac:(apply in_seq; lia)).
  rewrite forallb_forall in Hcheck.
  apply productTest_sound, Hcheck.
  rewrite <- (map_id (seq 0 n)) at 1. rewrite combine_map_seq by lia.
  apply in_map_iff. exists j. split; [reflexivity | apply in_seq; lia].
Qed.

Lemma checkProducts_100 : checkProducts 100 = true.
Proof. vm_compute. reflexivity. Qed.

(** X12.  The product of two amounts below 1 with two
    decimals is the number that the four-decimal product denotes. *)
Theorem multiplication_exact_on_cents (i j : nat) :
  i < 100 -> j < 100 ->
  multiplication (cents i) (cents j) None = ofDecimal false (Z.of_nat i * Z.of_nat j)%Z (-4).
Proof.
  intros Hi Hj. now apply (checkProducts_sound 100 i j checkProducts_100 Hi Hj).
Qed.

Lemma multiplication_exact_on_cents_witness :
  multiplication 0.1%float 0.2%float None = 0.02%float.
Proof.
  exact (multiplication_exact_on_cents 10 20 (proj1 (Nat.ltb_lt 10 100) eq_refl)
           (proj1 (Nat.ltb_lt 20 100) eq_refl)).
Defined.

(** X13.  The quotient of two such amounts, the divisor
    not zero, is the number nearest to the quotient of the two counts of
    hundredths: it is rounded once. *)
Theorem divisionOperation_exact_on_cents (i j : nat) :
  i < 100 -> 0 < j < 100 ->
  divisionOperation (cents i) (cents j) None
  = Returns (ofFraction false (Z.of_nat i) (Z.of_nat j)).
Proof.
  intros Hi [Hpos Hj].
  now apply (checkProducts_sound 100 i j checkProducts_100 Hi Hj).
Qed.

Lemma divisionOperation_exact_on_cents_witness :
  divisionOperation 0.3%float 0.1%float None = Returns 3%float.
Proof.
  exact (divisionOperation_exact_on_cents 30 10 (proj1 (Nat.ltb_lt 30 100) eq_refl)
           (conj (proj1 (Nat.ltb_lt 0 10) eq_refl) (proj1 (Nat.ltb_lt 10 100) eq_refl))).
Defined.

End ExactFacts.

Module ArithmeticFacts.
Import JS MathUtil.
#[local] Open Scope float_scope.

Lemma SFadd_comm (x y : spec_float) : SF64add x y = SF64add y x.
Proof.
  unfold SF64add, SFadd.
  destruct x as [sx|sx| |sx mx ex], y as [sy|sy| |sy my ey]; try reflexivity;
    try (destruct sx, sy; reflexivity).
  now rewrite (Z.min_comm ex ey), Z.add_comm.
Qed.

Lemma add_comm (x y : number) : x + y = y + x.
Proof. apply Prim2SF_inj. rewrite !add_spec. apply SFadd_comm. Qed.

Lemma SFmul_comm (x y : spec_float) : SF64mul x y = SF64mul y x.
Proof.
  unfold SF64mul, SFmul.
  destruct x as [sx|sx| |sx mx ex], y as [sy|sy| |sy my ey]; try reflexivity;
    try (now rewrite xorb_comm).
  now rewrite xorb_comm, Pos.mul_comm, Z.add_comm.
Qed.

Lemma mul_comm (x y : number) : x * y = y * x.
Proof. apply Prim2SF_inj. rewrite !mul_spec. apply SFmul_comm. Qed.

(** X14.  Neither depends on the order of its
    two operands. *)
Theorem addition_multiplication_commute (num1 num2 : number) (decimal : option nat) :
  addition num1 num2 decimal = addition num2 num1 decimal
  /\ multiplication num1 num2 decimal = multiplication num2 num1 decimal.
Proof.
  unfold addition, multiplication. split.
  - now rewrite Nat.max_comm, add_comm.
  - now rewrite Nat.add_comm, mul_comm.
Qed.

(** X15.  On [Infinity] the loop that cuts the value into
    segments of four digits does not end, however many turns it is given:
    the call does not return. *)
Theorem numberToChinese_Infinity_diverges :
  (forall fuel segments, segmentsLoop fuel infinity segments = None)
  /\ numberToChinese (OfNumber infinity) = None
  /\ numberToChinese (OfNumber neg_infinity) = None
  /\ numberToChinese (OfString "Infinity") = None.
Proof.
  assert (Hloop : forall fuel segments, segmentsLoop fuel infinity segments = None).
  { induction fuel as [|fuel IH]; intros segments; cbn [segmentsLoop];
      change (gt infinity 0) with true; cbv iota; [reflexivity|].
    change (Math_floor (infinity / 10000)) with infinity. apply IH. }
  split; [exact Hloop|].
  assert (Hcall : forall num,
             truthy (String_ num) = true ->
             isNaN (StringToNumber (String_ num)) = false ->
             strictEq (StringToNumber (String_ num)) 0 = false ->
             PrimFloat.abs (StringToNumber (String_ num)) = infinity ->
             numberToChinese num = None).
  { intros num Ht Hn Hz Habs. unfold numberToChinese.
    rewrite Ht, Hn, Hz, Habs. cbn [negb orb]. now rewrite Hloop. }
  repeat split; apply Hcall; vm_compute; reflexivity.
Qed.

End ArithmeticFacts.

Module BytesFacts.
Import JS Bytes OrderFacts.
#[local] Open Scope float_scope.

Section Host.
Variable Math_log : number -> number.
Variable Math_pow : number -> number -> number.

(** ECMA-262 21.3.2.20: the logarithm of zero is [-Infinity]; that of 1024
    is some positive finite number. *)
Hypothesis log_zero : Math_log 0 = neg_infinity.
Hypothesis log_1024 : lt 0 (Math_log 1024) = true /\ lt (Math_log 1024) infinity = true.
(** ECMA-262 6.1.6.1.3: a base above 1 to the power [-Infinity] is [+0]. *)
Hypothesis pow_neg_infinity : Math_pow 1024 neg_infinity = 0.

Lemma positive_finite (x : number) :
  lt 0 x = true -> lt x infinity = true ->
  exists m e, Prim2SF x = S754_finite false m e.
Proof.
  unfold lt. rewrite !ltb_spec.
  replace (Prim2SF 0) with (S754_zero false) by (vm_compute; reflexivity).
  replace (Prim2SF infinity) with (S754_infinity false) by (vm_compute; reflexivity).
  destruct (Prim2SF x) as [s|s| |s m e]; cbn; try discriminate.
  - destruct s; discriminate.
  - destruct s; try discriminate. intros _ _. now exists m, e.
Qed.

Lemma nan_mul (x y : number) : isNaN x = true -> isNaN (x * y) = true.
Proof. rewrite !isNaN_true, mul_spec. intros ->. reflexivity. Qed.

Lemma nan_div (x y : number) : isNaN x = true -> isNaN (x / y) = true.
Proof. rewrite !isNaN_true, div_spec. intros ->. reflexivity. Qed.

Lemma nan_round (x : number) : isNaN x = true -> Math_round x = x.
Proof. rewrite isNaN_true. unfold Math_round. now intros ->. Qed.

Lemma nan_eq (x : number) : isNaN x = true -> x = nan.
Proof. rewrite isNaN_true. intros H. apply Prim2SF_inj. now rewrite H. Qed.

(** X16.  Zero bytes are printed as ["NaN undefined"], with
    any number of digits: the logarithm of zero is [-Infinity], which is
    no index of a unit, and zero divided by [1024] to that power is
    [NaN]. *)
Theorem formatBytes_zero (digits : option number) :
  formatBytes Math_log Math_pow 0 digits = "NaN undefined".
Proof.
  unfold formatBytes. change (lt 0 0) with false. cbv iota.
  destruct log_1024 as [Hpos Hfin].
  destruct (positive_finite _ Hpos Hfin) as (m & e & HL).
  assert (Hidx : Math_log 0 / Math_log 1024 = neg_infinity).
  { apply Prim2SF_inj. rewrite div_spec, log_zero, HL. reflexivity. }
  rewrite Hidx. change (Math_floor neg_infinity) with neg_infinity.
  change (strictEq neg_infinity 0) with false. cbv iota.
  rewrite pow_neg_infinity.
  set (p := Math_pow 10 _).
  assert (Hnan : isNaN (Math_round (0 / 0 * p) / p) = true).
  { apply nan_div. rewrite nan_round; apply nan_mul; reflexivity. }
  rewrite (nan_eq _ Hnan). vm_compute. reflexivity.
Qed.

End Host.

Lemma formatBytes_zero_witness :
  formatBytes (fun x => if strictEq x 0 then neg_infinity else 6.931471805599453)
    (fun _ _ => 0) 0 None = "NaN undefined".
Proof.
  apply formatBytes_zero; [reflexivity | split; reflexivity | reflexivity].
Defined.

End BytesFacts.

Module FormDataFacts.
Import JS FormDataUtil StringFacts.
#[local] Open Scope nat_scope.

(** Induction on a value with its elements and properties. *)
Lemma any_induction (P : any -> Prop) :
  P VUndefined -> P VNull ->
  (forall b, P (VBoolean b)) -> (forall x, P (VNumber x)) ->
  (forall s, P (VString s)) -> (forall f, P (VFile f)) ->
  (forall r items, Forall P items -> P (VArray r items)) ->
  (forall r props, Forall (fun kv => P (snd kv)) props -> P (VObject r props)) ->
  forall v, P v.
Proof.
  intros Hu Hn Hb Hx Hs Hf Harr Hobj. fix IH 1.
  intros [ | | b | x | s | f | r items | r props].
  - exact Hu.
  - exact Hn.
  - apply Hb.
  - apply Hx.
  - apply Hs.
  - apply Hf.
  - apply Harr. induction items as [|item items IHitems]; constructor.
    + apply IH.
    + exact IHitems.
  - apply Hobj. induction props as [|[k v] props IHprops]; constructor.
    + apply IH.
    + exact IHprops.
Qed.

(** ** The two functions on flat objects *)

Definition flat (v : any) : Prop :=
  match v with VArray _ _ | VObject _ _ => False | _ => True end.

Lemma appendNestedValue_flat (fileKey : string) (handleFile : option handler)
    (key : string) (v : any) (fd : FormData) :
  flat v ->
  appendNestedValue fileKey handleFile key v fd
  = match v with VUndefined | VNull => fd | _ => append key v fd end.
Proof. destruct v; cbn; tauto || reflexivity. Qed.

(** X17.  On an object whose values are
    strings, numbers, booleans, files, [null] or [undefined], and without
    options, [createFormData] builds what [formDataHander] builds. *)
Theorem createFormData_flat (obj : list (string * any)) :
  Forall (fun kv => flat (snd kv)) obj ->
  createFormData obj None = formDataHander obj.
Proof.
  unfold createFormData, formDataHander. cbn [fileKey handleFile filter existsb].
  generalize (@nil (string * entryValue)) as fd.
  induction obj as [|[key v] obj IH]; intros fd Hflat; [reflexivity|].
  inversion Hflat as [|? ? Hv Hrest]; subst. cbn [fold_left].
  rewrite appendNestedValue_flat by exact Hv.
  rewrite IH by assumption. f_equal.
Qed.

Lemma createFormData_flat_witness :
  createFormData [("username", VString "boy"); ("age", VNumber 18%float); ("note", VNull)] None
  = formDataHander [("username", VString "boy"); ("age", VNumber 18%float); ("note", VNull)].
Proof.
  apply createFormData_flat. repeat constructor.
Defined.

(** ** The filter *)

(** X18.  The filter looks at the values of the object
    itself, not at what they hold: filtering is the same as leaving out
    the properties whose value is [===] to a filter value. *)
Theorem createFormData_filter (obj : list (string * any)) (key : option string)
    (handle : option handler) (values : list any) :
  createFormData obj
    (Some {| fileKey := key; handleFile := handle; filter := Some values |})
  = createFormData
      (List.filter (fun kv => negb (existsb (strictEquals (snd kv)) values)) obj)
      (Some {| fileKey := key; handleFile := handle; filter := None |}).
Proof.
  unfold createFormData. cbn [fileKey handleFile filter existsb].
  generalize (@nil (string * entryValue)) as fd.
  induction obj as [|[k v] obj IH]; intros fd; [reflexivity|].
  cbn [fold_left List.filter snd].
  destruct (existsb (strictEquals v) values) eqn:Hv; cbn [negb].
  - replace (existsb (fun filterValue => strictEquals v filterValue) values) with true.
    apply IH.
  - cbn [fold_left].
    replace (existsb (fun filterValue => strictEquals v filterValue) values) with false.
    apply IH.
Qed.

(** ** Without a file handler *)

Section NoHandler.
Variable fileKey : string.

(** What [forEach] does with one element: a bare file, an object without
    own properties, adds nothing; anything else is handled as the value
    of [key[index]]. *)
Definition element (key : string) (acc : nat * FormData) (item : any) : nat * FormData :=
  (S (fst acc),
   match item with
   | VFile _ => snd acc
   | _ => appendNestedValue fileKey None (key ++ "[" ++ indexText (fst acc) ++ "]")
            item (snd acc)
   end).

Definition property (key : string) (fd : FormData) (kv : string * any) : FormData :=
  appendNestedValue fileKey None (key ++ "[" ++ fst kv ++ "]") (snd kv) fd.

Lemma object_unfold (key : string) (r : reference) (props : list (string * any))
    (fd : FormData) :
  appendNestedValue fileKey None key (VObject r props) fd
  = match rawFile props with
    | Some f => append fileKey (VFile f) fd
    | None => fold_left (property key) props fd
    end.
Proof.
  cbn [appendNestedValue]. destruct (rawFile props); [reflexivity|].
  revert fd. induction props as [|[k v] props IH]; intros fd; [reflexivity|].
  cbn [fold_left]. rewrite <- IH. reflexivity.
Qed.

Lemma array_unfold (key : string) (r : reference) (items : list any) (fd : FormData) :
  appendNestedValue fileKey None key (VArray r items) fd
  = snd (fold_left (element key) items (O, fd)).
Proof.
  cbn [appendNestedValue]. generalize O as index. revert fd.
  induction items as [|item items IH]; intros fd index; [reflexivity|].
  cbn [fold_left]. unfold element at 2. cbn [fst snd]. rewrite <- IH. f_equal.
  destruct item as [ | | b | x | s | f | r' items' | r' props]; try reflexivity.
  rewrite object_unfold. unfold putFile.
  destruct (rawFile props); [reflexivity|].
  revert fd. induction props as [|[k v] props IHp]; intros fd; [reflexivity|].
  cbn [fold_left]. rewrite <- IHp. unfold property. cbn [fst snd].
  now rewrite !append_assoc.
Qed.

(** An object with a [raw] property that is the file [f]. *)
Definition holdsFile (item : any) (f : file) : Prop :=
  exists r props, item = VObject r props /\ rawFile props = Some f.

Lemma fold_element_files (key : string) (items : list any) (files : list file)
    (index : nat) (fd : FormData) :
  Forall2 holdsFile items files ->
  snd (fold_left (element key) items (index, fd))
  = (fd ++ map (fun f => (fileKey, EFile f)) files)%list.
Proof.
  intros H. revert index fd.
  induction H as [|item f items files (r & props & -> & Hraw) Hrest IH]; intros index fd.
  - cbn. now rewrite app_nil_r.
  - cbn [fold_left map]. unfold element at 2. cbn [fst snd].
    rewrite object_unfold, Hraw, IH. unfold append. now rewrite <- app_assoc.
Qed.

Lemma fold_element_bare (key : string) (bare : list file) (index : nat) (fd : FormData) :
  snd (fold_left (element key) (map VFile bare) (index, fd)) = fd.
Proof.
  revert index; induction bare as [|f bare IH]; intros index; [reflexivity|].
  cbn [map fold_left]. unfold element at 2. cbn [fst snd]. apply IH.
Qed.

(** The names of the entries a value adds: the file key, or the key of the
    value with something after it. *)
Definition named (key : string) (e : string * entryValue) : Prop :=
  fst e = fileKey \/ exists suffix, fst e = key ++ suffix.

Definition adds (key : string) (fd fd' : FormData) : Prop :=
  exists added, fd' = (fd ++ added)%list /\ Forall (named key) added.

Lemma adds_refl (key : string) (fd : FormData) : adds key fd fd.
Proof. exists []. split; [now rewrite app_nil_r | constructor]. Qed.

Lemma adds_trans (key : string) (fd fd' fd'' : FormData) :
  adds key fd fd' -> adds key fd' fd'' -> adds key fd fd''.
Proof.
  intros (a & -> & Ha) (b & -> & Hb). exists (a ++ b)%list.
  split; [now rewrite app_assoc | now apply Forall_app].
Qed.

Lemma adds_nested (key inner : string) (fd fd' : FormData) :
  adds (key ++ inner) fd fd' -> adds key fd fd'.
Proof.
  intros (a & -> & Ha). exists a. split; [reflexivity|].
  eapply Forall_impl; [|exact Ha].
  intros e [He | (suffix & He)]; [now left | right].
  exists (inner ++ suffix). now rewrite He, append_assoc.
Qed.

Lemma adds_append_key (key : string) (v : any) (fd : FormData) :
  adds key fd (append key v fd).
Proof.
  eexists. split; [reflexivity|]. constructor; [|constructor].
  right. exists "". cbn [fst]. now rewrite append_nil_r.
Qed.

Lemma adds_append_file (key : string) (v : any) (fd : FormData) :
  adds key fd (append fileKey v fd).
Proof. eexists. split; [reflexivity|]. constructor; [now left | constructor]. Qed.

Lemma appendNestedValue_adds (v : any) :
  forall key fd, adds key fd (appendNestedValue fileKey None key v fd).
Proof.
  induction v as [ | | b | x | s | f | r items IH | r props IH] using any_induction;
    intros key fd; try apply adds_refl; try apply adds_append_key.
  - rewrite array_unfold. generalize O as index. revert fd.
    induction IH as [|item items Hitem Hitems IHitems]; intros fd index;
      [apply adds_refl|].
    cbn [fold_left]. eapply adds_trans; [|apply IHitems].
    unfold element. cbn [fst snd].
    destruct item; try apply adds_refl;
      apply (adds_nested key ("[" ++ indexText index ++ "]")); apply Hitem.
  - rewrite object_unfold. destruct (rawFile props); [apply adds_append_file|].
    revert fd. induction IH as [|[k v] props Hv Hprops IHprops]; intros fd;
      [apply adds_refl|].
    cbn [fold_left]. eapply adds_trans; [|apply IHprops].
    unfold property. cbn [fst snd].
    apply (adds_nested key ("[" ++ k ++ "]")). apply Hv.
Qed.

End NoHandler.

Definition fileKeyOf (key : option string) : string :=
  match key with Some k => k | None => "file" end.

(** X19.  Files in an array, without a file handler: an
    element that holds its file under [raw] is appended under the file
    key, not under the key of the array; a file that is itself the element
    is left out. *)
Theorem createFormData_files (key : string) (fk : option string) (r : reference)
    (items : list any) (files bare : list file) :
  Forall2 holdsFile items files ->
  let options := Some {| fileKey := fk; handleFile := None; filter := None |} in
  createFormData [(key, VArray r items)] options
  = map (fun f => (fileKeyOf fk, EFile f)) files
  /\ createFormData [(key, VArray r (map VFile bare))] options = [].
Proof.
  intros Hitems options. unfold createFormData, options.
  cbn [fileKey handleFile filter existsb fold_left]. fold (fileKeyOf fk). split.
  - rewrite array_unfold. now rewrite (fold_element_files _ key items files).
  - rewrite array_unfold. apply fold_element_bare.
Qed.

Lemma createFormData_files_witness :
  createFormData [("files", VArray 1 [VObject 2 [("raw", VFile (File 7))]; VObject 3 [("raw", VFile (Blob 8))]])]
    (Some {| fileKey := None; handleFile := None; filter := None |})
  = [("file", EFile (File 7)); ("file", EFile (Blob 8))]
  /\ createFormData [("files", VArray 1 [VFile (File 7); VFile (Blob 8)])]
       (Some {| fileKey := None; handleFile := None; filter := None |}) = [].
Proof.
  apply (createFormData_files "files" None 1
           [VObject 2 [("raw", VFile (File 7))]; VObject 3 [("raw", VFile (Blob 8))]] [File 7; Blob 8] [File 7; Blob 8]).
  repeat constructor; eexists; eexists; split; reflexivity.
Defined.

(** X20.  Without a file handler, every entry is named by
    the file key or by a key of the object followed by the path to the
    value: no other name is written. *)
Theorem createFormData_names (obj : list (string * any)) (fk : option string)
    (values : option (list any)) :
  Forall (fun e => fst e = fileKeyOf fk
                   \/ exists key suffix, In key (map fst obj) /\ fst e = key ++ suffix)
    (createFormData obj (Some {| fileKey := fk; handleFile := None; filter := values |})).
Proof.
  unfold createFormData. cbn [fileKey handleFile filter]. fold (fileKeyOf fk).
  set (good := fun (obj : list (string * any)) (e : string * entryValue) =>
                 fst e = fileKeyOf fk
                 \/ exists key suffix, In key (map fst obj) /\ fst e = key ++ suffix).
  change (Forall (good obj) (fold_left
    (fun formData '(key, value) =>
       if existsb (fun filterValue => strictEquals value filterValue)
            match values with Some l => l | None => [] end
       then formData
       else appendNestedValue (fileKeyOf fk) None key value formData) obj [])).
  assert (Hgen : forall done fd,
             Forall (good (done ++ obj)%list) fd ->
             Forall (good (done ++ obj)%list) (fold_left
               (fun formData '(key, value) =>
                  if existsb (fun filterValue => strictEquals value filterValue)
                       match values with Some l => l | None => [] end
                  then formData
                  else appendNestedValue (fileKeyOf fk) None key value formData) obj fd)).
  { induction obj as [|[k v] obj IH]; intros done fd Hfd; [exact Hfd|].
    cbn [fold_left].
    replace (done ++ (k, v) :: obj)%list with ((done ++ [(k, v)]) ++ obj)%list
      by now rewrite <- app_assoc.
    apply IH. rewrite <- app_assoc. cbn [app].
    destruct (existsb _ _); [exact Hfd|].
    destruct (appendNestedValue_adds (fileKeyOf fk) v k fd) as (added & -> & Hadded).
    apply Forall_app. split; [exact Hfd|].
    eapply Forall_impl; [|exact Hadded].
    intros e [He | (suffix & He)]; [now left | right].
    exists k, suffix. split; [|exact He].
    rewrite map_app. apply in_or_app. right. now left. }
  apply (Hgen [] []). constructor.
Qed.

End FormDataFacts.

Module CoordTripsFacts.
Import Coord CoordTrips CoordFacts.

(** ** binary64: coordinates that are not numbers *)

Lemma ltb_nan_l (x y : float) : JS.isNaN x = true -> PrimFloat.ltb x y = false.
Proof.
  rewrite OrderFacts.isNaN_true, ltb_spec. intros ->. reflexivity.
Qed.

Lemma ltb_nan_r (x y : float) : JS.isNaN y = true -> PrimFloat.ltb x y = false.
Proof.
  rewrite OrderFacts.isNaN_true, ltb_spec. intros ->.
  unfold SFltb, SFcompare. now destruct (Prim2SF x).
Qed.

(** X21.  In binary64, with any host [sin],
    [cos] and [atan2]: a coordinate that is [NaN] is outside the box, and
    both transforms return the pair as it is. *)
Theorem NaN_is_out_of_china (hostSin hostCos : float -> float)
    (hostAtan2 : float -> float -> float) (lng lat : float) :
  JS.isNaN lng = true \/ JS.isNaN lat = true ->
  @out_of_china float (binary64 hostSin hostCos hostAtan2) lng lat = true
  /\ @wgs84togcj02 float (binary64 hostSin hostCos hostAtan2) lng lat = (lng, lat)
  /\ @gcj02towgs84 float (binary64 hostSin hostCos hostAtan2) lng lat = (lng, lat).
Proof.
  intros Hnan.
  assert (Hout : @out_of_china float (binary64 hostSin hostCos hostAtan2) lng lat = true).
  { unfold out_of_china. cbn [gtb ltb binary64].
    destruct Hnan as [Hn | Hn].
    - now rewrite (ltb_nan_r _ lng Hn).
    - rewrite (ltb_nan_r _ lat Hn). now rewrite !andb_false_r. }
  unfold wgs84togcj02, gcj02towgs84. rewrite Hout. repeat split; assumption || reflexivity.
Qed.

Lemma NaN_is_out_of_china_witness :
  @wgs84togcj02 float (binary64 (fun x => x) (fun x => x) (fun y x => y)) nan 39.9%float
  = (nan, 39.9%float).
Proof.
  exact (proj1 (proj2 (NaN_is_out_of_china (fun x => x) (fun x => x) (fun y x => y)
                         nan 39.9%float (or_introl eq_refl)))).
Defined.

(** ** The exact reading: BD-09 against GCJ-02 *)

#[local] Open Scope R_scope.
#[local] Abbreviation pi := Rtrigo1.PI.

(** The radius and the angle [gcj02tobd09] computes. *)
Definition zIn (x y : R) : R :=
  R_sqrt.sqrt (x * x + y * y) + radiusTerm * Rtrigo_def.sin (y * X_PI).
Definition thetaIn (x y : R) : R :=
  atan (y / x) + angleTerm * Rtrigo_def.cos (x * X_PI).

Lemma polar_in (x y : R) :
  73 < x < 136 -> 3 < y < 54 ->
  let r := R_sqrt.sqrt (x * x + y * y) in
  let phi := atan (y / x) in
  Rabs (zIn x y - r) <= radiusTerm /\ Rabs (thetaIn x y - phi) <= angleTerm.
Proof.
  intros Hx Hy r phi.
  destruct constants as (_ & _ & Ha & Hb & _).
  split.
  - unfold zIn. fold r.
    replace (r + radiusTerm * Rtrigo_def.sin (y * X_PI) - r)
      with (radiusTerm * Rtrigo_def.sin (y * X_PI)) by ring.
    rewrite Rabs_mult, (Rabs_right radiusTerm) by lra.
    pose proof (SIN_bound (y * X_PI)).
    assert (Rabs (Rtrigo_def.sin (y * X_PI)) <= 1) by (apply Rabs_le; lra).
    nra.
  - unfold thetaIn. fold phi.
    replace (phi + angleTerm * Rtrigo_def.cos (x * X_PI) - phi)
      with (angleTerm * Rtrigo_def.cos (x * X_PI)) by ring.
    rewrite Rabs_mult, (Rabs_right angleTerm) by lra.
    pose proof (COS_bound (x * X_PI)).
    assert (Rabs (Rtrigo_def.cos (x * X_PI)) <= 1) by (apply Rabs_le; lra).
    nra.
Qed.

(** A point whose radius and angle are off by at most the two terms is
    off by less than 0.00047 in each coordinate. *)
Lemma near_polar (x y z theta : R) :
  73 < x < 136 -> 3 < y < 54 ->
  Rabs (z - R_sqrt.sqrt (x * x + y * y)) <= radiusTerm ->
  Rabs (theta - atan (y / x)) <= angleTerm ->
  Rabs (z * Rtrigo_def.cos theta - x) <= 47 / 100000
  /\ Rabs (z * Rtrigo_def.sin theta - y) <= 47 / 100000.
Proof.
  intros Hx Hy Hz Ht.
  destruct constants as (_ & _ & Ha & Hb & _).
  destruct (polar_in_box x y Hx Hy) as (Hxr & Hyr & Hr & _).
  set (r := R_sqrt.sqrt (x * x + y * y)) in *.
  set (phi := atan (y / x)) in *.
  pose proof (Rabs_pos (theta - phi)).
  split.
  - replace (z * Rtrigo_def.cos theta - x)
      with (z * Rtrigo_def.cos theta - r * Rtrigo_def.cos phi)
      by (rewrite <- Hxr; reflexivity).
    eapply Rle_trans; [apply TrigFacts.polar_cos_diff|].
    rewrite (Rabs_right r) by lra. nra.
  - replace (z * Rtrigo_def.sin theta - y)
      with (z * Rtrigo_def.sin theta - r * Rtrigo_def.sin phi)
      by (rewrite <- Hyr; reflexivity).
    eapply Rle_trans; [apply TrigFacts.polar_sin_diff|].
    rewrite (Rabs_right r) by lra. nra.
Qed.

Lemma gcj02tobd09_polar (lng lat : R) :
  0 < lng ->
  gcj02tobd09 lng lat
  = (zIn lng lat * Rtrigo_def.cos (thetaIn lng lat) + offsetLng,
     zIn lng lat * Rtrigo_def.sin (thetaIn lng lat) + offsetLat).
Proof.
  intros Hx. unfold gcj02tobd09.
  cbn [add sub mul div sqrt sin cos atan2 exact].
  rewrite (Ratan2_right lat lng Hx). reflexivity.
Qed.

Lemma bd09togcj02_polar (x y : R) :
  0 < x ->
  bd09togcj02 (x + offsetLng) (y + offsetLat)
  = (zOut x y * Rtrigo_def.cos (thetaOut x y),
     zOut x y * Rtrigo_def.sin (thetaOut x y)).
Proof.
  intros Hx. unfold bd09togcj02.
  cbn [add sub mul div sqrt sin cos atan2 exact].
  fold offsetLng offsetLat radiusTerm angleTerm.
  replace (x + offsetLng - offsetLng) with x by ring.
  replace (y + offsetLat - offsetLat) with y by ring.
  rewrite (Ratan2_right y x Hx). reflexivity.
Qed.

(** X22.  In exact arithmetic and inside the
    box, BD-09 is GCJ-02 moved by 0.0065 degrees of longitude and 0.006
    of latitude, up to 0.0005 degrees: that is what either transform adds
    or takes away. *)
Theorem bd09_is_gcj02_shifted (lng lat : R) :
  out_of_china lng lat = false ->
  within (5 / 10000) (gcj02tobd09 lng lat) (lng + 65 / 10000) (lat + 6 / 1000)
  /\ within (5 / 10000) (bd09togcj02 lng lat) (lng - 65 / 10000) (lat - 6 / 1000).
Proof.
  intros Hin. apply out_of_china_false in Hin. destruct Hin as [Hlng Hlat].
  destruct constants as (Hol & Hot & _).
  unfold within. split.
  - assert (Hx : 73 < lng < 136) by lra. assert (Hy : 3 < lat < 54) by lra.
    destruct (polar_in lng lat Hx Hy) as [Hz Ht].
    destruct (near_polar lng lat _ _ Hx Hy Hz Ht) as [Hc Hs].
    rewrite gcj02tobd09_polar by lra. cbn [fst snd]. rewrite Hol, Hot.
    split.
    + replace (zIn lng lat * Rtrigo_def.cos (thetaIn lng lat) + 65 / 10000
               - (lng + 65 / 10000))
        with (zIn lng lat * Rtrigo_def.cos (thetaIn lng lat) - lng) by ring. lra.
    + replace (zIn lng lat * Rtrigo_def.sin (thetaIn lng lat) + 6 / 1000
               - (lat + 6 / 1000))
        with (zIn lng lat * Rtrigo_def.sin (thetaIn lng lat) - lat) by ring. lra.
  - set (x := lng - offsetLng). set (y := lat - offsetLat).
    assert (Hx : 73 < x < 136) by (unfold x; lra).
    assert (Hy : 3 < y < 54) by (unfold y; lra).
    destruct (polar_in_box x y Hx Hy) as (_ & _ & _ & _ & Hz & Ht).
    destruct (near_polar x y _ _ Hx Hy Hz Ht) as [Hc Hs].
    assert (Hback : bd09togcj02 lng lat
                    = (zOut x y * Rtrigo_def.cos (thetaOut x y),
                       zOut x y * Rtrigo_def.sin (thetaOut x y))).
    { rewrite <- bd09togcj02_polar by lra. f_equal; unfold x, y; ring. }
    rewrite Hback. cbn [fst snd].
    replace (lng - 65 / 10000) with x by (unfold x; lra).
    replace (lat - 6 / 1000) with y by (unfold y; lra).
    split; lra.
Qed.

Lemma bd09_is_gcj02_shifted_witness :
  within (5 / 10000) (gcj02tobd09 (116397128 / 1000000) (39916527 / 1000000))
    (116397128 / 1000000 + 65 / 10000) (39916527 / 1000000 + 6 / 1000)
  /\ within (5 / 10000) (bd09togcj02 (116397128 / 1000000) (39916527 / 1000000))
       (116397128 / 1000000 - 65 / 10000) (39916527 / 1000000 - 6 / 1000).
Proof. exact (bd09_is_gcj02_shifted _ _ out_of_china_beijing). Defined.

(** ** The exact reading: the round trip through BD-09 *)

(** X23.  In exact arithmetic the round trip
    from GCJ-02 through BD-09 gives back every point of the box up to
    0.00002 degrees in each coordinate, as the round trip the other way
    does. *)
Theorem roundTripBack_recovers_approximately (lng lat : R) :
  out_of_china lng lat = false ->
  within (2 / 100000) (roundTripBack lng lat) lng lat.
Proof.
  intros Hin. apply out_of_china_false in Hin. destruct Hin as [Hlng Hlat].
  destruct constants as (Hol & Hot & Ha & Hb & Hc).
  assert (Hx : 73 < lng < 136) by lra. assert (Hy : 3 < lat < 54) by lra.
  destruct (polar_in_box lng lat Hx Hy) as (Hxr & Hyr & Hr & Hphi & _).
  destruct (polar_in lng lat Hx Hy) as [Hz Ht].
  destruct (near_polar lng lat _ _ Hx Hy Hz Ht) as [Hcos Hsin].
  set (r := R_sqrt.sqrt (lng * lng + lat * lat)) in *.
  set (phi := atan (lat / lng)) in *.
  set (z := zIn lng lat) in *. set (theta := thetaIn lng lat) in *.
  pose proof TrigFacts.PI_gt_3 as Hpi.
  pose proof (TrigFacts.Rabs_bound _ _ Hz) as Hzb.
  pose proof (TrigFacts.Rabs_bound _ _ Ht) as Htb.
  assert (Hzpos : 0 < z) by lra.
  assert (Htheta : - (pi / 2) < theta < pi / 2) by lra.
  destruct (TrigFacts.point_of_polar z theta Hzpos Htheta) as (Hrad & Hang & Hpos).
  set (x' := z * Rtrigo_def.cos theta) in *.
  set (y' := z * Rtrigo_def.sin theta) in *.
  assert (Htrip : roundTripBack lng lat
                  = (zOut x' y' * Rtrigo_def.cos (thetaOut x' y'),
                     zOut x' y' * Rtrigo_def.sin (thetaOut x' y'))).
  { unfold roundTripBack. rewrite gcj02tobd09_polar by lra.
    fold z theta x' y'. now rewrite bd09togcj02_polar. }
  assert (Hc0 : 0 <= (X_PI : R)) by lra.
  assert (Hzo : Rabs (zOut x' y' - r) <= 5 / 10000000).
  { unfold zOut. rewrite Hrad.
    replace (z - radiusTerm * Rtrigo_def.sin (y' * X_PI) - r)
      with (radiusTerm * (Rtrigo_def.sin (lat * X_PI) - Rtrigo_def.sin (y' * X_PI)))
      by (unfold z, zIn; fold r; ring).
    rewrite Rabs_mult, (Rabs_right radiusTerm) by lra.
    pose proof (TrigFacts.sin_scaled_diff X_PI lat y' Hc0) as Hs.
    rewrite <- Rabs_Ropp in Hsin.
    replace (- (y' - lat)) with (lat - y') in Hsin by ring.
    pose proof (Rabs_pos (lat - y')). nra. }
  assert (Hto : Rabs (thetaOut x' y' - phi) <= 8 / 100000000).
  { unfold thetaOut. rewrite Hang.
    replace (theta - angleTerm * Rtrigo_def.cos (x' * X_PI) - phi)
      with (angleTerm * (Rtrigo_def.cos (lng * X_PI) - Rtrigo_def.cos (x' * X_PI)))
      by (unfold theta, thetaIn; fold phi; ring).
    rewrite Rabs_mult, (Rabs_right angleTerm) by lra.
    pose proof (TrigFacts.cos_scaled_diff X_PI lng x' Hc0) as Hs.
    rewrite <- Rabs_Ropp in Hcos.
    replace (- (x' - lng)) with (lng - x') in Hcos by ring.
    pose proof (Rabs_pos (lng - x')). nra. }
  rewrite Htrip. unfold within. cbn [fst snd].
  pose proof (Rabs_pos (thetaOut x' y' - phi)).
  split.
  - replace (zOut x' y' * Rtrigo_def.cos (thetaOut x' y') - lng)
      with (zOut x' y' * Rtrigo_def.cos (thetaOut x' y') - r * Rtrigo_def.cos phi)
      by (rewrite <- Hxr; reflexivity).
    eapply Rle_trans; [apply TrigFacts.polar_cos_diff|].
    rewrite (Rabs_right r) by lra. nra.
  - replace (zOut x' y' * Rtrigo_def.sin (thetaOut x' y') - lat)
      with (zOut x' y' * Rtrigo_def.sin (thetaOut x' y') - r * Rtrigo_def.sin phi)
      by (rewrite <- Hyr; reflexivity).
    eapply Rle_trans; [apply TrigFacts.polar_sin_diff|].
    rewrite (Rabs_right r) by lra. nra.
Qed.

Lemma roundTripBack_recovers_approximately_witness :
  within (2 / 100000) (roundTripBack (116397128 / 1000000) (39916527 / 1000000))
    (116397128 / 1000000) (39916527 / 1000000).
Proof. exact (roundTripBack_recovers_approximately _ _ out_of_china_beijing). Defined.

End CoordTripsFacts.

Module ShiftFacts.
Import Coord CoordTrips CoordFacts.
#[local] Open Scope R_scope.

Lemma quotient_bound (a d b : R) : 0 < d -> Rabs a <= b * d -> Rabs (a / d) <= b.
Proof.
  intros Hd Ha. unfold Rdiv. rewrite Rabs_mult, (Rabs_right (/ d)).
  - apply Rmult_le_reg_r with d; [assumption|].
    rewrite Rmult_assoc, Rinv_l by lra. lra.
  - left. now apply Rinv_0_lt_compat.
Qed.

Lemma sqrt_abs_bound (x : R) : Rabs x <= 36 -> 0 <= R_sqrt.sqrt (Rabs x) <= 6.
Proof.
  intros Hx. split; [apply sqrt_pos|].
  rewrite <- (sqrt_square 6) by lra. apply sqrt_le_1_alt. lra.
Qed.

Lemma transformLat_bound (x y : R) :
  -32 <= x <= 31 -> -32 <= y <= 19 -> Rabs (transformLat x y) <= 750.
Proof.
  intros Hx Hy. unfold transformLat, PI. eval_lits. cbn [sqrt abs sin exact].
  assert (Hs : 0 <= R_sqrt.sqrt (Rabs x) <= 6)
    by (apply sqrt_abs_bound; unfold Rabs; destruct (Rcase_abs x); lra).
  assert (Hyy : 0 <= y * y <= 1024) by nra.
  assert (Hxy : -1024 <= x * y <= 1024) by nra.
  repeat match goal with
         | |- context [Rtrigo_def.sin ?t] =>
             let s := fresh "s" in
             pose proof (SIN_bound t); set (s := Rtrigo_def.sin t) in *
         end.
  set (q := R_sqrt.sqrt (Rabs x)) in *.
  apply Rabs_le. split; lra.
Qed.

Lemma transformLng_bound (x y : R) :
  -32 <= x <= 31 -> -32 <= y <= 19 -> Rabs (transformLng x y) <= 942.
Proof.
  intros Hx Hy. unfold transformLng, PI. eval_lits. cbn [sqrt abs sin exact].
  assert (Hs : 0 <= R_sqrt.sqrt (Rabs x) <= 6)
    by (apply sqrt_abs_bound; unfold Rabs; destruct (Rcase_abs x); lra).
  assert (Hxx : 0 <= x * x <= 1024) by nra.
  assert (Hxy : -1024 <= x * y <= 1024) by nra.
  repeat match goal with
         | |- context [Rtrigo_def.sin ?t] =>
             let s := fresh "s" in
             pose proof (SIN_bound t); set (s := Rtrigo_def.sin t) in *
         end.
  set (q := R_sqrt.sqrt (Rabs x)) in *.
  apply Rabs_le. split; lra.
Qed.

(** The two corrections [wgs84togcj02] adds, [dlng] and [dlat]. *)
Definition dlng (lng lat : R) : R := fst (wgs84togcj02 lng lat) - lng.
Definition dlat (lng lat : R) : R := snd (wgs84togcj02 lng lat) - lat.

Lemma corrections_bound (lng lat : R) :
  out_of_china lng lat = false ->
  Rabs (dlng lng lat) <= 2 / 100 /\ Rabs (dlat lng lat) <= 1 / 100.
Proof.
  intros Hout. unfold dlng, dlat, wgs84togcj02. rewrite Hout. cbn [fst snd].
  apply out_of_china_false in Hout. destruct Hout as [Hlng Hlat].
  eval_lits. cbn [sqrt sin cos exact].
  assert (HA : (A : R) = 6378245) by (unfold A; eval_lits; lra).
  assert (HEE : 66 / 10000 < (EE : R) < 67 / 10000) by (unfold EE; eval_lits; lra).
  assert (HPI : 314 / 100 < (PI : R) < 315 / 100) by (unfold PI; eval_lits; lra).
  rewrite HA. clear HA.
  set (p := (PI : R)) in *. clearbody p.
  set (ee := (EE : R)) in *. clearbody ee.
  set (T1 := transformLat (lng - 1050 / 10) (lat - 350 / 10)).
  set (T2 := transformLng (lng - 1050 / 10) (lat - 350 / 10)).
  assert (HT1 : Rabs T1 <= 750) by (apply transformLat_bound; lra).
  assert (HT2 : Rabs T2 <= 942) by (apply transformLng_bound; lra).
  clearbody T1 T2.
  set (radlat := lat / (1800 / 10) * p).
  assert (Hrad : 0 < radlat < 94 / 100).
  { replace radlat with (lat * p / 180) by (unfold radlat; field).
    assert (Hp : 0 < lat * p < 169) by nra. lra. }
  clearbody radlat.
  pose proof (SIN_bound radlat) as Hm.
  pose proof (TrigFacts.cos_quadratic_lower radlat) as Hcos.
  pose proof (COS_bound radlat) as Hcb.
  set (m := Rtrigo_def.sin radlat) in *. clearbody m.
  set (c := Rtrigo_def.cos radlat) in *. clearbody c.
  assert (Hc : 55 / 100 <= c <= 1) by nra.
  replace (1 / 1 - ee * m * m) with (1 - ee * m * m) by lra.
  assert (Hmm : 0 <= m * m <= 1) by nra.
  assert (Hmagic : 99 / 100 <= 1 - ee * m * m <= 1) by nra.
  set (magic := 1 - ee * m * m) in *. clearbody magic.
  assert (Hsq : 99 / 100 <= R_sqrt.sqrt magic <= 1).
  { pose proof (sqrt_pos magic) as Hp.
    pose proof (sqrt_sqrt magic ltac:(lra)) as Hs.
    assert (Hle : R_sqrt.sqrt magic <= 1)
      by (rewrite <- sqrt_1; apply sqrt_le_1_alt; lra).
    split; [nra | exact Hle]. }
  set (sq := R_sqrt.sqrt magic) in *. clearbody sq.
  assert (Hq : 0 < magic * sq <= 1) by nra.
  assert (Hiq : 1 <= / (magic * sq)).
  { pose proof (Rinv_0_lt_compat _ (proj1 Hq)) as Hpos.
    pose proof (Rinv_r (magic * sq) ltac:(lra)) as Hone. nra. }
  assert (His : 1 <= / sq).
  { pose proof (Rinv_0_lt_compat sq ltac:(lra)) as Hpos.
    pose proof (Rinv_r sq ltac:(lra)) as Hone. nra. }
  split.
  - replace (lng + T2 * (1800 / 10) / (6378245 / sq * c * p) - lng)
      with (T2 * (1800 / 10) / (6378245 / sq * c * p)) by ring.
    assert (Hd : 11000000 <= 6378245 / sq * c * p).
    { unfold Rdiv. set (i := / sq) in *. clearbody i.
      assert (6378245 <= 6378245 * i) by lra.
      assert (55 / 100 * 6378245 <= 6378245 * i * c) by nra.
      nra. }
    apply quotient_bound; [lra|].
    rewrite Rabs_mult, (Rabs_right (1800 / 10)) by lra. lra.
  - replace (lat + T1 * (1800 / 10) / (6378245 * (1 / 1 - ee) / (magic * sq) * p) - lat)
      with (T1 * (1800 / 10) / (6378245 * (1 / 1 - ee) / (magic * sq) * p)) by ring.
    assert (Hd : 19000000 <= 6378245 * (1 / 1 - ee) / (magic * sq) * p).
    { unfold Rdiv. set (i := / (magic * sq)) in *. clearbody i.
      assert (6335000 <= 6378245 * (1 * / 1 - ee)) by lra.
      assert (6335000 <= 6378245 * (1 * / 1 - ee) * i) by nra.
      nra. }
    apply quotient_bound; [lra|].
    rewrite Rabs_mult, (Rabs_right (1800 / 10)) by lra. lra.
Qed.

(** X24.  In exact arithmetic, inside the box
    the correction between WGS-84 and GCJ-02 is small: either transform
    moves a point by at most 0.02 degrees of longitude and 0.01 of
    latitude. *)
Theorem gcj02_correction_is_small (lng lat : R) :
  out_of_china lng lat = false ->
  Rabs (fst (wgs84togcj02 lng lat) - lng) <= 2 / 100
  /\ Rabs (snd (wgs84togcj02 lng lat) - lat) <= 1 / 100
  /\ Rabs (fst (gcj02towgs84 lng lat) - lng) <= 2 / 100
  /\ Rabs (snd (gcj02towgs84 lng lat) - lat) <= 1 / 100.
Proof.
  intros Hout. destruct (corrections_bound lng lat Hout) as [Hlng Hlat].
  split; [exact Hlng|]. split; [exact Hlat|].
  assert (Hback : gcj02towgs84 lng lat = (lng - dlng lng lat, lat - dlat lng lat)).
  { unfold dlng, dlat, gcj02towgs84, wgs84togcj02. rewrite Hout. cbn [fst snd].
    eval_lits. replace (2 / 1) with 2 by lra. f_equal; ring. }
  rewrite Hback. cbn [fst snd].
  replace (lng - dlng lng lat - lng) with (- dlng lng lat) by ring.
  replace (lat - dlat lng lat - lat) with (- dlat lng lat) by ring.
  rewrite !Rabs_Ropp. split; assumption.
Qed.

Lemma gcj02_correction_is_small_witness :
  Rabs (fst (wgs84togcj02 (116397128 / 1000000) (39916527 / 1000000))
        - 116397128 / 1000000) <= 2 / 100
  /\ Rabs (snd (wgs84togcj02 (116397128 / 1000000) (39916527 / 1000000))
           - 39916527 / 1000000) <= 1 / 100
  /\ Rabs (fst (gcj02towgs84 (116397128 / 1000000) (39916527 / 1000000))
           - 116397128 / 1000000) <= 2 / 100
  /\ Rabs (snd (gcj02towgs84 (116397128 / 1000000) (39916527 / 1000000))
           - 39916527 / 1000000) <= 1 / 100.
Proof. exact (gcj02_correction_is_small _ _ out_of_china_beijing). Defined.

End ShiftFacts.

(* ================================================================== *)
(** * coordtransform.ts: the round trip in binary64 *)
(* ================================================================== *)

Module RoundingFacts.
Import Binary64Value.
#[local] Open Scope Z_scope.

#[local] Abbreviation p2 := (powerRZ 2).

(** ** Powers of two *)

Lemma p2_pos (e : Z) : (0 < p2 e)%R.
Proof. apply powerRZ_lt. lra. Qed.

Lemma p2_add (a b : Z) : p2 (a + b) = (p2 a * p2 b)%R.
Proof. apply powerRZ_add. lra. Qed.

Lemma p2_1 : p2 1 = 2%R.
Proof. change 1 with (Z.succ 0). apply powerRZ_1. Qed.

Lemma p2_IZR (k : Z) : 0 <= k -> p2 k = IZR (2 ^ k).
Proof.
  intros Hk. rewrite <- (Z2Nat.id k Hk) at 1 2.
  rewrite <- pow_powerRZ, pow_IZR. reflexivity.
Qed.

Lemma p2_ge_1 (k : Z) : 0 <= k -> (1 <= p2 k)%R.
Proof.
  intros Hk. rewrite p2_IZR by assumption. apply IZR_le.
  pose proof (Z.pow_pos_nonneg 2 k ltac:(lia) Hk). lia.
Qed.

Lemma p2_le (a b : Z) : a <= b -> (p2 a <= p2 b)%R.
Proof.
  intros Hab. replace b with (a + (b - a)) by lia. rewrite p2_add.
  pose proof (p2_pos a). pose proof (p2_ge_1 (b - a) ltac:(lia)). nra.
Qed.

Lemma p2_lt (a b : Z) : a < b -> (p2 a < p2 b)%R.
Proof.
  intros Hab. replace b with (a + 1 + (b - a - 1)) by lia. rewrite !p2_add.
  pose proof (p2_pos a). pose proof (p2_ge_1 (b - a - 1) ltac:(lia)).
  change (p2 1) with (2 * 1)%R. nra.
Qed.

Lemma p2_le_inv (a b : Z) : (p2 a <= p2 b)%R -> a <= b.
Proof.
  intros H. destruct (Z.le_gt_cases a b) as [Hle | Hgt]; [assumption|].
  apply p2_lt in Hgt. lra.
Qed.

Lemma p2_lt_inv (a b : Z) : (p2 a < p2 b)%R -> a < b.
Proof.
  intros H. destruct (Z.lt_ge_cases a b) as [Hlt | Hge]; [assumption|].
  apply p2_le in Hge. lra.
Qed.

(** ** The size of a mantissa *)

Lemma Zdigits2_bounds (m : Z) :
  0 < m -> 2 ^ (Zdigits2 m - 1) <= m < 2 ^ Zdigits2 m.
Proof.
  destruct m as [|p|p]; try lia. intros _. cbn [Zdigits2].
  assert (Hd : forall q, digits2_pos q = Pos.size q)
    by (induction q; cbn; congruence).
  rewrite Hd. split.
  - pose proof (Pos.size_le p) as Hle.
    replace (Z.pos (Pos.size p) - 1) with (Z.pred (Z.pos (Pos.size p))) by lia.
    apply (Z.mul_le_mono_pos_l _ _ 2); [lia|].
    rewrite <- Z.pow_succ_r by lia.
    replace (Z.succ (Z.pred (Z.pos (Pos.size p)))) with (Z.pos (Pos.size p)) by lia.
    rewrite <- Pos2Z.inj_pow. change (2 * Z.pos p) with (Z.pos p~0). lia.
  - pose proof (Pos.size_gt p) as Hgt. rewrite <- Pos2Z.inj_pow. lia.
Qed.

Lemma Zdigits2_nonneg (m : Z) : 0 <= Zdigits2 m.
Proof. destruct m; cbn; lia. Qed.

Lemma Zdigits2_0 : Zdigits2 0 = 0.
Proof. reflexivity. Qed.

(** ** Shifting right *)

Lemma shr_1_m (mrs : shr_record) :
  0 <= shr_m mrs -> shr_m (shr_1 mrs) = Z.div2 (shr_m mrs).
Proof.
  destruct mrs as [m r s]. cbn [shr_m]. intros Hm.
  destruct m as [|[p|p|]|p]; try reflexivity; lia.
Qed.

Lemma iter_shr_1_m (p : positive) :
  forall mrs, 0 <= shr_m mrs ->
              shr_m (SpecFloat.iter_pos shr_1 p mrs) = shr_m mrs / 2 ^ Z.pos p.
Proof.
  assert (Hdiv2 : forall m, 0 <= m -> 0 <= Z.div2 m)
    by (intros m Hm; rewrite Z.div2_div; apply Z.div_pos; lia).
  assert (Hnn : forall k, 0 < 2 ^ Z.pos k) by (intros k; apply Z.pow_pos_nonneg; lia).
  induction p as [p IH | p IH |]; intros mrs Hm; cbn [SpecFloat.iter_pos].
  - assert (H1 : 0 <= shr_m (shr_1 mrs)) by (rewrite shr_1_m by assumption; auto).
    assert (H2 : 0 <= shr_m (SpecFloat.iter_pos shr_1 p (shr_1 mrs))).
    { rewrite IH by assumption. apply Z.div_pos; [assumption | apply Hnn]. }
    rewrite IH, IH, shr_1_m by assumption.
    rewrite Z.div2_div, !Z.div_div by (try apply Hnn; lia).
    f_equal. change 2 with (2 ^ 1) at 1.
    rewrite <- !Z.pow_add_r by lia. f_equal. lia.
  - assert (H2 : 0 <= shr_m (SpecFloat.iter_pos shr_1 p mrs)).
    { rewrite IH by assumption. apply Z.div_pos; [assumption | apply Hnn]. }
    rewrite IH, IH by assumption.
    rewrite Z.div_div by (try apply Hnn; lia).
    f_equal. rewrite <- Z.pow_add_r by lia. f_equal. lia.
  - rewrite shr_1_m by assumption. rewrite Z.div2_div. reflexivity.
Qed.

(** ** One pass of [shr_fexp] *)

#[local] Abbreviation fexp64 := (fexp prec emax).

Lemma loc_of_record_of_loc (m : Z) (l : location) :
  loc_of_shr_record (shr_record_of_loc m l) = l
  /\ shr_m (shr_record_of_loc m l) = m.
Proof. destruct l as [|[| |]]; split; reflexivity. Qed.

Lemma shr_fexp_pass (m e : Z) (l : location) :
  0 <= m ->
  let n := fexp64 (Zdigits2 m + e) - e in
  let mrs := fst (shr_fexp prec emax m e l) in
  let e' := snd (shr_fexp prec emax m e l) in
  (n <= 0 -> e' = e /\ shr_m mrs = m /\ loc_of_shr_record mrs = l)
  /\ (0 < n -> e' = fexp64 (Zdigits2 m + e) /\ shr_m mrs = m / 2 ^ n).
Proof.
  intros Hm n mrs e'. unfold mrs, e', shr_fexp. fold n.
  destruct (loc_of_record_of_loc m l) as [Hl Hrec].
  unfold shr. destruct n as [|p|p] eqn:Hn; cbn [fst snd]; split; try lia.
  - intros _. auto.
  - intros _. split; [lia|].
    rewrite iter_shr_1_m by (rewrite Hrec; assumption). now rewrite Hrec.
  - intros _. auto.
Qed.

Lemma round_nearest_even_range (m : Z) (l : location) :
  m <= round_nearest_even m l <= m + 1
  /\ (l = loc_Exact -> round_nearest_even m l = m).
Proof.
  split; [|intros ->; reflexivity].
  destruct l as [|[| |]]; cbn [round_nearest_even]; try lia.
  destruct (Z.even m); lia.
Qed.

(** The exponent that a shift arrives at is small against the value. *)
Lemma fexp_shift_bound (m e : Z) (v : R) :
  0 <= m -> (IZR m * p2 e <= v)%R ->
  e < fexp64 (Zdigits2 m + e) ->
  (p2 (fexp64 (Zdigits2 m + e)) <= p2 (-52) * v + p2 (-1074))%R.
Proof.
  intros Hm Hv Hshift.
  pose proof (p2_pos (-1074)) as Hmu. pose proof (p2_pos (-52)) as Hu.
  pose proof (p2_pos e) as Hpe.
  assert (Hv0 : (0 <= v)%R).
  { apply Rle_trans with (IZR m * p2 e)%R; [|assumption].
    apply Rmult_le_pos; [apply IZR_le; assumption | lra]. }
  unfold fexp in *. change (SpecFloat.emin prec emax) with (-1074) in *.
  change prec with 53 in *.
  destruct (Z.max_spec (Zdigits2 m + e - 53) (-1074)) as [[Hlt Hmax] | [Hge Hmax]];
    rewrite Hmax in *.
  - assert (0 <= p2 (-52) * v)%R by (apply Rmult_le_pos; lra). lra.
  - assert (Hpos : 0 < m).
    { destruct (Z.eq_dec m 0) as [-> | Hne]; [cbn in Hshift; lia | lia]. }
    destruct (Zdigits2_bounds m Hpos) as [Hlow _].
    pose proof (Zdigits2_nonneg m) as Hd.
    replace (Zdigits2 m + e - 53) with ((Zdigits2 m - 1) + (e + -52)) by lia.
    rewrite !p2_add. rewrite (p2_IZR (Zdigits2 m - 1)) by lia.
    apply IZR_le in Hlow.
    assert (0 <= p2 e * p2 (-52))%R by (apply Rmult_le_pos; lra).
    assert (IZR (2 ^ (Zdigits2 m - 1)) * (p2 e * p2 (-52)) <= IZR m * (p2 e * p2 (-52)))%R
      by (apply Rmult_le_compat_r; assumption).
    assert (IZR m * (p2 e * p2 (-52)) <= p2 (-52) * v)%R.
    { replace (IZR m * (p2 e * p2 (-52)))%R with (p2 (-52) * (IZR m * p2 e))%R by ring.
      apply Rmult_le_compat_l; lra. }
    lra.
Qed.

(** What a pass makes of a value that lies between [m] and [m + 1] units
    of [2^e]. *)
Lemma shr_fexp_value (m e : Z) (l : location) (v : R) :
  0 <= m ->
  (IZR m * p2 e <= v <= (IZR m + 1) * p2 e)%R ->
  let mrs := fst (shr_fexp prec emax m e l) in
  let e' := snd (shr_fexp prec emax m e l) in
  0 <= shr_m mrs
  /\ (IZR (shr_m mrs) * p2 e' <= v <= (IZR (shr_m mrs) + 1) * p2 e')%R
  /\ ((e' = e /\ shr_m mrs = m /\ loc_of_shr_record mrs = l)
      \/ (e < e' /\ (p2 e' <= p2 (-52) * v + p2 (-1074))%R)).
Proof.
  intros Hm Hv mrs e'.
  destruct (shr_fexp_pass m e l Hm) as [Hstay Hshift]. fold mrs e' in Hstay, Hshift.
  set (n := fexp64 (Zdigits2 m + e) - e) in *.
  destruct (Z.le_gt_cases n 0) as [Hn | Hn].
  - destruct (Hstay Hn) as (-> & -> & Hloc). split; [assumption|]. split; [assumption|].
    left. auto.
  - destruct (Hshift ltac:(lia)) as (He' & Hm').
    assert (H2n : 0 < 2 ^ n) by (apply Z.pow_pos_nonneg; lia).
    pose proof (Z.div_mod m (2 ^ n) ltac:(lia)) as Hdm.
    pose proof (Z.mod_pos_bound m (2 ^ n) H2n) as Hmod.
    set (q := m / 2 ^ n) in *.
    assert (Hq : 0 <= q) by (apply Z.div_pos; lia).
    assert (Hen : e' = e + n) by (unfold n; lia).
    rewrite Hm'. split; [assumption|].
    pose proof (p2_pos e) as Hpe.
    assert (Hlo : (IZR q * p2 e' <= IZR m * p2 e)%R).
    { rewrite Hen, p2_add, (p2_IZR n) by lia.
      replace (IZR q * (p2 e * IZR (2 ^ n)))%R with (IZR (q * 2 ^ n) * p2 e)%R
        by (rewrite mult_IZR; ring).
      apply Rmult_le_compat_r; [lra|]. apply IZR_le. lia. }
    assert (Hhi : ((IZR m + 1) * p2 e <= (IZR q + 1) * p2 e')%R).
    { rewrite Hen, p2_add, (p2_IZR n) by lia.
      replace ((IZR q + 1) * (p2 e * IZR (2 ^ n)))%R with (IZR ((q + 1) * 2 ^ n) * p2 e)%R
        by (rewrite mult_IZR, plus_IZR; ring).
      replace (IZR m + 1)%R with (IZR (m + 1)) by (rewrite plus_IZR; reflexivity).
      apply Rmult_le_compat_r; [lra|]. apply IZR_le. lia. }
    split; [lra|]. right. split; [lia|].
    rewrite He'. apply fexp_shift_bound; [assumption | lra | unfold n in Hn; lia].
Qed.

(** ** Rounding a value

    The relative error of a result is at most [2^-50], a few units in the
    last place: enough for what follows and much shorter to prove than
    the half unit that holds. *)

Lemma p2_52 : p2 (-52) = (/ 4503599627370496)%R.
Proof. change (-52) with (- (52)). rewrite powerRZ_neg', (p2_IZR 52) by lia. reflexivity. Qed.

Lemma p2_50 : p2 (-50) = (4 * p2 (-52))%R.
Proof.
  replace (-50) with (2 + -52) by lia. rewrite p2_add, (p2_IZR 2) by lia. reflexivity.
Qed.

Lemma p2_1072 : p2 (-1072) = (4 * p2 (-1074))%R.
Proof.
  replace (-1072) with (2 + -1074) by lia. rewrite p2_add, (p2_IZR 2) by lia. reflexivity.
Qed.

Lemma exponent_small (e : Z) (v : R) :
  (p2 e <= p2 (-52) * v + p2 (-1074))%R -> (v < p2 901)%R -> e <= 900.
Proof.
  intros He Hv.
  assert (H848 : p2 849 = (p2 901 * p2 (-52))%R) by (rewrite <- p2_add; reflexivity).
  assert (H850 : p2 850 = (2 * p2 849)%R).
  { replace 850 with (1 + 849) by lia. now rewrite p2_add, p2_1. }
  pose proof (p2_le (-1074) 849 ltac:(lia)) as Hmu.
  pose proof (p2_pos (-1074)). pose proof (p2_pos 901).
  rewrite p2_52 in *.
  assert (Hlt : (p2 e < p2 850)%R) by lra.
  apply p2_lt_inv in Hlt. lia.
Qed.

Lemma round_aux_value (sx : bool) (mx ex : Z) (lx : location) (v : R) :
  0 <= mx -> ex <= 900 ->
  (IZR mx * p2 ex <= v <= (IZR mx + 1) * p2 ex)%R ->
  (lx = loc_Exact /\ v = (IZR mx * p2 ex)%R) \/ 2 ^ 52 <= mx ->
  (v < p2 900)%R ->
  exists w : R,
    (0 <= w)%R
    /\ (Rabs (w - v) <= p2 (-50) * v + p2 (-1072))%R
    /\ ((binary_round_aux prec emax sx mx ex lx = S754_zero sx /\ w = 0%R)
        \/ exists m e,
             binary_round_aux prec emax sx mx ex lx = S754_finite sx m e
             /\ w = (IZR (Z.pos m) * p2 e)%R).
Proof.
  intros Hmx Hex Hv Hside Hbig.
  pose proof (p2_pos (-1074)) as Hmu. pose proof (p2_pos ex) as Hpex.
  assert (Hv0 : (0 <= v)%R).
  { apply Rle_trans with (IZR mx * p2 ex)%R; [|lra].
    apply Rmult_le_pos; [apply IZR_le; assumption | lra]. }
  assert (H901 : p2 901 = (2 * p2 900)%R).
  { replace 901 with (1 + 900) by lia. now rewrite p2_add, p2_1. }
  pose proof (p2_le 1 900 ltac:(lia)) as Hp900. rewrite p2_1 in Hp900.
  pose proof (p2_le (-1074) 0 ltac:(lia)) as Hmu1. rewrite powerRZ_O in Hmu1.
  unfold binary_round_aux.
  pose proof (shr_fexp_value mx ex lx v Hmx Hv) as (Hm1 & Hv1 & Hcase1).
  destruct (shr_fexp prec emax mx ex lx) as [mrs1 e1]. cbn [fst snd] in *.
  set (m1 := shr_m mrs1) in *.
  destruct (round_nearest_even_range m1 (loc_of_shr_record mrs1)) as [Hmr Hexact].
  set (mr := round_nearest_even m1 (loc_of_shr_record mrs1)) in *.
  pose proof (p2_pos e1) as Hpe1.
  assert (Hmr1 : (IZR m1 <= IZR mr <= IZR m1 + 1)%R).
  { split; [apply IZR_le; lia|].
    replace (IZR m1 + 1)%R with (IZR (m1 + 1)) by (rewrite plus_IZR; reflexivity).
    apply IZR_le; lia. }
  (* the first pass and the rounding *)
  assert (Hfirst : (- (p2 (-52) * v + p2 (-1074)) <= IZR mr * p2 e1 - v
                    <= p2 (-52) * v + p2 (-1074))%R /\ e1 <= 900).
  { rewrite p2_52 in *.
    destruct Hcase1 as [(-> & Hm1eq & Hloc) | [Hlt Hpe]].
    - split; [|assumption].
      destruct Hside as [[-> Hveq] | H52].
      + assert (Hmreq : mr = mx) by (rewrite <- Hm1eq; apply Hexact; assumption).
        rewrite Hmreq, Hveq. lra.
      + assert (Hpe : (p2 ex <= / 4503599627370496 * v)%R).
        { apply IZR_le in H52. change (IZR (2 ^ 52)) with 4503599627370496%R in H52.
          assert (4503599627370496 * p2 ex <= IZR mx * p2 ex)%R
            by (apply Rmult_le_compat_r; lra).
          lra. }
        assert (IZR m1 * p2 ex <= IZR mr * p2 ex <= (IZR m1 + 1) * p2 ex)%R
          by (split; apply Rmult_le_compat_r; lra).
        lra.
    - split.
      + assert (IZR m1 * p2 e1 <= IZR mr * p2 e1 <= (IZR m1 + 1) * p2 e1)%R
          by (split; apply Rmult_le_compat_r; lra).
        lra.
      + apply (exponent_small e1 v); [rewrite p2_52; assumption | lra]. }
  destruct Hfirst as [Hfirst He1].
  (* the second pass *)
  set (v2 := (IZR mr * p2 e1)%R) in *.
  assert (Hmr0 : 0 <= mr) by lia.
  assert (Hv2 : (IZR mr * p2 e1 <= v2 <= (IZR mr + 1) * p2 e1)%R) by (unfold v2; lra).
  pose proof (shr_fexp_value mr e1 loc_Exact v2 Hmr0 Hv2) as (Hm2 & Hw & Hcase2).
  destruct (shr_fexp prec emax mr e1 loc_Exact) as [mrs2 e2]. cbn [fst snd] in *.
  set (m2 := shr_m mrs2) in *.
  pose proof (p2_pos e2) as Hpe2.
  assert (Hv2lt : (v2 < p2 901)%R) by (rewrite p2_52 in *; clearbody v2; lra).
  assert (Hsecond : (- (p2 (-52) * v2 + p2 (-1074)) <= IZR m2 * p2 e2 - v2 <= 0)%R
                    /\ e2 <= 900).
  { assert (0 <= v2)%R by (unfold v2; apply Rmult_le_pos; [apply IZR_le; lia | lra]).
    destruct Hcase2 as [(-> & Hm2eq & _) | [Hlt Hpe]].
    - split; [|assumption].
      replace (IZR m2 * p2 e1)%R with v2 by (unfold v2; f_equal; f_equal; exact (eq_sym Hm2eq)).
      rewrite p2_52. lra.
    - split; [lra|]. now apply (exponent_small e2 v2). }
  destruct Hsecond as [Hsecond He2].
  exists (IZR m2 * p2 e2)%R. split; [|split].
  - apply Rmult_le_pos; [apply IZR_le; assumption | lra].
  - rewrite p2_50, p2_1072. rewrite p2_52 in *. apply Rabs_le. lra.
  - destruct m2 as [|p|p] eqn:Hm2eq; [| |lia].
    + left. split; [reflexivity | ring].
    + right. exists p, e2. split; [|reflexivity].
      change (emax - prec) with 971.
      replace (e2 <=? 971) with true by (symmetry; apply Z.leb_le; lia).
      reflexivity.
Qed.

(** ** The operations *)

#[local] Open Scope R_scope.

Lemma roundOff_nonneg (exact : R) : 0 <= roundOff exact.
Proof.
  unfold roundOff. pose proof (p2_pos (-50)). pose proof (p2_pos (-1072)).
  pose proof (Rabs_pos exact). nra.
Qed.

Lemma SFvalue_abs (s : bool) (m : positive) (e : Z) :
  Rabs (SFvalue (S754_finite s m e)) = IZR (Z.pos m) * p2 e.
Proof.
  cbn [SFvalue]. pose proof (p2_pos e). pose proof (IZR_lt 0 (Z.pos m) ltac:(lia)).
  assert (0 < IZR (Z.pos m) * p2 e) by nra.
  destruct s.
  - rewrite Rabs_left by lra. ring.
  - rewrite Rabs_right by lra. reflexivity.
Qed.

Lemma exponent_of_value (s : bool) (m : positive) (e k : Z) :
  Rabs (SFvalue (S754_finite s m e)) <= p2 k -> (e <= k)%Z.
Proof.
  rewrite SFvalue_abs. intros H. apply p2_le_inv.
  pose proof (p2_pos e). pose proof (IZR_le 1 (Z.pos m) ltac:(lia)). nra.
Qed.

(** The outcome of rounding, with its sign. *)
Lemma round_aux_signed (sx : bool) (mx ex : Z) (lx : location) (v : R) :
  (0 <= mx)%Z -> (ex <= 900)%Z ->
  IZR mx * p2 ex <= v <= (IZR mx + 1) * p2 ex ->
  (lx = loc_Exact /\ v = IZR mx * p2 ex) \/ (2 ^ 52 <= mx)%Z ->
  v < p2 900 ->
  let r := binary_round_aux prec emax sx mx ex lx in
  let exact := if sx then - v else v in
  (exists s' m' e', r = S754_zero s' \/ r = S754_finite s' m' e')
  /\ Rabs (SFvalue r - exact) <= roundOff exact.
Proof.
  intros Hmx Hex Hv Hside Hbig r exact.
  destruct (round_aux_value sx mx ex lx v Hmx Hex Hv Hside Hbig)
    as (w & Hw0 & Hw & Hr).
  assert (Hv0 : 0 <= v).
  { pose proof (p2_pos ex). pose proof (IZR_le 0 mx Hmx). nra. }
  assert (Habs : Rabs exact = v).
  { unfold exact. destruct sx; [rewrite Rabs_Ropp|]; apply Rabs_right; lra. }
  unfold roundOff. rewrite Habs.
  assert (Hval : SFvalue r = if sx then - w else w).
  { fold r in Hr. destruct Hr as [[-> ->] | (m & e & -> & ->)]; cbn [SFvalue].
    - destruct sx; ring.
    - destruct sx; ring. }
  split.
  - fold r in Hr. destruct Hr as [[-> _] | (m & e & -> & _)].
    + exists sx, 1%positive, 0%Z. now left.
    + exists sx, m, e. now right.
  - rewrite Hval. unfold exact. destruct sx.
    + replace (- w - - v) with (- (w - v)) by ring. now rewrite Rabs_Ropp.
    + assumption.
Qed.

Lemma finite_cases (x : float) :
  finite x = true ->
  (exists s, Prim2SF x = S754_zero s) \/ (exists s m e, Prim2SF x = S754_finite s m e).
Proof.
  unfold finite. destruct (Prim2SF x) as [s|s| |s m e]; try discriminate; intros _.
  - left. now exists s.
  - right. now exists s, m, e.
Qed.

Lemma finite_of (x : float) (s : bool) (m : positive) (e : Z) :
  Prim2SF x = S754_zero s \/ Prim2SF x = S754_finite s m e -> finite x = true.
Proof. unfold finite. intros [-> | ->]; reflexivity. Qed.

Lemma p2_400_900 : 2 * (p2 400 * p2 400) < p2 900.
Proof.
  replace (2 * (p2 400 * p2 400)) with (p2 (1 + (400 + 400)))
    by (rewrite !p2_add, p2_1; reflexivity).
  apply p2_lt. lia.
Qed.

(** [x * y] in binary64 against the product of the values. *)
Lemma value_mul (x y : float) :
  finite x = true -> finite y = true ->
  Rabs (value x) <= p2 400 -> Rabs (value y) <= p2 400 ->
  finite (x * y)%float = true
  /\ Rabs (value (x * y)%float - value x * value y) <= roundOff (value x * value y).
Proof.
  intros Hx Hy Hbx Hby. unfold value, finite in *. rewrite mul_spec.
  pose proof (roundOff_nonneg 0) as Hr0.
  destruct (Prim2SF x) as [sx|sx| |sx mx ex]; try discriminate;
    destruct (Prim2SF y) as [sy|sy| |sy my ey]; try discriminate;
    cbn [SF64mul SFmul].
  1-3: split; [reflexivity|]; cbn [SFvalue];
       rewrite ?Rmult_0_l, ?Rmult_0_r, Rminus_0_r, Rabs_R0; exact Hr0.
  pose proof (exponent_of_value _ _ _ _ Hbx) as Hex.
  pose proof (exponent_of_value _ _ _ _ Hby) as Hey.
  rewrite SFvalue_abs in Hbx, Hby.
  set (v := IZR (Z.pos (mx * my)) * p2 (ex + ey)).
  assert (Hveq : v = (IZR (Z.pos mx) * p2 ex) * (IZR (Z.pos my) * p2 ey)).
  { unfold v. rewrite Pos2Z.inj_mul, mult_IZR, p2_add. ring. }
  pose proof (p2_pos ex). pose proof (p2_pos ey).
  pose proof (IZR_lt 0 (Z.pos mx) ltac:(lia)). pose proof (IZR_lt 0 (Z.pos my) ltac:(lia)).
  pose proof p2_400_900 as H900. pose proof (p2_pos 400).
  assert (Hv : IZR (Z.pos (mx * my)) * p2 (ex + ey) <= v
               <= (IZR (Z.pos (mx * my)) + 1) * p2 (ex + ey)).
  { unfold v. pose proof (p2_pos (ex + ey)). split; [apply Rle_refl | nra]. }
  destruct (round_aux_signed (xorb sx sy) (Z.pos (mx * my)) (ex + ey) loc_Exact v
              ltac:(lia) ltac:(lia) Hv (or_introl (conj eq_refl eq_refl)))
    as [(s' & m' & e' & Hshape) Herr].
  { rewrite Hveq.
    assert (0 <= IZR (Z.pos mx) * p2 ex) by nra.
    assert (0 <= IZR (Z.pos my) * p2 ey) by nra.
    assert ((IZR (Z.pos mx) * p2 ex) * (IZR (Z.pos my) * p2 ey) <= p2 400 * p2 400)
      by (apply Rmult_le_compat; assumption).
    assert (0 <= p2 400 * p2 400) by nra.
    lra. }
  assert (Hexact : (if xorb sx sy then - v else v)
                   = SFvalue (S754_finite sx mx ex) * SFvalue (S754_finite sy my ey)).
  { rewrite Hveq. cbn [SFvalue]. destruct sx, sy; cbn [xorb]; ring. }
  rewrite Hexact in Herr. split; [|exact Herr].
  destruct Hshape as [-> | ->]; reflexivity.
Qed.

(** *** Sums and differences *)

Lemma iter_xO (m d : positive) : Pos.iter xO m d = (m * 2 ^ d)%positive.
Proof.
  induction d as [|d IH] using Pos.peano_ind.
  - cbn. lia.
  - rewrite Pos.iter_succ, IH, Pos.pow_succ_r. lia.
Qed.

Lemma shl_align_value (m : positive) (e e' : Z) :
  let r := shl_align m e e' in
  IZR (Z.pos (fst r)) * p2 (snd r) = IZR (Z.pos m) * p2 e
  /\ (snd r <= e)%Z
  /\ ((e' <= e)%Z -> snd r = e').
Proof.
  unfold shl_align. destruct (e' - e)%Z as [|d|d] eqn:Hd; cbn [fst snd].
  - repeat split; lia.
  - repeat split; lia.
  - split; [|split; lia].
    rewrite iter_xO, Pos2Z.inj_mul, Pos2Z.inj_pow, mult_IZR.
    replace e with (Z.pos d + e')%Z by lia.
    rewrite p2_add, (p2_IZR (Z.pos d)) by lia. ring.
Qed.

Lemma normalize_value (M ez : Z) (szero : bool) :
  (ez <= 900)%Z -> Rabs (IZR M * p2 ez) < p2 900 ->
  let r := binary_normalize prec emax M ez szero in
  (exists s' m' e', r = S754_zero s' \/ r = S754_finite s' m' e')
  /\ Rabs (SFvalue r - IZR M * p2 ez) <= roundOff (IZR M * p2 ez).
Proof.
  intros Hez Hbig r. unfold r, binary_normalize.
  assert (Hround : forall (s : bool) (m : positive),
             Rabs (IZR (Z.pos m) * p2 ez) < p2 900 ->
             let exact := if s then - (IZR (Z.pos m) * p2 ez) else IZR (Z.pos m) * p2 ez in
             (exists s' m' e', binary_round prec emax s m ez = S754_zero s'
                               \/ binary_round prec emax s m ez = S754_finite s' m' e')
             /\ Rabs (SFvalue (binary_round prec emax s m ez) - exact) <= roundOff exact).
  { intros s m Hm exact. unfold binary_round.
    pose proof (shl_align_value m ez (fexp prec emax (Z.pos (digits2_pos m) + ez)))
      as (Hval & Hle & _).
    destruct (shl_align m ez (fexp prec emax (Z.pos (digits2_pos m) + ez))) as [mz ez'].
    cbn [fst snd] in Hval, Hle.
    pose proof (p2_pos ez'). pose proof (IZR_lt 0 (Z.pos mz) ltac:(lia)).
    assert (Hpos : 0 <= IZR (Z.pos m) * p2 ez) by (rewrite <- Hval; nra).
    rewrite Rabs_right in Hm by lra.
    unfold exact. rewrite <- Hval.
    apply round_aux_signed; try lia.
    - split; [apply Rle_refl | nra].
    - left. split; reflexivity.
    - rewrite Hval. assumption. }
  destruct M as [|m|m].
  - split; [exists szero, 1%positive, 0%Z; now left|].
    cbn [SFvalue]. rewrite Rmult_0_l, Rminus_0_r, Rabs_R0. apply roundOff_nonneg.
  - apply (Hround false m). assumption.
  - change (Z.neg m) with (- Z.pos m)%Z in *. rewrite opp_IZR in *.
    replace (- IZR (Z.pos m) * p2 ez) with (- (IZR (Z.pos m) * p2 ez)) in * by ring.
    rewrite Rabs_Ropp in Hbig. apply (Hround true m). assumption.
Qed.

Lemma cond_Zopp_value (s : bool) (m : positive) (e ez : Z) :
  (ez <= e)%Z ->
  IZR (cond_Zopp s (Z.pos (fst (shl_align m e ez)))) * p2 ez
  = SFvalue (S754_finite s m e).
Proof.
  intros Hle. destruct (shl_align_value m e ez) as (Hval & _ & Hsnd).
  rewrite (Hsnd Hle) in Hval. cbn [SFvalue].
  destruct s; cbn [cond_Zopp]; [rewrite opp_IZR|]; lra.
Qed.

Lemma p2_401_900 : p2 401 < p2 900.
Proof. apply p2_lt. lia. Qed.

(** [x + y] in binary64 against the sum of the values. *)
Lemma value_add (x y : float) :
  finite x = true -> finite y = true ->
  Rabs (value x) <= p2 400 -> Rabs (value y) <= p2 400 ->
  finite (x + y)%float = true
  /\ Rabs (value (x + y)%float - (value x + value y)) <= roundOff (value x + value y).
Proof.
  intros Hx Hy Hbx Hby. unfold value, finite in *. rewrite add_spec.
  pose proof (roundOff_nonneg 0) as Hr0.
  destruct (Prim2SF x) as [sx|sx| |sx mx ex]; try discriminate;
    destruct (Prim2SF y) as [sy|sy| |sy my ey]; try discriminate;
    cbn [SF64add SFadd].
  - destruct sx, sy; (split; [reflexivity|]); cbn [SFvalue];
      rewrite Rplus_0_l, Rminus_0_r, Rabs_R0; exact Hr0.
  - split; [reflexivity|]. cbn [SFvalue]. rewrite Rplus_0_l, Rminus_diag, Rabs_R0.
    apply roundOff_nonneg.
  - split; [reflexivity|]. cbn [SFvalue]. rewrite Rplus_0_r, Rminus_diag, Rabs_R0.
    apply roundOff_nonneg.
  - pose proof (exponent_of_value _ _ _ _ Hbx) as Hex.
    pose proof (exponent_of_value _ _ _ _ Hby) as Hey.
    set (ez := Z.min ex ey).
    set (M := (cond_Zopp sx (Z.pos (fst (shl_align mx ex ez)))
               + cond_Zopp sy (Z.pos (fst (shl_align my ey ez))))%Z).
    assert (HM : IZR M * p2 ez
                 = SFvalue (S754_finite sx mx ex) + SFvalue (S754_finite sy my ey)).
    { unfold M. rewrite plus_IZR, Rmult_plus_distr_r.
      rewrite !cond_Zopp_value by (unfold ez; lia). reflexivity. }
    rewrite <- HM.
    assert (Hbig : Rabs (IZR M * p2 ez) < p2 900).
    { rewrite HM. pose proof p2_401_900.
      assert (p2 401 = 2 * p2 400)
        by (replace 401%Z with (1 + 400)%Z by lia; now rewrite p2_add, p2_1).
      eapply Rle_lt_trans; [apply Rabs_triang|]. lra. }
    destruct (normalize_value M ez false ltac:(unfold ez; lia) Hbig)
      as [(s' & m' & e' & Hshape) Herr].
    split; [|exact Herr].
    destruct Hshape as [-> | ->]; reflexivity.
Qed.

(** [x - y] in binary64 against the difference of the values. *)
Lemma value_sub (x y : float) :
  finite x = true -> finite y = true ->
  Rabs (value x) <= p2 400 -> Rabs (value y) <= p2 400 ->
  finite (x - y)%float = true
  /\ Rabs (value (x - y)%float - (value x - value y)) <= roundOff (value x - value y).
Proof.
  intros Hx Hy Hbx Hby. unfold value, finite in *. rewrite sub_spec.
  pose proof (roundOff_nonneg 0) as Hr0.
  destruct (Prim2SF x) as [sx|sx| |sx mx ex]; try discriminate;
    destruct (Prim2SF y) as [sy|sy| |sy my ey]; try discriminate;
    cbn [SF64sub SFsub].
  - destruct sx, sy; (split; [reflexivity|]); cbn [SFvalue];
      rewrite Rminus_0_r, Rminus_0_r, Rabs_R0; exact Hr0.
  - split; [reflexivity|]. cbn [SFvalue].
    replace ((if negb sy then - IZR (Z.pos my) else IZR (Z.pos my)) * p2 ey
             - (0 - (if sy then - IZR (Z.pos my) else IZR (Z.pos my)) * p2 ey)) with 0
      by (destruct sy; cbn [negb]; ring).
    rewrite Rabs_R0. apply roundOff_nonneg.
  - split; [reflexivity|]. cbn [SFvalue]. rewrite Rminus_0_r, Rminus_diag, Rabs_R0.
    apply roundOff_nonneg.
  - pose proof (exponent_of_value _ _ _ _ Hbx) as Hex.
    pose proof (exponent_of_value _ _ _ _ Hby) as Hey.
    set (ez := Z.min ex ey).
    set (M := (cond_Zopp sx (Z.pos (fst (shl_align mx ex ez)))
               - cond_Zopp sy (Z.pos (fst (shl_align my ey ez))))%Z).
    assert (HM : IZR M * p2 ez
                 = SFvalue (S754_finite sx mx ex) - SFvalue (S754_finite sy my ey)).
    { unfold M. rewrite minus_IZR. unfold Rminus. rewrite Rmult_plus_distr_r.
      rewrite <- Ropp_mult_distr_l.
      rewrite !cond_Zopp_value by (unfold ez; lia). reflexivity. }
    rewrite <- HM.
    assert (Hbig : Rabs (IZR M * p2 ez) < p2 900).
    { rewrite HM. pose proof p2_401_900.
      assert (p2 401 = 2 * p2 400)
        by (replace 401%Z with (1 + 400)%Z by lia; now rewrite p2_add, p2_1).
      unfold Rminus. eapply Rle_lt_trans; [apply Rabs_triang|].
      rewrite Rabs_Ropp. lra. }
    destruct (normalize_value M ez false ltac:(unfold ez; lia) Hbig)
      as [(s' & m' & e' & Hshape) Herr].
    split; [|exact Herr].
    destruct Hshape as [-> | ->]; reflexivity.
Qed.

(** *** Square roots *)

Lemma positive_value (x : float) :
  0 < value x ->
  exists m e, Prim2SF x = S754_finite false m e /\ (-1074 <= e)%Z.
Proof.
  unfold value. intros Hpos. pose proof (Prim2SF_valid x) as Hvalid.
  destruct (Prim2SF x) as [s|s| |s m e]; cbn [SFvalue] in Hpos; try lra.
  pose proof (p2_pos e). pose proof (IZR_lt 0 (Z.pos m) ltac:(lia)).
  destruct s; [nra|]. exists m, e. split; [reflexivity|].
  unfold SpecFloat.valid_binary, SpecFloat.bounded, SpecFloat.canonical_mantissa,
    SpecFloat.fexp in Hvalid.
  apply andb_prop in Hvalid. destruct Hvalid as [Hc _]. apply Z.eqb_eq in Hc.
  change (SpecFloat.emin prec emax) with (-1074)%Z in Hc. lia.
Qed.

Lemma sqrt_core_value (mx : positive) (ex : Z) :
  (-1074 <= ex <= 400)%Z ->
  let '(q, e', l) := SFsqrt_core_binary prec emax (Z.pos mx) ex in
  let v := sqrt (IZR (Z.pos mx) * p2 ex) in
  (2 ^ 52 <= q)%Z /\ (e' <= 900)%Z
  /\ IZR q * p2 e' <= v <= (IZR q + 1) * p2 e'.
Proof.
  intros Hex. unfold SFsqrt_core_binary.
  set (d := Zdigits2 (Z.pos mx)).
  set (e' := Z.min (fexp prec emax (Z.div2 (d + ex + 1))) (Z.div2 ex)).
  set (s := (ex - 2 * e')%Z).
  set (m' := match s with
             | 0%Z => Z.pos mx
             | Z.pos _ => Z.shiftl (Z.pos mx) s
             | Z.neg _ => 0%Z
             end).
  destruct (Zdigits2_bounds (Z.pos mx) ltac:(lia)) as [Hlow _]. fold d in Hlow.
  pose proof (Zdigits2_nonneg (Z.pos mx)) as Hd0. fold d in Hd0.
  assert (Hd1 : (1 <= d)%Z) by (unfold d; cbn; lia).
  assert (Hdiv2 : forall a, (2 * Z.div2 a <= a <= 2 * Z.div2 a + 1)%Z).
  { intros a. pose proof (Z.div2_odd a) as Ha.
    destruct (Z.odd a);
      [change (Z.b2z true) with 1%Z in Ha | change (Z.b2z false) with 0%Z in Ha]; lia. }
  pose proof (Hdiv2 ex) as Hex2. pose proof (Hdiv2 (d + ex + 1)%Z) as Hdex2.
  assert (Hs : (0 <= s)%Z) by (unfold s, e'; lia).
  assert (Hm' : m' = (Z.pos mx * 2 ^ s)%Z).
  { unfold m'. destruct s as [|p|p] eqn:Hseq; [cbn; lia | | lia].
    apply Z.shiftl_mul_pow2. lia. }
  assert (Hsize : (104 <= d - 1 + s)%Z).
  { unfold s, e', fexp. change (SpecFloat.emin prec emax) with (-1074)%Z.
    change prec with 53%Z. lia. }
  assert (Hbig : (2 ^ 104 <= m')%Z).
  { rewrite Hm'. apply Z.le_trans with (2 ^ (d - 1) * 2 ^ s)%Z.
    - rewrite <- Z.pow_add_r by lia. apply Z.pow_le_mono_r; lia.
    - apply Z.mul_le_mono_nonneg_r; [apply Z.pow_nonneg; lia | assumption]. }
  pose proof (Z.sqrtrem_spec m' ltac:(lia)) as Hspec.
  destruct (Z.sqrtrem m') as [q r]. destruct Hspec as [Hqr Hr].
  cbv zeta.
  assert (Hq0 : (0 <= q)%Z) by lia.
  assert (Hq : (2 ^ 52 <= q)%Z).
  { change (2 ^ 104)%Z with (2 ^ 52 * 2 ^ 52)%Z in Hbig.
    change (2 ^ 52)%Z with 4503599627370496%Z in *. nia. }
  split; [exact Hq|]. split; [unfold e'; lia|].
  (* the value *)
  pose proof (p2_pos e') as Hpe'. pose proof (p2_pos ex) as Hpex.
  assert (Hval : IZR (Z.pos mx) * p2 ex = IZR m' * (p2 e' * p2 e')).
  { rewrite Hm', mult_IZR, <- (p2_IZR s) by lia. rewrite <- !p2_add.
    rewrite Rmult_assoc, <- p2_add. f_equal. f_equal. unfold s. lia. }
  rewrite Hval.
  assert (Hlo : (IZR q * p2 e') * (IZR q * p2 e') <= IZR m' * (p2 e' * p2 e')).
  { replace ((IZR q * p2 e') * (IZR q * p2 e')) with (IZR (q * q) * (p2 e' * p2 e'))
      by (rewrite mult_IZR; ring).
    apply Rmult_le_compat_r; [nra|]. apply IZR_le. lia. }
  assert (Hhi : IZR m' * (p2 e' * p2 e') <= ((IZR q + 1) * p2 e') * ((IZR q + 1) * p2 e')).
  { replace (((IZR q + 1) * p2 e') * ((IZR q + 1) * p2 e'))
      with (IZR ((q + 1) * (q + 1)) * (p2 e' * p2 e'))
      by (rewrite mult_IZR, plus_IZR; ring).
    apply Rmult_le_compat_r; [nra|]. apply IZR_le. lia. }
  pose proof (IZR_le 0 q Hq0) as Hq0R.
  split.
  - rewrite <- (sqrt_square (IZR q * p2 e')) by nra. apply sqrt_le_1_alt. exact Hlo.
  - rewrite <- (sqrt_square ((IZR q + 1) * p2 e')) by nra. apply sqrt_le_1_alt. exact Hhi.
Qed.

(** [Math.sqrt(x)] against the square root of the value. *)
Lemma value_sqrt (x : float) :
  finite x = true -> 0 < value x -> value x <= p2 400 ->
  finite (PrimFloat.sqrt x) = true
  /\ Rabs (value (PrimFloat.sqrt x) - sqrt (value x)) <= roundOff (sqrt (value x)).
Proof.
  intros _ Hpos Hbx. destruct (positive_value x Hpos) as (mx & ex & Hx & Hex).
  unfold value, finite in *. rewrite sqrt_spec, Hx in *. cbn [SF64sqrt SFsqrt].
  assert (Hexk : (ex <= 400)%Z).
  { apply (exponent_of_value false mx). rewrite Rabs_right by lra. assumption. }
  pose proof (sqrt_core_value mx ex ltac:(lia)) as Hcore.
  destruct (SFsqrt_core_binary prec emax (Z.pos mx) ex) as [[q e'] l].
  cbv zeta in Hcore. destruct Hcore as (Hq & He' & Hv).
  replace (IZR (Z.pos mx) * p2 ex) with (SFvalue (S754_finite false mx ex)) in Hv
    by reflexivity.
  set (v := sqrt (SFvalue (S754_finite false mx ex))) in *.
  assert (Hvbig : v < p2 900).
  { pose proof (p2_ge_1 400 ltac:(lia)) as H1. pose proof (p2_lt 400 900 ltac:(lia)).
    assert (v <= p2 400); [|lra].
    rewrite <- (sqrt_square (p2 400)) by lra. apply sqrt_le_1_alt. nra. }
  destruct (round_aux_signed false q e' l v ltac:(lia) He' Hv (or_intror Hq) Hvbig)
    as [(s' & m' & e'' & Hshape) Herr].
  split; [destruct Hshape as [-> | ->]; reflexivity | exact Herr].
Qed.

End RoundingFacts.

(** Errors carried through a computation: if the operands are [near]
    real numbers, so is the result of an operation, with an error that
    the lemmas give. *)
Module NearFacts.
Import Binary64Value Binary64Trip RoundingFacts.
#[local] Open Scope R_scope.
#[local] Abbreviation p2 := (powerRZ 2).

(** ** The error of an operation, in decimals *)

Lemma roundOff_le (exact M : R) :
  Rabs exact <= M -> roundOff exact <= 1e-15 * M + 1e-30.
Proof.
  intros HM. unfold roundOff.
  assert (H50 : p2 (-50) = / 1125899906842624).
  { change (-50)%Z with (- (50))%Z. rewrite powerRZ_neg', (p2_IZR 50) by lia. reflexivity. }
  assert (H100 : p2 (-100) = / 1267650600228229401496703205376).
  { change (-100)%Z with (- (100))%Z. rewrite powerRZ_neg', (p2_IZR 100) by lia.
    reflexivity. }
  pose proof (p2_le (-1072) (-100) ltac:(lia)) as Hmu.
  pose proof (Rabs_pos exact). rewrite H50, H100 in *.
  assert (/ 1125899906842624 * Rabs exact <= 1e-15 * M).
  { apply Rle_trans with (/ 1125899906842624 * M).
    - apply Rmult_le_compat_l; lra.
    - apply Rmult_le_compat_r; lra. }
  lra.
Qed.

Lemma big_enough : 2000000 <= p2 400.
Proof.
  apply Rle_trans with (p2 21); [|apply p2_le; lia].
  rewrite (p2_IZR 21) by lia. change (IZR (2 ^ 21)) with 2097152. lra.
Qed.

(** ** A binary64 value near a real number *)

Lemma near_weaken (eps eps' : R) (a : float) (A : R) :
  near eps a A -> eps <= eps' -> near eps' a A.
Proof. intros [Hf Ha] Hle. split; [assumption | lra]. Qed.

Lemma near_value (eps : R) (a : float) (A M : R) :
  near eps a A -> Rabs A <= M -> Rabs (value a) <= M + eps.
Proof.
  intros [_ Ha] HA.
  replace (value a) with ((value a - A) + A) by ring.
  eapply Rle_trans; [apply Rabs_triang|]. lra.
Qed.

Lemma near_in_range (eps : R) (a : float) (A M : R) :
  near eps a A -> Rabs A <= M -> M <= 1000000 -> eps <= 1 ->
  Rabs (value a) <= p2 400.
Proof.
  intros Hn HA HM He. pose proof (near_value eps a A M Hn HA). pose proof big_enough. lra.
Qed.

Lemma near_add (eps1 eps2 eps : R) (a b : float) (A B M : R) :
  near eps1 a A -> near eps2 b B ->
  Rabs A <= 1000000 -> Rabs B <= 1000000 -> eps1 <= 1 -> eps2 <= 1 ->
  Rabs (A + B) <= M ->
  eps1 + eps2 + 1e-15 * (M + eps1 + eps2) + 1e-30 <= eps ->
  near eps (a + b)%float (A + B).
Proof.
  intros Ha Hb HA HB H1 H2 HM Heps.
  pose proof (near_in_range _ _ _ _ Ha HA ltac:(lra) H1) as Hra.
  pose proof (near_in_range _ _ _ _ Hb HB ltac:(lra) H2) as Hrb.
  destruct Ha as [Hfa Ha], Hb as [Hfb Hb].
  destruct (value_add a b Hfa Hfb Hra Hrb) as [Hf Herr].
  split; [assumption|].
  assert (Hsum : Rabs ((value a + value b) - (A + B)) <= eps1 + eps2).
  { replace ((value a + value b) - (A + B)) with ((value a - A) + (value b - B)) by ring.
    eapply Rle_trans; [apply Rabs_triang|]. lra. }
  assert (Hmag : Rabs (value a + value b) <= M + eps1 + eps2).
  { replace (value a + value b) with (((value a + value b) - (A + B)) + (A + B)) by ring.
    eapply Rle_trans; [apply Rabs_triang|]. lra. }
  pose proof (roundOff_le _ _ Hmag) as Hro.
  replace (value (a + b)%float - (A + B))
    with ((value (a + b)%float - (value a + value b)) + ((value a + value b) - (A + B)))
    by ring.
  eapply Rle_trans; [apply Rabs_triang|]. lra.
Qed.

Lemma near_sub (eps1 eps2 eps : R) (a b : float) (A B M : R) :
  near eps1 a A -> near eps2 b B ->
  Rabs A <= 1000000 -> Rabs B <= 1000000 -> eps1 <= 1 -> eps2 <= 1 ->
  Rabs (A - B) <= M ->
  eps1 + eps2 + 1e-15 * (M + eps1 + eps2) + 1e-30 <= eps ->
  near eps (a - b)%float (A - B).
Proof.
  intros Ha Hb HA HB H1 H2 HM Heps.
  pose proof (near_in_range _ _ _ _ Ha HA ltac:(lra) H1) as Hra.
  pose proof (near_in_range _ _ _ _ Hb HB ltac:(lra) H2) as Hrb.
  destruct Ha as [Hfa Ha], Hb as [Hfb Hb].
  destruct (value_sub a b Hfa Hfb Hra Hrb) as [Hf Herr].
  split; [assumption|].
  assert (Hsum : Rabs ((value a - value b) - (A - B)) <= eps1 + eps2).
  { replace ((value a - value b) - (A - B)) with ((value a - A) + - (value b - B)) by ring.
    eapply Rle_trans; [apply Rabs_triang|]. rewrite Rabs_Ropp. lra. }
  assert (Hmag : Rabs (value a - value b) <= M + eps1 + eps2).
  { replace (value a - value b) with (((value a - value b) - (A - B)) + (A - B)) by ring.
    eapply Rle_trans; [apply Rabs_triang|]. lra. }
  pose proof (roundOff_le _ _ Hmag) as Hro.
  replace (value (a - b)%float - (A - B))
    with ((value (a - b)%float - (value a - value b)) + ((value a - value b) - (A - B)))
    by ring.
  eapply Rle_trans; [apply Rabs_triang|]. lra.
Qed.

Lemma near_mul (eps1 eps2 eps : R) (a b : float) (A B MA MB : R) :
  near eps1 a A -> near eps2 b B ->
  Rabs A <= MA -> Rabs B <= MB -> MA <= 1000000 -> MB <= 1000000 ->
  0 <= eps1 <= 1 -> 0 <= eps2 <= 1 ->
  eps1 * (MB + eps2) + MA * eps2 + 1e-15 * ((MA + eps1) * (MB + eps2)) + 1e-30 <= eps ->
  near eps (a * b)%float (A * B).
Proof.
  intros Ha Hb HA HB HMA HMB H1 H2 Heps.
  pose proof (near_in_range _ _ _ _ Ha HA HMA (proj2 H1)) as Hra.
  pose proof (near_in_range _ _ _ _ Hb HB HMB (proj2 H2)) as Hrb.
  pose proof (near_value _ _ _ _ Ha HA) as Hva.
  pose proof (near_value _ _ _ _ Hb HB) as Hvb.
  destruct Ha as [Hfa Ha], Hb as [Hfb Hb].
  destruct (value_mul a b Hfa Hfb Hra Hrb) as [Hf Herr].
  split; [assumption|].
  pose proof (Rabs_pos A) as HA0. pose proof (Rabs_pos B) as HB0.
  pose proof (Rabs_pos (value a)) as Hva0. pose proof (Rabs_pos (value b)) as Hvb0.
  pose proof (Rabs_pos (value a - A)) as Hda0. pose proof (Rabs_pos (value b - B)) as Hdb0.
  assert (Hprod : Rabs (value a * value b - A * B) <= eps1 * (MB + eps2) + MA * eps2).
  { replace (value a * value b - A * B)
      with ((value a - A) * value b + A * (value b - B)) by ring.
    eapply Rle_trans; [apply Rabs_triang|]. rewrite !Rabs_mult.
    assert (Rabs (value a - A) * Rabs (value b) <= eps1 * (MB + eps2))
      by (apply Rmult_le_compat; lra).
    assert (Rabs A * Rabs (value b - B) <= MA * eps2)
      by (apply Rmult_le_compat; lra).
    lra. }
  assert (Hmag : Rabs (value a * value b) <= (MA + eps1) * (MB + eps2)).
  { rewrite Rabs_mult. apply Rmult_le_compat; lra. }
  pose proof (roundOff_le _ _ Hmag) as Hro.
  replace (value (a * b)%float - A * B)
    with ((value (a * b)%float - value a * value b) + (value a * value b - A * B))
    by ring.
  eapply Rle_trans; [apply Rabs_triang|]. lra.
Qed.

Lemma near_sqrt (eps1 eps : R) (a : float) (A l m : R) :
  near eps1 a A ->
  0 < l -> l * l + eps1 <= A -> A <= 1000000 -> 0 <= eps1 <= 1 ->
  0 <= m -> A + eps1 <= m * m ->
  eps1 / (2 * l) + 1e-15 * m + 1e-30 <= eps ->
  near eps (PrimFloat.sqrt a) (sqrt A).
Proof.
  intros Ha Hl HlA HA H1 Hm HmA Heps.
  assert (HabsA : Rabs A <= 1000000) by (apply Rabs_le; nra).
  pose proof (near_in_range _ _ _ _ Ha HabsA ltac:(lra) (proj2 H1)) as Hra.
  destruct Ha as [Hfa Ha]. apply TrigFacts.Rabs_bound in Ha.
  assert (Hva : l * l <= value a) by lra.
  assert (Hvpos : 0 < value a) by nra.
  assert (Hvle : value a <= p2 400).
  { apply Rle_trans with (Rabs (value a)); [apply Rle_abs | assumption]. }
  destruct (value_sqrt a Hfa Hvpos Hvle) as [Hf Herr].
  split; [assumption|].
  assert (Hsa : l <= sqrt (value a)).
  { rewrite <- (sqrt_square l) by lra. apply sqrt_le_1_alt. lra. }
  assert (HsA : l <= sqrt A).
  { rewrite <- (sqrt_square l) by lra. apply sqrt_le_1_alt. lra. }
  assert (Hsm : sqrt (value a) <= m).
  { rewrite <- (sqrt_square m) by lra. apply sqrt_le_1_alt. lra. }
  assert (Hdiff : Rabs (sqrt (value a) - sqrt A) <= eps1 / (2 * l)).
  { assert (Heq : (sqrt (value a) - sqrt A) * (sqrt (value a) + sqrt A) = value a - A).
    { replace ((sqrt (value a) - sqrt A) * (sqrt (value a) + sqrt A))
        with (sqrt (value a) * sqrt (value a) - sqrt A * sqrt A) by ring.
      rewrite !sqrt_sqrt by nra. reflexivity. }
    assert (Hsum : 2 * l <= sqrt (value a) + sqrt A) by lra.
    assert (Hd : Rabs (sqrt (value a) - sqrt A) * (2 * l) <= eps1).
    { apply Rle_trans with (Rabs (sqrt (value a) - sqrt A) * (sqrt (value a) + sqrt A)).
      - apply Rmult_le_compat_l; [apply Rabs_pos | lra].
      - rewrite <- (Rabs_right (sqrt (value a) + sqrt A)) at 1 by lra.
        rewrite <- Rabs_mult, Heq. apply Rabs_le. lra. }
    apply Rmult_le_reg_r with (2 * l); [lra|].
    unfold Rdiv. rewrite Rmult_assoc, Rinv_l by lra. lra. }
  assert (Hmag : Rabs (sqrt (value a)) <= m) by (rewrite Rabs_right; lra).
  pose proof (roundOff_le _ _ Hmag) as Hro.
  replace (value (PrimFloat.sqrt a) - sqrt A)
    with ((value (PrimFloat.sqrt a) - sqrt (value a)) + (sqrt (value a) - sqrt A)) by ring.
  eapply Rle_trans; [apply Rabs_triang|]. lra.
Qed.

(** The same with the error bound linear in the errors of the factors. *)
Lemma near_mul_lin (eps1 eps2 eps : R) (a b : float) (A B MA MB : R) :
  near eps1 a A -> near eps2 b B ->
  Rabs A <= MA -> Rabs B <= MB -> MA <= 1000000 -> MB <= 1000000 ->
  0 <= eps1 <= 1e-3 -> 0 <= eps2 <= 1e-3 ->
  eps1 * (MB + 1e-3) + MA * eps2 + 1e-15 * ((MA + 1e-3) * (MB + 1e-3)) + 1e-30 <= eps ->
  near eps (a * b)%float (A * B).
Proof.
  intros Ha Hb HA HB HMA HMB H1 H2 Heps.
  pose proof (Rabs_pos A). pose proof (Rabs_pos B).
  apply (near_mul eps1 eps2 eps a b A B MA MB); try assumption; try lra.
  assert (eps1 * (MB + eps2) <= eps1 * (MB + 1e-3))
    by (apply Rmult_le_compat_l; lra).
  assert ((MA + eps1) * (MB + eps2) <= (MA + 1e-3) * (MB + 1e-3))
    by (apply Rmult_le_compat; lra).
  lra.
Qed.

Lemma near_add_lin (eps1 eps2 eps : R) (a b : float) (A B M : R) :
  near eps1 a A -> near eps2 b B ->
  Rabs A <= M -> Rabs B <= M -> M <= 500000 ->
  0 <= eps1 <= 1e-3 -> 0 <= eps2 <= 1e-3 ->
  eps1 + eps2 + 1e-15 * (2 * M + 1) + 1e-30 <= eps ->
  near eps (a + b)%float (A + B).
Proof.
  intros Ha Hb HA HB HM H1 H2 Heps.
  apply (near_add eps1 eps2 eps a b A B (2 * M)); try assumption; try lra.
  eapply Rle_trans; [apply Rabs_triang|]. lra.
Qed.

Lemma near_sub_lin (eps1 eps2 eps : R) (a b : float) (A B M : R) :
  near eps1 a A -> near eps2 b B ->
  Rabs A <= M -> Rabs B <= M -> M <= 500000 ->
  0 <= eps1 <= 1e-3 -> 0 <= eps2 <= 1e-3 ->
  eps1 + eps2 + 1e-15 * (2 * M + 1) + 1e-30 <= eps ->
  near eps (a - b)%float (A - B).
Proof.
  intros Ha Hb HA HB HM H1 H2 Heps.
  apply (near_sub eps1 eps2 eps a b A B (2 * M)); try assumption; try lra.
  unfold Rminus. eapply Rle_trans; [apply Rabs_triang|]. rewrite Rabs_Ropp. lra.
Qed.

(** ** The host functions *)

Lemma near_sin (f : float -> float) (eta eps1 eps : R) (a : float) (A : R) :
  accurate f sin eta -> near eps1 a A -> eps1 + eta <= eps -> near eps (f a) (sin A).
Proof.
  intros Hf [Hfa Ha] Heps. destruct (Hf a Hfa) as [Hfin Herr].
  split; [assumption|].
  pose proof (TrigFacts.sin_diff_le (value a) A).
  replace (value (f a) - sin A)
    with ((value (f a) - sin (value a)) + (sin (value a) - sin A)) by ring.
  eapply Rle_trans; [apply Rabs_triang|]. lra.
Qed.

Lemma near_cos (f : float -> float) (eta eps1 eps : R) (a : float) (A : R) :
  accurate f cos eta -> near eps1 a A -> eps1 + eta <= eps -> near eps (f a) (cos A).
Proof.
  intros Hf [Hfa Ha] Heps. destruct (Hf a Hfa) as [Hfin Herr].
  split; [assumption|].
  pose proof (TrigFacts.cos_diff_le (value a) A).
  replace (value (f a) - cos A)
    with ((value (f a) - cos (value a)) + (cos (value a) - cos A)) by ring.
  eapply Rle_trans; [apply Rabs_triang|]. lra.
Qed.

Lemma atan_diff_le (u v : R) : Rabs (atan u - atan v) <= Rabs (u - v).
Proof.
  assert (Hlt : forall a b, a < b -> 0 <= atan b - atan a <= b - a).
  { intros a b Hab.
    destruct (MVT_cor2 atan (fun x => / (1 + x ^ 2)) a b Hab) as (c & Hc & _).
    { intros c _. apply derivable_pt_lim_atan. }
    rewrite Hc.
    assert (H1 : 0 < / (1 + c ^ 2) <= 1).
    { assert (1 <= 1 + c ^ 2) by nra. split.
      - apply Rinv_0_lt_compat. lra.
      - rewrite <- Rinv_1. apply Rinv_le_contravar; lra. }
    nra. }
  destruct (Rtotal_order u v) as [H | [-> | H]].
  - specialize (Hlt u v H). rewrite !Rabs_left1 by lra. lra.
  - rewrite !Rminus_diag, Rabs_R0. lra.
  - specialize (Hlt v u H). rewrite !Rabs_right by lra. lra.
Qed.

Lemma near_atan2 (f : float -> float -> float) (eta eps1 eps2 eps : R)
    (y x : float) (Y X lx MY : R) :
  accurate2 f eta -> near eps1 y Y -> near eps2 x X ->
  0 < lx -> lx + eps2 <= X -> Rabs Y <= MY -> 0 <= eps1 -> 0 <= eps2 ->
  eta + eps1 / lx + MY * eps2 / (lx * lx) <= eps ->
  near eps (f y x) (Coord.Ratan2 Y X).
Proof.
  intros Hf [Hfy Hy] [Hfx Hx] Hlx HX HY H1 H2 Heps.
  pose proof (TrigFacts.Rabs_bound _ _ Hx) as Hxb.
  assert (Hvx : lx <= value x) by lra.
  destruct (Hf y x Hfy Hfx ltac:(lra)) as [Hfin Herr].
  split; [assumption|].
  rewrite CoordFacts.Ratan2_right in Herr by lra.
  rewrite CoordFacts.Ratan2_right by lra.
  pose proof (atan_diff_le (value y / value x) (Y / X)) as Hat.
  assert (Hq : Rabs (value y / value x - Y / X) <= eps1 / lx + MY * eps2 / (lx * lx)).
  { replace (value y / value x - Y / X)
      with ((value y - Y) * / value x + Y * - (value x - X) * (/ value x * / X))
      by (field; lra).
    eapply Rle_trans; [apply Rabs_triang|]. rewrite !Rabs_mult, Rabs_Ropp.
    assert (Hix : 0 < / value x <= / lx).
    { split; [apply Rinv_0_lt_compat; lra | apply Rinv_le_contravar; lra]. }
    assert (HiX : 0 < / X <= / lx).
    { split; [apply Rinv_0_lt_compat; lra | apply Rinv_le_contravar; lra]. }
    rewrite (Rabs_right (/ value x)) by lra. rewrite (Rabs_right (/ X)) by lra.
    pose proof (Rabs_pos (value y - Y)). pose proof (Rabs_pos (value x - X)).
    pose proof (Rabs_pos Y).
    assert (Rabs (value y - Y) * / value x <= eps1 * / lx)
      by (apply Rmult_le_compat; lra).
    assert (Rabs Y * Rabs (value x - X) <= MY * eps2)
      by (apply Rmult_le_compat; lra).
    assert (/ value x * / X <= / lx * / lx) by (apply Rmult_le_compat; lra).
    assert (0 <= Rabs Y * Rabs (value x - X)) by nra.
    assert (Rabs Y * Rabs (value x - X) * (/ value x * / X) <= MY * eps2 * (/ lx * / lx)).
    { apply Rmult_le_compat; try lra. nra. }
    unfold Rdiv. rewrite Rinv_mult. lra. }
  replace (value (f y x) - atan (Y / X))
    with ((value (f y x) - atan (value y / value x))
          + (atan (value y / value x) - atan (Y / X))) by ring.
  eapply Rle_trans; [apply Rabs_triang|]. lra.
Qed.

End NearFacts.

(** The two transforms in binary64, followed operation by operation
    against their exact reading. *)
Module TrackFacts.
Import Binary64Value Binary64Trip RoundingFacts NearFacts.
#[local] Open Scope R_scope.
#[local] Abbreviation p2 := (powerRZ 2).

Lemma near_closed (eps : R) (a : float) (A : R) (s : bool) (m e : positive) :
  Prim2SF a = S754_finite s m (Z.neg e) ->
  Rabs ((if s then - IZR (Z.pos m) else IZR (Z.pos m)) / IZR (Z.pow_pos 2 e) - A) <= eps ->
  near eps a A.
Proof.
  intros Ha Herr. unfold near, finite, value. rewrite Ha. split; [reflexivity|].
  cbn [SFvalue]. change (Z.neg e) with (- Z.pos e)%Z.
  rewrite powerRZ_neg', (p2_IZR (Z.pos e)) by lia. exact Herr.
Qed.

Ltac near_literal :=
  eapply near_closed;
  [ vm_compute; reflexivity
  | cbv iota;
    match goal with
    | |- context [Z.pow_pos 2 ?e] =>
        let v := eval vm_compute in (Z.pow_pos 2 e) in change (Z.pow_pos 2 e) with v
    end;
    apply Rabs_le; lra ].

(** Side conditions on sizes. *)
Ltac absb := first [ lra | apply Rabs_le; split; lra | apply Rabs_le; split; nra ].

(** ** The exact reading of the two transforms on the box *)

(** [bd09togcj02] moves a point of the box by less than 0.00047. *)
Lemma moved_out (x y : R) :
  73 < x < 136 -> 3 < y < 54 ->
  Rabs (Coord.zOut x y * cos (Coord.thetaOut x y) - x) <= 47e-5
  /\ Rabs (Coord.zOut x y * sin (Coord.thetaOut x y) - y) <= 47e-5.
Proof.
  intros Hx Hy.
  destruct CoordFacts.constants as (_ & _ & Ha & Hb & _).
  destruct (CoordFacts.polar_in_box x y Hx Hy) as (Hxr & Hyr & Hr & Hphi & Hz & Ht).
  set (r := sqrt (x * x + y * y)) in *. set (phi := atan (y / x)) in *.
  pose proof (Rabs_pos (Coord.thetaOut x y - phi)).
  split.
  - replace (Coord.zOut x y * cos (Coord.thetaOut x y) - x)
      with (Coord.zOut x y * cos (Coord.thetaOut x y) - r * cos phi)
      by (rewrite <- Hxr; reflexivity).
    eapply Rle_trans; [apply TrigFacts.polar_cos_diff|].
    rewrite (Rabs_right r) by lra. nra.
  - replace (Coord.zOut x y * sin (Coord.thetaOut x y) - y)
      with (Coord.zOut x y * sin (Coord.thetaOut x y) - r * sin phi)
      by (rewrite <- Hyr; reflexivity).
    eapply Rle_trans; [apply TrigFacts.polar_sin_diff|].
    rewrite (Rabs_right r) by lra. nra.
Qed.

(** The exact round trip gives a point of the box back up to 0.000013. *)
Lemma roundTrip_close (x y : R) :
  73 < x < 136 -> 3 < y < 54 ->
  let p := @Coord.roundTrip R Coord.exact (x + Coord.offsetLng) (y + Coord.offsetLat) in
  Rabs (fst p - (x + Coord.offsetLng)) <= 13e-6
  /\ Rabs (snd p - (y + Coord.offsetLat)) <= 13e-6.
Proof.
  intros Hx Hy p.
  destruct (CoordFacts.polar_in_box x y Hx Hy) as (Hxr & Hyr & Hr & _).
  destruct (CoordFacts.back_in_box x y Hx Hy) as (Hz & Ht & Hzb & Htb).
  unfold p. rewrite CoordFacts.roundTrip_polar by (try assumption; lra). cbn [fst snd].
  set (r := sqrt (x * x + y * y)) in *. set (phi := atan (y / x)) in *.
  pose proof (Rabs_pos (Coord.thetaBack x y - phi)).
  split.
  - replace (Coord.zBack x y * cos (Coord.thetaBack x y) + Coord.offsetLng
             - (x + Coord.offsetLng))
      with (Coord.zBack x y * cos (Coord.thetaBack x y) - r * cos phi)
      by (rewrite <- Hxr; ring).
    eapply Rle_trans; [apply TrigFacts.polar_cos_diff|].
    rewrite (Rabs_right r) by lra. nra.
  - replace (Coord.zBack x y * sin (Coord.thetaBack x y) + Coord.offsetLat
             - (y + Coord.offsetLat))
      with (Coord.zBack x y * sin (Coord.thetaBack x y) - r * sin phi)
      by (rewrite <- Hyr; ring).
    eapply Rle_trans; [apply TrigFacts.polar_sin_diff|].
    rewrite (Rabs_right r) by lra. nra.
Qed.

Section Hosts.
Variables (hostSin hostCos : float -> float) (hostAtan2 : float -> float -> float).
Hypothesis Hsin : accurate hostSin sin 1e-12.
Hypothesis Hcos : accurate hostCos cos 1e-12.
Hypothesis Hatan2 : accurate2 hostAtan2 1e-12.

#[local] Abbreviation F := (Coord.binary64 hostSin hostCos hostAtan2).

Lemma near_offsetLng : near 1e-18 (@Coord.lit float F 65 4) Coord.offsetLng.
Proof. destruct CoordFacts.constants as (-> & _). near_literal. Qed.

Lemma near_offsetLat : near 1e-18 (@Coord.lit float F 6 3) Coord.offsetLat.
Proof. destruct CoordFacts.constants as (_ & -> & _). near_literal. Qed.

Lemma near_radiusTerm : near 1e-20 (@Coord.lit float F 2 5) Coord.radiusTerm.
Proof. destruct CoordFacts.constants as (_ & _ & -> & _). near_literal. Qed.

Lemma near_angleTerm : near 1e-21 (@Coord.lit float F 3 6) Coord.angleTerm.
Proof. destruct CoordFacts.constants as (_ & _ & _ & -> & _). near_literal. Qed.

Lemma near_X_PI : near 3e-14 (@Coord.X_PI float F) (@Coord.X_PI R Coord.exact).
Proof.
  eapply near_closed; [vm_compute; reflexivity|]. cbv iota.
  unfold Coord.X_PI. CoordFacts.eval_lits.
  match goal with
  | |- context [Z.pow_pos 2 ?e] =>
      let v := eval vm_compute in (Z.pow_pos 2 e) in change (Z.pow_pos 2 e) with v
  end.
  apply Rabs_le. lra.
Qed.

(** ** The polar part of the two transforms

    [x] and [y] are binary64 values within [e0 + 3e-13] of the reals [X]
    and [Y], a point of the box. *)

Section Polar.
Variables (x y : float) (X Y e0 : R).
Hypothesis He0 : 0 <= e0 <= 1e-9.
Hypothesis Hx : near (e0 + 3e-13) x X.
Hypothesis Hy : near (e0 + 3e-13) y Y.
Hypothesis HX : 73.59 < X < 135.2.
Hypothesis HY : 3.69 < Y < 53.7.

Lemma radius_range : 73.5 < sqrt (X * X + Y * Y) < 146.
Proof.
  split.
  - apply Rlt_le_trans with X; [lra|].
    rewrite <- (sqrt_square X) at 1 by lra. apply sqrt_le_1_alt. nra.
  - rewrite <- (sqrt_square 146) by lra. apply sqrt_lt_1_alt. nra.
Qed.

Lemma angle_range : 0 < Coord.Ratan2 Y X < 1.
Proof.
  rewrite CoordFacts.Ratan2_right by lra.
  assert (H : 0 < atan (Y / X) < Rtrigo1.PI / 4).
  { apply TrigFacts.atan_unit_range. split.
    - apply Rdiv_lt_0_compat; lra.
    - apply Rmult_lt_reg_r with X; [lra|]. unfold Rdiv.
      rewrite Rmult_assoc, Rinv_l by lra. lra. }
  pose proof PI_4. lra.
Qed.

Lemma near_radius :
  near (2.6 * e0 + 2e-12) (PrimFloat.sqrt (x * x + y * y)) (sqrt (X * X + Y * Y)).
Proof.
  assert (Hxx : near (273 * e0 + 1.1e-10) (x * x)%float (X * X)).
  { apply (near_mul_lin _ _ _ _ _ _ _ 136 136 Hx Hx); absb. }
  assert (Hyy : near (109 * e0 + 4e-11) (y * y)%float (Y * Y)).
  { apply (near_mul_lin _ _ _ _ _ _ _ 54 54 Hy Hy); absb. }
  assert (Hs : near (382 * e0 + 2e-10) (x * x + y * y)%float (X * X + Y * Y)).
  { apply (near_add_lin _ _ _ _ _ _ _ 18500 Hxx Hyy); absb. }
  apply (near_sqrt _ _ _ _ 73.5 146 Hs); try lra; nra.
Qed.

Lemma near_radiusShift :
  near (0.002 * e0 + 1e-15) (@Coord.lit float F 2 5 * hostSin (y * @Coord.X_PI float F))
       (Coord.radiusTerm * sin (Y * @Coord.X_PI R Coord.exact)).
Proof.
  destruct CoordFacts.constants as (_ & _ & Hrt & _ & HK).
  assert (Ha : near (54 * e0 + 2.1e-11) (y * @Coord.X_PI float F)%float (Y * @Coord.X_PI R Coord.exact)).
  { apply (near_mul_lin _ _ _ _ _ _ _ 54 53 Hy near_X_PI); absb. }
  assert (Hs : near (54 * e0 + 2.2e-11) (hostSin (y * @Coord.X_PI float F)) (sin (Y * @Coord.X_PI R Coord.exact))).
  { apply (near_sin _ 1e-12 _ _ _ _ Hsin Ha). lra. }
  pose proof (SIN_bound (Y * @Coord.X_PI R Coord.exact)).
  apply (near_mul_lin _ _ _ _ _ _ _ 2e-5 1 near_radiusTerm Hs); absb.
Qed.

Lemma near_angle :
  near (0.024 * e0 + 1.1e-12) (hostAtan2 y x) (Coord.Ratan2 Y X).
Proof.
  apply (near_atan2 _ 1e-12 _ _ _ _ _ _ _ 73.5 54 Hatan2 Hy Hx); absb.
Qed.

Lemma near_angleShift :
  near (0.001 * e0 + 1e-16) (@Coord.lit float F 3 6 * hostCos (x * @Coord.X_PI float F))
       (Coord.angleTerm * cos (X * @Coord.X_PI R Coord.exact)).
Proof.
  destruct CoordFacts.constants as (_ & _ & _ & Hat & HK).
  assert (Ha : near (54 * e0 + 2.8e-11) (x * @Coord.X_PI float F)%float (X * @Coord.X_PI R Coord.exact)).
  { apply (near_mul_lin _ _ _ _ _ _ _ 136 53 Hx near_X_PI); absb. }
  assert (Hs : near (54 * e0 + 2.9e-11) (hostCos (x * @Coord.X_PI float F)) (cos (X * @Coord.X_PI R Coord.exact))).
  { apply (near_cos _ 1e-12 _ _ _ _ Hcos Ha). lra. }
  pose proof (COS_bound (X * @Coord.X_PI R Coord.exact)).
  apply (near_mul_lin _ _ _ _ _ _ _ 3e-6 1 near_angleTerm Hs); absb.
Qed.

(** The point with the radius and the angle shifted down, as
    [bd09togcj02] does. *)
Lemma near_polar_sub :
  let z := (PrimFloat.sqrt (x * x + y * y)
            - @Coord.lit float F 2 5 * hostSin (y * @Coord.X_PI float F))%float in
  let theta := (hostAtan2 y x - @Coord.lit float F 3 6 * hostCos (x * @Coord.X_PI float F))%float in
  let Z := sqrt (X * X + Y * Y) - Coord.radiusTerm * sin (Y * @Coord.X_PI R Coord.exact) in
  let Theta := Coord.Ratan2 Y X - Coord.angleTerm * cos (X * @Coord.X_PI R Coord.exact) in
  near (7 * e0 + 3.5e-10) (z * hostCos theta)%float (Z * cos Theta)
  /\ near (7 * e0 + 3.5e-10) (z * hostSin theta)%float (Z * sin Theta).
Proof.
  intros z theta Z Theta.
  destruct CoordFacts.constants as (_ & _ & Hrt & Hat & _).
  pose proof radius_range as Hr. pose proof angle_range as Hphi.
  pose proof (SIN_bound (Y * @Coord.X_PI R Coord.exact)) as Hsb.
  pose proof (COS_bound (X * @Coord.X_PI R Coord.exact)) as Hcb.
  assert (Hz : near (2.7 * e0 + 3e-12) z Z).
  { apply (near_sub_lin _ _ _ _ _ _ _ 147 near_radius near_radiusShift); absb. }
  assert (Ht : near (0.025 * e0 + 1.2e-12) theta Theta).
  { apply (near_sub_lin _ _ _ _ _ _ _ 1 near_angle near_angleShift); absb. }
  assert (HZ : Rabs Z <= 147) by (unfold Z; absb).
  pose proof (COS_bound Theta). pose proof (SIN_bound Theta).
  split.
  - assert (Hc : near (0.025 * e0 + 2.2e-12) (hostCos theta) (cos Theta)).
    { apply (near_cos _ 1e-12 _ _ _ _ Hcos Ht). lra. }
    apply (near_mul_lin _ _ _ _ _ _ _ 147 1 Hz Hc); absb.
  - assert (Hs : near (0.025 * e0 + 2.2e-12) (hostSin theta) (sin Theta)).
    { apply (near_sin _ 1e-12 _ _ _ _ Hsin Ht). lra. }
    apply (near_mul_lin _ _ _ _ _ _ _ 147 1 Hz Hs); absb.
Qed.

(** The same with the radius and the angle shifted up, as [gcj02tobd09]
    does. *)
Lemma near_polar_add :
  let z := (PrimFloat.sqrt (x * x + y * y)
            + @Coord.lit float F 2 5 * hostSin (y * @Coord.X_PI float F))%float in
  let theta := (hostAtan2 y x + @Coord.lit float F 3 6 * hostCos (x * @Coord.X_PI float F))%float in
  let Z := sqrt (X * X + Y * Y) + Coord.radiusTerm * sin (Y * @Coord.X_PI R Coord.exact) in
  let Theta := Coord.Ratan2 Y X + Coord.angleTerm * cos (X * @Coord.X_PI R Coord.exact) in
  near (7 * e0 + 3.5e-10) (z * hostCos theta)%float (Z * cos Theta)
  /\ near (7 * e0 + 3.5e-10) (z * hostSin theta)%float (Z * sin Theta).
Proof.
  intros z theta Z Theta.
  destruct CoordFacts.constants as (_ & _ & Hrt & Hat & _).
  pose proof radius_range as Hr. pose proof angle_range as Hphi.
  pose proof (SIN_bound (Y * @Coord.X_PI R Coord.exact)) as Hsb.
  pose proof (COS_bound (X * @Coord.X_PI R Coord.exact)) as Hcb.
  assert (Hz : near (2.7 * e0 + 3e-12) z Z).
  { apply (near_add_lin _ _ _ _ _ _ _ 147 near_radius near_radiusShift); absb. }
  assert (Ht : near (0.025 * e0 + 1.2e-12) theta Theta).
  { apply (near_add_lin _ _ _ _ _ _ _ 1 near_angle near_angleShift); absb. }
  assert (HZ : Rabs Z <= 147) by (unfold Z; absb).
  pose proof (COS_bound Theta). pose proof (SIN_bound Theta).
  split.
  - assert (Hc : near (0.025 * e0 + 2.2e-12) (hostCos theta) (cos Theta)).
    { apply (near_cos _ 1e-12 _ _ _ _ Hcos Ht). lra. }
    apply (near_mul_lin _ _ _ _ _ _ _ 147 1 Hz Hc); absb.
  - assert (Hs : near (0.025 * e0 + 2.2e-12) (hostSin theta) (sin Theta)).
    { apply (near_sin _ 1e-12 _ _ _ _ Hsin Ht). lra. }
    apply (near_mul_lin _ _ _ _ _ _ _ 147 1 Hz Hs); absb.
Qed.

End Polar.

(** ** The two transforms *)

Lemma near_self (a : float) : finite a = true -> near 0 a (value a).
Proof.
  intros Hf. split; [assumption|]. rewrite Rminus_diag, Rabs_R0. lra.
Qed.

Lemma near_bd09togcj02 (lng lat : float) (e0 LNG LAT : R) :
  0 <= e0 <= 1e-9 -> near e0 lng LNG -> near e0 lat LAT ->
  73.6 < LNG < 135.1 -> 3.8 < LAT < 53.6 ->
  near (7 * e0 + 3.5e-10) (fst (@Coord.bd09togcj02 float F lng lat))
       (fst (@Coord.bd09togcj02 R Coord.exact LNG LAT))
  /\ near (7 * e0 + 3.5e-10) (snd (@Coord.bd09togcj02 float F lng lat))
          (snd (@Coord.bd09togcj02 R Coord.exact LNG LAT)).
Proof.
  intros He0 Hlng Hlat HL HT.
  destruct CoordFacts.constants as (Hol & Hot & _).
  assert (Hx : near (e0 + 3e-13) (lng - @Coord.lit float F 65 4)%float (LNG - Coord.offsetLng)).
  { apply (near_sub_lin _ _ _ _ _ _ _ 136 Hlng near_offsetLng); absb. }
  assert (Hy : near (e0 + 3e-13) (lat - @Coord.lit float F 6 3)%float (LAT - Coord.offsetLat)).
  { apply (near_sub_lin _ _ _ _ _ _ _ 136 Hlat near_offsetLat); absb. }
  exact (near_polar_sub _ _ _ _ e0 He0 Hx Hy ltac:(lra) ltac:(lra)).
Qed.

Lemma near_gcj02tobd09 (lng lat : float) (e0 LNG LAT : R) :
  0 <= e0 <= 1e-9 -> near e0 lng LNG -> near e0 lat LAT ->
  73.59 < LNG < 135.2 -> 3.69 < LAT < 53.7 ->
  near (7 * e0 + 4e-10) (fst (@Coord.gcj02tobd09 float F lng lat))
       (fst (@Coord.gcj02tobd09 R Coord.exact LNG LAT))
  /\ near (7 * e0 + 4e-10) (snd (@Coord.gcj02tobd09 float F lng lat))
          (snd (@Coord.gcj02tobd09 R Coord.exact LNG LAT)).
Proof.
  intros He0 Hlng Hlat HL HT.
  destruct CoordFacts.constants as (Hol & Hot & Hrt & Hat & _).
  assert (Hx : near (e0 + 3e-13) lng LNG) by (apply (near_weaken e0); [assumption | lra]).
  assert (Hy : near (e0 + 3e-13) lat LAT) by (apply (near_weaken e0); [assumption | lra]).
  destruct (near_polar_add _ _ _ _ e0 He0 Hx Hy HL HT) as [Hgx Hgy].
  pose proof (radius_range LNG LAT HL HT) as Hr.
  pose proof (angle_range LNG LAT HL HT) as Hphi.
  unfold Coord.gcj02tobd09. cbn [fst snd].
  cbn [Coord.add Coord.sub Coord.mul Coord.sqrt Coord.sin Coord.cos Coord.atan2
       Coord.binary64 Coord.exact].
  fold Coord.offsetLng Coord.offsetLat Coord.radiusTerm Coord.angleTerm.
  set (Z := sqrt (LNG * LNG + LAT * LAT)
            + Coord.radiusTerm * sin (LAT * @Coord.X_PI R Coord.exact)) in *.
  set (Theta := Coord.Ratan2 LAT LNG
                + Coord.angleTerm * cos (LNG * @Coord.X_PI R Coord.exact)) in *.
  pose proof (SIN_bound (LAT * @Coord.X_PI R Coord.exact)) as Hsb.
  assert (HZ : 0 <= Z <= 147) by (unfold Z; nra).
  pose proof (COS_bound Theta). pose proof (SIN_bound Theta).
  split.
  - apply (near_add_lin _ _ _ _ _ _ _ 147 Hgx near_offsetLng); absb.
  - apply (near_add_lin _ _ _ _ _ _ _ 147 Hgy near_offsetLat); absb.
Qed.

(** ** The round trip *)

Lemma near_roundTrip (lng lat : float) :
  finite lng = true -> finite lat = true ->
  73.6 < value lng < 135.1 -> 3.8 < value lat < 53.6 ->
  near 3e-9 (fst (@Coord.roundTrip float F lng lat))
       (fst (@Coord.roundTrip R Coord.exact (value lng) (value lat)))
  /\ near 3e-9 (snd (@Coord.roundTrip float F lng lat))
          (snd (@Coord.roundTrip R Coord.exact (value lng) (value lat))).
Proof.
  intros Hfl Hft HL HT.
  destruct CoordFacts.constants as (Hol & Hot & _).
  destruct (near_bd09togcj02 lng lat 0 (value lng) (value lat) ltac:(lra)
              (near_self lng Hfl) (near_self lat Hft) HL HT) as [Hg1 Hg2].
  unfold Coord.roundTrip.
  set (x := value lng - Coord.offsetLng). set (y := value lat - Coord.offsetLat).
  assert (Hx : 73 < x < 136) by (unfold x; lra).
  assert (Hy : 3 < y < 54) by (unfold y; lra).
  pose proof (CoordTripsFacts.bd09togcj02_polar x y ltac:(lra)) as Hp.
  replace (x + Coord.offsetLng) with (value lng) in Hp by (unfold x; ring).
  replace (y + Coord.offsetLat) with (value lat) in Hp by (unfold y; ring).
  destruct (moved_out x y Hx Hy) as [Hmx Hmy].
  apply TrigFacts.Rabs_bound in Hmx. apply TrigFacts.Rabs_bound in Hmy.
  rewrite Hp in *. cbn [fst snd] in Hg1, Hg2.
  destruct (@Coord.bd09togcj02 float F lng lat) as [g1 g2]. cbn [fst snd] in Hg1, Hg2.
  destruct (near_gcj02tobd09 g1 g2 3.5e-10 _ _ ltac:(lra)
              ltac:(apply (near_weaken _ _ _ _ Hg1); lra)
              ltac:(apply (near_weaken _ _ _ _ Hg2); lra)
              ltac:(unfold x in *; lra) ltac:(unfold y in *; lra)) as [Hb1 Hb2].
  split; [apply (near_weaken _ _ _ _ Hb1) | apply (near_weaken _ _ _ _ Hb2)]; lra.
Qed.

End Hosts.
End TrackFacts.

(** What the comparisons of [out_of_china] say about the values. *)
Module CompareFacts.
Import Binary64Value RoundingFacts NearFacts TrackFacts.
#[local] Open Scope R_scope.
#[local] Abbreviation p2 := (powerRZ 2).

(** ** The order of binary64 values and the order of the reals *)

Lemma mantissa_range (s : bool) (m : positive) (e : Z) :
  valid_binary (S754_finite s m e) = true ->
  (-1074 <= e)%Z /\ IZR (Z.pos m) < p2 53
  /\ ((-1074 < e)%Z -> p2 52 <= IZR (Z.pos m)).
Proof.
  intros Hvalid.
  unfold SpecFloat.valid_binary, SpecFloat.bounded, SpecFloat.canonical_mantissa,
    SpecFloat.fexp in Hvalid.
  apply andb_prop in Hvalid. destruct Hvalid as [Hc _]. apply Z.eqb_eq in Hc.
  change (SpecFloat.emin prec emax) with (-1074)%Z in Hc.
  change prec with 53%Z in Hc.
  pose proof (Zdigits2_bounds (Z.pos m) ltac:(lia)) as [Hlo Hhi].
  change (Zdigits2 (Z.pos m)) with (Z.pos (digits2_pos m)) in Hlo, Hhi.
  set (d := Z.pos (digits2_pos m)) in *.
  assert (Hd : (d <= 53)%Z) by lia.
  split; [lia|]. split.
  - rewrite (p2_IZR 53) by lia. apply IZR_lt.
    apply Z.lt_le_trans with (2 ^ d)%Z; [assumption|].
    apply Z.pow_le_mono_r; lia.
  - intros He. assert (d = 53%Z) by lia.
    rewrite (p2_IZR 52) by lia. apply IZR_le.
    replace (d - 1)%Z with 52%Z in Hlo by lia. exact Hlo.
Qed.

Lemma exponent_order (s1 s2 : bool) (m1 m2 : positive) (e1 e2 : Z) :
  valid_binary (S754_finite s1 m1 e1) = true ->
  valid_binary (S754_finite s2 m2 e2) = true ->
  (e1 < e2)%Z ->
  IZR (Z.pos m1) * p2 e1 < IZR (Z.pos m2) * p2 e2.
Proof.
  intros H1 H2 He.
  destruct (mantissa_range _ _ _ H1) as (Hmin & Hup & _).
  destruct (mantissa_range _ _ _ H2) as (_ & _ & Hlow).
  specialize (Hlow ltac:(lia)).
  pose proof (p2_pos e1). pose proof (p2_pos e2).
  pose proof (p2_le (53 + e1) (52 + e2) ltac:(lia)) as Hle.
  rewrite !p2_add in Hle.
  apply Rlt_le_trans with (p2 53 * p2 e1); [nra|].
  apply Rle_trans with (p2 52 * p2 e2); [assumption | nra].
Qed.

Lemma mantissa_order (m1 m2 : positive) (e : Z) :
  (m1 < m2)%positive -> IZR (Z.pos m1) * p2 e < IZR (Z.pos m2) * p2 e.
Proof.
  intros Hm. pose proof (p2_pos e).
  assert (IZR (Z.pos m1) < IZR (Z.pos m2)) by (apply IZR_lt; lia). nra.
Qed.

Lemma ltb_value (x y : float) :
  PrimFloat.ltb x y = true -> finite x = true -> finite y = true ->
  value x < value y.
Proof.
  rewrite ltb_spec. unfold finite, value, SFltb.
  pose proof (Prim2SF_valid x) as Hvx. pose proof (Prim2SF_valid y) as Hvy.
  intros Hlt Hfx Hfy.
  destruct (Prim2SF x) as [sx|sx| |sx mx ex]; try discriminate;
  destruct (Prim2SF y) as [sy|sy| |sy my ey]; try discriminate;
    cbv [SFcompare] in Hlt; cbn [SFvalue]; clear Hfx Hfy.
  - pose proof (p2_pos ey). pose proof (IZR_lt 0 (Z.pos my) ltac:(lia)).
    destruct sy; [discriminate | nra].
  - pose proof (p2_pos ex). pose proof (IZR_lt 0 (Z.pos mx) ltac:(lia)).
    destruct sx; [nra | discriminate].
  - pose proof (p2_pos ex). pose proof (IZR_lt 0 (Z.pos mx) ltac:(lia)).
    pose proof (p2_pos ey). pose proof (IZR_lt 0 (Z.pos my) ltac:(lia)).
    destruct sx, sy; try discriminate.
    + destruct (Z.compare_spec ex ey) as [-> | He | He]; try discriminate.
      * assert (Hm : (my < mx)%positive).
        { rewrite Pos.compare_cont_spec in Hlt. cbn [Pos.switch_Eq] in Hlt.
          destruct (Pos.compare_spec mx my); try discriminate. assumption. }
        pose proof (mantissa_order my mx ey Hm). lra.
      * pose proof (exponent_order _ _ _ _ _ _ Hvy Hvx He). lra.
    + nra.
    + destruct (Z.compare_spec ex ey) as [-> | He | He]; try discriminate.
      * assert (Hm : (mx < my)%positive).
        { rewrite Pos.compare_cont_spec in Hlt. cbn [Pos.switch_Eq] in Hlt.
          destruct (Pos.compare_spec mx my); try discriminate. assumption. }
        exact (mantissa_order mx my ey Hm).
      * exact (exponent_order _ _ _ _ _ _ Hvx Hvy He).
Qed.

(** A value strictly between two finite values is finite. *)
Lemma ltb_between (lo x hi : float) :
  finite lo = true -> finite hi = true ->
  PrimFloat.ltb lo x = true -> PrimFloat.ltb x hi = true -> finite x = true.
Proof.
  rewrite !ltb_spec. unfold finite, SFltb. intros Hlo Hhi H1 H2.
  destruct (Prim2SF x) as [sx|sx| |sx mx ex]; try reflexivity.
  - destruct (Prim2SF lo) as [sl|sl| |sl ml el]; try discriminate;
    destruct (Prim2SF hi) as [sh|sh| |sh mh eh]; try discriminate;
    destruct sx; cbv [SFcompare] in H1, H2; discriminate.
  - destruct (Prim2SF lo) as [sl|sl| |sl ml el]; discriminate.
Qed.

Section Hosts.
Variables (hostSin hostCos : float -> float) (hostAtan2 : float -> float -> float).
#[local] Abbreviation F := (Coord.binary64 hostSin hostCos hostAtan2).

Lemma near_west : near 1e-13 (@Coord.lit float F 7366 2) 73.66.
Proof. near_literal. Qed.

Lemma near_east : near 1e-13 (@Coord.lit float F 13505 2) 135.05.
Proof. near_literal. Qed.

Lemma near_south : near 1e-13 (@Coord.lit float F 386 2) 3.86.
Proof. near_literal. Qed.

Lemma near_north : near 1e-13 (@Coord.lit float F 5355 2) 53.55.
Proof. near_literal. Qed.

(** The points for which [out_of_china] is false. *)
Lemma in_china_values (lng lat : float) :
  @Coord.out_of_china float F lng lat = false ->
  finite lng = true /\ finite lat = true
  /\ 73.6 < value lng < 135.1 /\ 3.8 < value lat < 53.6.
Proof.
  unfold Coord.out_of_china. cbn [Coord.gtb Coord.ltb Coord.binary64].
  intros Hbox. apply negb_false_iff in Hbox.
  apply andb_prop in Hbox. destruct Hbox as [Hbox Hn].
  apply andb_prop in Hbox. destruct Hbox as [Hbox Hs].
  apply andb_prop in Hbox. destruct Hbox as [Hw He].
  destruct near_west as [Hfw Hvw], near_east as [Hfe Hve].
  destruct near_south as [Hfs Hvs], near_north as [Hfn Hvn].
  apply TrigFacts.Rabs_bound in Hvw, Hve, Hvs, Hvn.
  assert (Hflng : finite lng = true) by exact (ltb_between _ _ _ Hfw Hfe Hw He).
  assert (Hflat : finite lat = true) by exact (ltb_between _ _ _ Hfs Hfn Hs Hn).
  pose proof (ltb_value _ _ Hw Hfw Hflng). pose proof (ltb_value _ _ He Hflng Hfe).
  pose proof (ltb_value _ _ Hs Hfs Hflat). pose proof (ltb_value _ _ Hn Hflat Hfn).
  repeat split; try assumption; lra.
Qed.

End Hosts.

End CompareFacts.

(** The exact round trip at the points next to (90.0065, 18.006). *)
Module ProbeFacts.
#[local] Open Scope R_scope.
#[local] Abbreviation pi := Rtrigo1.PI.

(** ** Small angles and whole turns *)

Lemma PI_digits : 3.1415926 < pi < 3.1415927.
Proof.
  pose proof (Machin.PI_2_3_7_ineq 3) as [Hlo Hhi].
  unfold tg_alt, Machin.PI_2_3_7_tg, Ratan_seq in Hlo, Hhi.
  cbn [sum_f_R0 Nat.mul Nat.add] in Hlo, Hhi.
  cbn [pow INR] in Hlo, Hhi.
  split; lra.
Qed.

Lemma X_PI_digits : 52.3598775 < @Coord.X_PI R Coord.exact < 52.3598776.
Proof. unfold Coord.X_PI. CoordFacts.eval_lits. lra. Qed.

Lemma sin_small (t : R) : 0 <= t <= 1 -> t - t * t * t / 6 <= sin t <= t.
Proof.
  intros Ht. split.
  - pose proof (TrigFacts.sin_cubic_lower t Ht) as H. cbn [pow] in H. lra.
  - pose proof (TrigFacts.Rabs_sin_le t) as H. rewrite (Rabs_right t) in H by lra.
    apply TrigFacts.Rabs_bound in H. lra.
Qed.

Lemma cos_small (t : R) : 1 - t * t / 2 <= cos t <= 1.
Proof.
  split; [apply TrigFacts.cos_quadratic_lower | apply COS_bound].
Qed.

Lemma sin_near_turns (u d : R) (k : nat) :
  Rabs (u - 2 * INR k * pi) <= d -> Rabs (sin u) <= d.
Proof.
  intros Hu. replace u with ((u - 2 * INR k * pi) + 2 * INR k * pi) by ring.
  rewrite sin_period. eapply Rle_trans; [apply TrigFacts.Rabs_sin_le | assumption].
Qed.

Lemma cos_near_turns (u d : R) (k : nat) :
  Rabs (u - 2 * INR k * pi) <= d -> 1 - d * d / 2 <= cos u.
Proof.
  intros Hu. replace u with ((u - 2 * INR k * pi) + 2 * INR k * pi) by ring.
  rewrite cos_period.
  pose proof (TrigFacts.cos_quadratic_lower (u - 2 * INR k * pi)) as Hc.
  apply TrigFacts.Rabs_bound in Hu.
  assert ((u - 2 * INR k * pi) * (u - 2 * INR k * pi) <= d * d) by nra.
  lra.
Qed.

(** ** The round trip near (90, 18) *)

(** Where [bd09togcj02] puts the latitude. *)
Lemma moved_lat (r sp cp ct st a s x y : R) :
  x = r * cp -> y = r * sp ->
  y - (r - a * s) * (sp * ct - cp * st)
  = y * (1 - ct) + x * st + a * s * (sp * ct - cp * st).
Proof. intros -> ->. ring. Qed.

(** The radius after the round trip falls short of the radius of the
    point: the way back takes the sine at the moved latitude. *)
Lemma radius_gap (x y : R) :
  Rabs (x - 90) <= 1e-9 -> Rabs (y - 18) <= 1e-9 ->
  28e-8 <= sqrt (x * x + y * y) - Coord.zBack x y.
Proof.
  intros Hx Hy.
  apply TrigFacts.Rabs_bound in Hx. apply TrigFacts.Rabs_bound in Hy.
  destruct CoordFacts.constants as (_ & _ & Ha & Hb & _).
  pose proof X_PI_digits as HK. pose proof PI_digits as Hpi.
  destruct (CoordFacts.polar_in_box x y ltac:(lra) ltac:(lra))
    as (Hxr & Hyr & Hr & Hphi & _ & _).
  unfold Coord.zBack, Coord.zOut, Coord.thetaOut.
  set (K := @Coord.X_PI R Coord.exact) in *.
  set (r := sqrt (x * x + y * y)) in *. set (phi := atan (y / x)) in *.
  assert (H750 : INR 750 = 750) by (rewrite INR_IZR_INZ; reflexivity).
  assert (H150 : INR 150 = 150) by (rewrite INR_IZR_INZ; reflexivity).
  (* the two phases on the way out *)
  assert (Hu : Rabs (y * K - 2 * INR 150 * pi) <= 2e-5)
    by (rewrite H150; clear - Hy HK Hpi; apply Rabs_le; split; nra).
  assert (Hw : Rabs (x * K - 2 * INR 750 * pi) <= 1e-4)
    by (rewrite H750; clear - Hx HK Hpi; apply Rabs_le; split; nra).
  pose proof (sin_near_turns _ _ _ Hu) as Hs. apply TrigFacts.Rabs_bound in Hs.
  pose proof (cos_near_turns _ _ _ Hu) as Hcu.
  pose proof (cos_near_turns _ _ _ Hw) as Hc.
  pose proof (COS_bound (x * K)) as Hc1.
  set (u := y * K) in *. set (s := sin u) in *. set (cu := cos u) in *.
  set (c := cos (x * K)) in *.
  assert (Es : sin u = s) by reflexivity. assert (Ecu : cos u = cu) by reflexivity.
  clearbody c s cu.
  (* the angle of the way out *)
  set (t := Coord.angleTerm * c).
  assert (Ht : 2.99999e-6 <= t <= 3e-6) by (unfold t; rewrite Hb; lra).
  destruct (sin_small t ltac:(lra)) as [Hst1 Hst2].
  destruct (cos_small t) as [Hct1 Hct2].
  assert (Htt : 0 <= t * t <= 9e-12) by (clear - Ht; nra).
  assert (Httt : 0 <= t * t * t <= 27e-18) by (clear - Ht Htt; nra).
  rewrite sin_minus.
  set (st := sin t) in *. set (ct := cos t) in *.
  pose proof (SIN_bound (phi - t)) as Hsth. rewrite sin_minus in Hsth. fold st ct in Hsth.
  set (sp := sin phi) in *. set (cp := cos phi) in *.
  set (sth := sp * ct - cp * st) in *.
  set (a := Coord.radiusTerm) in *.
  (* how far the latitude moved *)
  pose proof (moved_lat r sp cp ct st a s x y Hxr Hyr) as Hgy. fold sth in Hgy.
  clearbody st ct sth. clear Hxr Hyr. clearbody sp cp r phi.
  set (gy := (r - a * s) * sth) in *.
  assert (Hmove : 2.6999e-4 <= y - gy <= 2.71e-4).
  { rewrite Hgy.
    assert (H1 : 0 <= y * (1 - ct) <= 1e-9) by (clear - Hy Hct1 Hct2 Htt; nra).
    assert (H2 : 2.69999e-4 <= x * st <= 2.7001e-4) by (clear - Hx Hst1 Hst2 Ht Httt; nra).
    assert (H3 : - 2e-5 <= s * sth <= 2e-5) by (clear - Hs Hsth; nra).
    rewrite Ha. replace (2 / 100000 * s * sth) with (2 / 100000 * (s * sth)) by ring.
    lra. }
  clear Hgy.
  set (D := (y - gy) * K).
  assert (HD : 0.014136 <= D <= 0.0142) by (unfold D; clear - Hmove HK; nra).
  replace (gy * K) with (u - D) by (unfold D, u; ring).
  rewrite sin_minus, Es, Ecu.
  destruct (sin_small D ltac:(lra)) as [HsD1 HsD2].
  destruct (cos_small D) as [HcD1 HcD2].
  assert (HDD : 0 <= D * D <= 0.00021) by (clear - HD; nra).
  assert (HDDD : 0 <= D * D * D <= 3e-6) by (clear - HD HDD; nra).
  set (sD := sin D) in *. set (cD := cos D) in *. clearbody sD cD.
  replace (r - (r - a * s + a * (s * cD - cu * sD)))
    with (a * (s * (1 - cD) + cu * sD)) by ring.
  assert (H1 : - 1e-8 <= s * (1 - cD) <= 1e-8) by (clear - Hs HcD1 HcD2 HDD; nra).
  assert (H2 : 0.01413 <= cu * sD).
  { assert (1 - 1e-9 <= cu) by lra. clear - H HsD1 HD HDDD. nra. }
  rewrite Ha. lra.
Qed.

(** Two points at radii [z] and [r] are at least [r - z] apart. *)
Lemma apart (z r t phi : R) :
  0 <= z * r ->
  (z - r) * (z - r)
  <= (z * cos t - r * cos phi) * (z * cos t - r * cos phi)
     + (z * sin t - r * sin phi) * (z * sin t - r * sin phi).
Proof.
  intros Hzr.
  pose proof (sin2_cos2 t) as H1. pose proof (sin2_cos2 phi) as H2.
  pose proof (cos_minus t phi) as Hcm.
  pose proof (COS_bound (t - phi)) as Hcb.
  unfold Rsqr in H1, H2.
  replace ((z * cos t - r * cos phi) * (z * cos t - r * cos phi)
           + (z * sin t - r * sin phi) * (z * sin t - r * sin phi))
    with (z * z * (sin t * sin t + cos t * cos t)
          + r * r * (sin phi * sin phi + cos phi * cos phi)
          - 2 * (z * r) * cos (t - phi))
    by (rewrite Hcm; ring).
  rewrite H1, H2. nra.
Qed.

(** The exact round trip misses every point that close to (90.0065,
    18.006) by more than 0.00000019 in one of the coordinates. *)
Lemma roundTrip_far (x y : R) :
  Rabs (x - 90) <= 1e-9 -> Rabs (y - 18) <= 1e-9 ->
  let p := @Coord.roundTrip R Coord.exact (x + Coord.offsetLng) (y + Coord.offsetLat) in
  ~ (Rabs (fst p - (x + Coord.offsetLng)) <= 19e-8
     /\ Rabs (snd p - (y + Coord.offsetLat)) <= 19e-8).
Proof.
  intros Hx Hy p [H1 H2].
  pose proof (radius_gap x y Hx Hy) as Hgap.
  apply TrigFacts.Rabs_bound in Hx. apply TrigFacts.Rabs_bound in Hy.
  assert (Hx' : 73 < x < 136) by lra. assert (Hy' : 3 < y < 54) by lra.
  destruct (CoordFacts.polar_in_box x y Hx' Hy') as (Hxr & Hyr & Hr & _).
  destruct (CoordFacts.back_in_box x y Hx' Hy') as (Hz & Ht & Hzb & _).
  unfold p in H1, H2.
  rewrite CoordFacts.roundTrip_polar in H1, H2 by (try assumption; lra).
  cbn [fst snd] in H1, H2.
  set (r := sqrt (x * x + y * y)) in *. set (phi := atan (y / x)) in *.
  set (zb := Coord.zBack x y) in *. set (tb := Coord.thetaBack x y) in *.
  apply TrigFacts.Rabs_bound in Hzb.
  pose proof (apart zb r tb phi ltac:(clear - Hzb Hr; nra)) as Hd.
  rewrite <- Hxr, <- Hyr in Hd.
  replace (zb * cos tb + Coord.offsetLng - (x + Coord.offsetLng))
    with (zb * cos tb - x) in H1 by ring.
  replace (zb * sin tb + Coord.offsetLat - (y + Coord.offsetLat))
    with (zb * sin tb - y) in H2 by ring.
  apply TrigFacts.Rabs_bound in H1. apply TrigFacts.Rabs_bound in H2.
  clearbody zb tb r phi. clear - Hd Hgap H1 H2. nra.
Qed.

End ProbeFacts.

(** The grid host is accurate. *)
Module GridFacts.
Import Binary64Value RoundingFacts NearFacts TrackFacts Binary64Trip.
#[local] Open Scope R_scope.
#[local] Abbreviation p2 := (powerRZ 2).

Lemma near_step : near 0 0x1p-50%float (/ 1125899906842624).
Proof.
  eapply near_closed; [vm_compute; reflexivity|]. cbv iota.
  match goal with
  | |- context [Z.pow_pos 2 ?e] =>
      let v := eval vm_compute in (Z.pow_pos 2 e) in change (Z.pow_pos 2 e) with v
  end.
  apply Rabs_le. lra.
Qed.

Lemma near_four : near 0 4%float 4.
Proof. near_literal. Qed.

(** The whole number of steps, as a binary64 value. *)
Lemma steps_value (k : Z) :
  (0 <= k <= 7 * 1125899906842624)%Z ->
  finite (of_uint63 (Uint63.of_Z k)) = true
  /\ Rabs (value (of_uint63 (Uint63.of_Z k)) - IZR k) <= 8.
Proof.
  intros Hk. unfold finite, value. rewrite of_uint63_spec, Uint63.of_Z_spec.
  rewrite Z.mod_small by (change Uint63.wB with 9223372036854775808%Z; lia).
  assert (Hk0 : 0 <= IZR k <= 7 * 1125899906842624).
  { split; [apply IZR_le; lia|]. replace (7 * 1125899906842624) with (IZR (7 * 1125899906842624)).
    - apply IZR_le. lia.
    - rewrite mult_IZR. reflexivity. }
  assert (Hp0 : p2 0 = 1) by reflexivity.
  pose proof (p2_ge_1 900 ltac:(lia)) as H900.
  assert (Hbig : 7 * 1125899906842624 < p2 900).
  { apply Rlt_le_trans with (p2 53); [|apply p2_le; lia].
    rewrite (p2_IZR 53) by lia. change (IZR (2 ^ 53)) with 9007199254740992. lra. }
  destruct (normalize_value k 0 false ltac:(lia)) as [Hshape Herr].
  { rewrite Hp0, Rmult_1_r, Rabs_right by lra. lra. }
  rewrite Hp0, Rmult_1_r in Herr.
  split.
  - destruct Hshape as (s' & m' & e' & [-> | ->]); reflexivity.
  - eapply Rle_trans; [exact Herr|]. unfold roundOff.
    rewrite Rabs_right by lra.
    assert (H50 : p2 (-50) = / 1125899906842624).
    { change (-50)%Z with (- (50))%Z. rewrite powerRZ_neg', (p2_IZR 50) by lia. reflexivity. }
    pose proof (p2_le (-1072) 0 ltac:(lia)) as Hmu. rewrite Hp0 in Hmu.
    rewrite H50. lra.
Qed.

Lemma toGrid_near (r : R) : -3 <= r <= 3 -> near 1e-13 (toGrid r) r.
Proof.
  intros Hr. unfold toGrid.
  set (c := 1125899906842624).
  set (k := Int_part ((r + 4) * c)).
  destruct (base_Int_part ((r + 4) * c)) as [Hlo Hhi]. fold k in Hlo, Hhi.
  assert (Hk : (0 <= k <= 7 * 1125899906842624)%Z).
  { split.
    - apply le_IZR. unfold c in *. lra.
    - apply le_IZR. rewrite mult_IZR. unfold c in *. lra. }
  destruct (steps_value k Hk) as [Hf0 Hv0].
  set (f0 := of_uint63 (Uint63.of_Z k)) in *.
  apply TrigFacts.Rabs_bound in Hv0.
  destruct near_step as [Hfs Hvs]. apply TrigFacts.Rabs_bound in Hvs.
  assert (Hstep : value 0x1p-50%float = / c) by (unfold c; lra).
  assert (Hic : 0 < / c < 1e-15) by (unfold c; lra).
  pose proof big_enough as Hbig.
  assert (Hbig' : 7 * 1125899906842624 + 8 <= p2 400).
  { apply Rle_trans with (p2 53); [|apply p2_le; lia].
    rewrite (p2_IZR 53) by lia. change (IZR (2 ^ 53)) with 9007199254740992. lra. }
  assert (Hk0 : 0 <= IZR k <= 7 * c) by (unfold c in *; lra).
  destruct (value_mul f0 0x1p-50%float Hf0 Hfs) as [Hf1 Hv1].
  { apply Rabs_le. unfold c in *. lra. }
  { rewrite Hstep. apply Rabs_le. lra. }
  rewrite Hstep in Hv1.
  assert (Hprod : Rabs (value f0 * / c) <= 8).
  { apply Rabs_le. unfold c in *. lra. }
  pose proof (roundOff_le _ _ Hprod) as Hro.
  assert (Hn1 : near 2e-14 (f0 * 0x1p-50)%float (r + 4)).
  { split; [assumption|].
    apply TrigFacts.Rabs_bound in Hv1. apply Rabs_le. unfold c in *. lra. }
  assert (Hn : near 1e-13 (f0 * 0x1p-50 - 4)%float (r + 4 - 4))
    by (apply (near_sub_lin _ _ _ _ _ _ _ 8 Hn1 near_four); absb).
  replace (r + 4 - 4) with r in Hn by ring. exact Hn.
Qed.

Lemma gridSin_accurate : accurate gridSin sin 1e-12.
Proof.
  intros a _. pose proof (SIN_bound (value a)).
  destruct (toGrid_near (sin (value a)) ltac:(lra)) as [Hf Hv].
  split; [exact Hf | unfold gridSin; lra].
Qed.

Lemma gridCos_accurate : accurate gridCos cos 1e-12.
Proof.
  intros a _. pose proof (COS_bound (value a)).
  destruct (toGrid_near (cos (value a)) ltac:(lra)) as [Hf Hv].
  split; [exact Hf | unfold gridCos; lra].
Qed.

Lemma gridAtan2_accurate : accurate2 gridAtan2 1e-12.
Proof.
  intros y x _ _ Hx. unfold gridAtan2.
  rewrite CoordFacts.Ratan2_right by assumption.
  pose proof (atan_bound (value y / value x)) as Hb. pose proof PI_4.
  destruct (toGrid_near (atan (value y / value x)) ltac:(lra)) as [Hf Hv].
  split; [exact Hf | lra].
Qed.

End GridFacts.

Module Binary64TripFacts.
Import Binary64Value RoundingFacts NearFacts TrackFacts CompareFacts Binary64Trip GridFacts.
#[local] Open Scope R_scope.

Lemma probe_in_china : @Coord.out_of_china float gridHost probeLng probeLat = false.
Proof. vm_compute. reflexivity. Qed.

Lemma near_probeLng : near 1e-13 probeLng 90.0065.
Proof. unfold probeLng. eapply near_closed; [vm_compute; reflexivity|]. cbv iota.
  match goal with
  | |- context [Z.pow_pos 2 ?e] =>
      let v := eval vm_compute in (Z.pow_pos 2 e) in change (Z.pow_pos 2 e) with v
  end.
  apply Rabs_le. lra.
Qed.

Lemma near_probeLat : near 1e-13 probeLat 18.006.
Proof. unfold probeLat. eapply near_closed; [vm_compute; reflexivity|]. cbv iota.
  match goal with
  | |- context [Z.pow_pos 2 ?e] =>
      let v := eval vm_compute in (Z.pow_pos 2 e) in change (Z.pow_pos 2 e) with v
  end.
  apply Rabs_le. lra.
Qed.

(** With any accurate host the round trip misses (90.0065, 18.006) by
    more than 0.0000001 in one of the coordinates. *)
Lemma probe_is_missed (hostSin hostCos : float -> float)
    (hostAtan2 : float -> float -> float) :
  accurate hostSin sin 1e-12 -> accurate hostCos cos 1e-12 ->
  accurate2 hostAtan2 1e-12 ->
  ~ recovers64 (Coord.binary64 hostSin hostCos hostAtan2) (1 / 10000000)
      probeLng probeLat.
Proof.
  intros Hs Hc Ha (_ & _ & H1 & H2).
  destruct CoordFacts.constants as (Hol & Hot & _).
  destruct near_probeLng as [Hfl Hvl], near_probeLat as [Hft Hvt].
  apply TrigFacts.Rabs_bound in Hvl. apply TrigFacts.Rabs_bound in Hvt.
  destruct (near_roundTrip hostSin hostCos hostAtan2 Hs Hc Ha probeLng probeLat
              Hfl Hft ltac:(lra) ltac:(lra)) as [[_ Hn1] [_ Hn2]].
  set (x := value probeLng - Coord.offsetLng). set (y := value probeLat - Coord.offsetLat).
  apply (ProbeFacts.roundTrip_far x y).
  - apply Rabs_le. unfold x. lra.
  - apply Rabs_le. unfold y. lra.
  - replace (x + Coord.offsetLng) with (value probeLng) by (unfold x; ring).
    replace (y + Coord.offsetLat) with (value probeLat) by (unfold y; ring).
    apply TrigFacts.Rabs_bound in H1, H2, Hn1, Hn2.
    split; apply Rabs_le; lra.
Qed.

(** C7.  In binary64, on a host whose [Math.sin], [Math.cos] and
    [Math.atan2] are within 1e-12 of the real functions, the round trip
    [gcj02tobd09(...bd09togcj02(lng, lat))] gives back every point inside
    the box, the points for which [out_of_china] is false, up to 0.00002
    degrees in each coordinate; its two results are finite numbers.  The
    tolerance is that of the formulas, not of the rounding: the two
    transforms are not inverse to each other. *)
Theorem roundTrip_recovers_binary64 (hostSin hostCos : float -> float)
    (hostAtan2 : float -> float -> float) (lng lat : float) :
  accurate hostSin sin 1e-12 -> accurate hostCos cos 1e-12 ->
  accurate2 hostAtan2 1e-12 ->
  @Coord.out_of_china float (Coord.binary64 hostSin hostCos hostAtan2) lng lat = false ->
  recovers64 (Coord.binary64 hostSin hostCos hostAtan2) (2 / 100000) lng lat.
Proof.
  intros Hs Hc Ha Hbox.
  destruct (in_china_values _ _ _ lng lat Hbox) as (Hfl & Hft & HL & HT).
  destruct CoordFacts.constants as (Hol & Hot & _).
  destruct (near_roundTrip hostSin hostCos hostAtan2 Hs Hc Ha lng lat Hfl Hft HL HT)
    as [[Hf1 Hn1] [Hf2 Hn2]].
  set (x := value lng - Coord.offsetLng). set (y := value lat - Coord.offsetLat).
  destruct (roundTrip_close x y ltac:(unfold x; lra) ltac:(unfold y; lra)) as [Hc1 Hc2].
  replace (x + Coord.offsetLng) with (value lng) in Hc1, Hc2 by (unfold x; ring).
  replace (y + Coord.offsetLat) with (value lat) in Hc1, Hc2 by (unfold y; ring).
  apply TrigFacts.Rabs_bound in Hn1, Hn2, Hc1, Hc2.
  unfold recovers64. cbv zeta.
  split; [exact Hf1|]. split; [exact Hf2|].
  split; apply Rabs_le; lra.
Qed.

Lemma roundTrip_recovers_binary64_witness :
  accurate gridSin sin 1e-12 /\ accurate gridCos cos 1e-12
  /\ accurate2 gridAtan2 1e-12
  /\ @Coord.out_of_china float gridHost probeLng probeLat = false
  /\ recovers64 gridHost (2 / 100000) probeLng probeLat.
Proof.
  split; [exact gridSin_accurate|]. split; [exact gridCos_accurate|].
  split; [exact gridAtan2_accurate|]. split; [exact probe_in_china|].
  exact (roundTrip_recovers_binary64 gridSin gridCos gridAtan2 probeLng probeLat
           gridSin_accurate gridCos_accurate gridAtan2_accurate probe_in_china).
Defined.

(** C7 (counterexample).  The round trip is no identity up to rounding:
    with the grid host, which is accurate, the point (90.0065, 18.006) of
    the box comes back more than 0.0000001 degrees off in one of its
    coordinates, several million units in the last place.
    [probe_is_missed] shows the same for every accurate host. *)
Lemma roundTrip_misses_binary64 :
  accurate gridSin sin 1e-12 /\ accurate gridCos cos 1e-12
  /\ accurate2 gridAtan2 1e-12
  /\ @Coord.out_of_china float gridHost probeLng probeLat = false
  /\ ~ recovers64 gridHost (1 / 10000000) probeLng probeLat.
Proof.
  split; [exact gridSin_accurate|]. split; [exact gridCos_accurate|].
  split; [exact gridAtan2_accurate|]. split; [exact probe_in_china|].
  exact (probe_is_missed gridSin gridCos gridAtan2
           gridSin_accurate gridCos_accurate gridAtan2_accurate).
Qed.

End Binary64TripFacts.
